(** * longhorn-manager: the v1.2.2 -> v1.2.3 resource upgrade and the
      LUKS device-status helper, embedded in Rocq.

    Two Go packages are covered:
    - [crypto]     (csi/crypto/crypto.go): [DeviceEncryptionStatus], [IsDeviceOpen];
    - [v122to123]  (upgrade/v122to123/upgrade.go): [upgradeBackups],
      [checkAndRemoveEngineBackupStatus], [checkAndUpdateEngineActiveState].

    Go values are modelled as follows.  A Go [string] is a [string] (a byte
    sequence).  A Go [map[string]T] is a [gmap string T]; a [range] over a map
    visits the keys in an order the language leaves open, so every function
    that ranges over a map takes the order of that visit as an argument and
    the theorems quantify over it.  A pointer into a cached map is the key of
    the object it points to, a nil pointer is [None], and a dereference of nil
    is a [Panic].  A Go [(value, error)] result is a sum [error + value]. *)

From Stdlib Require Import ZArith.
From stdpp Require Import gmap strings list fin_maps.

Local Open Scope string_scope.

(** ** Outcome of running a piece of Go code: it returns, or it panics. *)

Inductive exec (A : Type) : Type :=
  | Done (a : A)
  | Panic (reason : string).
Arguments Done {A} a.
Arguments Panic {A} reason.

Definition nilDereference : string :=
  "invalid memory address or nil pointer dereference".
Definition indexOutOfRange : string := "index out of range".

(** ** Package crypto *)

Module crypto.

Definition mapperFilePathPrefix : string := "/dev/mapper".

(** strings.HasPrefix *)
Fixpoint HasPrefix (s prefix : string) : bool :=
  match prefix, s with
  | EmptyString, _ => true
  | String _ _, EmptyString => false
  | String c prefix', String d s' =>
      if Ascii.eqb c d then HasPrefix s' prefix' else false
  end.

(** strings.TrimPrefix *)
Definition TrimPrefix (s prefix : string) : string :=
  if HasPrefix s prefix
  then String.substring (String.length prefix)
                        (String.length s - String.length prefix) s
  else s.

(** strings.Contains *)
Fixpoint Contains (s substr : string) : bool :=
  HasPrefix s substr ||
  match s with
  | EmptyString => false
  | String _ s' => Contains s' substr
  end.

(** strings.Split for a separator of one byte (the source splits on the
    newline byte only).  The result always has at least one element. *)
Fixpoint Split (s : string) (sep : Ascii.ascii) : list string :=
  match s with
  | EmptyString => [EmptyString]
  | String c s' =>
      if Ascii.eqb c sep then EmptyString :: Split s' sep
      else match Split s' sep with
           | [] => [String c EmptyString]
           | piece :: pieces => String c piece :: pieces
           end
  end.

(** strings.SplitN(s, sep, 2) for a separator of one byte: cut at the first
    separator, or return the whole string as the only piece. *)
Fixpoint SplitN2 (s : string) (sep : Ascii.ascii) : list string :=
  match s with
  | EmptyString => [EmptyString]
  | String c s' =>
      if Ascii.eqb c sep then [EmptyString; s']
      else match SplitN2 s' sep with
           | piece :: pieces => String c piece :: pieces
           | [] => [String c EmptyString]
           end
  end.

Definition newline : Ascii.ascii := Ascii.ascii_of_nat 10.
Definition colon : Ascii.ascii := Ascii.ascii_of_nat 58.

(** errors built by fmt.Errorf are kept as their message *)
Definition error := string.

Section DeviceStatus.

(** The cryptsetup wrapper [luksStatus] (luks.go) runs an external command.
    It is taken as a parameter acting on an abstract [World], so that a call
    to it is visible in the result; Go's strings.TrimSpace is a parameter
    too. *)
Context {World : Type}.
Variable luksStatus : string -> World -> World * (error + string).
Variable TrimSpace : string -> string.

(** The loop [for i := 1; i < len(lines); i++] of DeviceEncryptionStatus,
    over the lines after the first one. *)
Fixpoint scanLines (devicePath volume : string) (lines : list string)
  : exec (string * string * option error) :=
  match lines with
  | [] => Done (EmptyString, EmptyString,
                Some ("mapped device not found in path " ++ devicePath))
  | line :: rest =>
      let kv := SplitN2 (TrimSpace line) colon in
      match kv with
      | [] => Done (EmptyString, EmptyString,
                    Some ("device encryption status output for " ++ devicePath
                          ++ " is badly formatted: " ++ line))
      | key :: _ =>
          if String.eqb key "device" then
            match kv !! 1%nat with
            | Some value => Done (TrimSpace value, volume, None)
            | None => Panic indexOutOfRange
            end
          else scanLines devicePath volume rest
      end
  end.

Definition DeviceEncryptionStatus (devicePath : string) (w : World)
  : World * exec (string * string * option error) :=
  if negb (HasPrefix devicePath mapperFilePathPrefix) then
    (w, Done (devicePath, EmptyString, None))
  else
    let volume := TrimPrefix devicePath (mapperFilePathPrefix ++ "/") in
    match luksStatus volume w with
    | (w', inl _) => (w', Done (devicePath, EmptyString, None))
    | (w', inr stdout) =>
        match Split stdout newline with
        | [] => (w', Done (EmptyString, EmptyString,
                   Some ("device encryption status returned no stdout for "
                         ++ devicePath)))
        | first :: rest =>
            if negb (Contains first " is active") then
              (w', Done (devicePath, EmptyString, None))
            else (w', scanLines devicePath volume rest)
        end
    end.

Definition IsDeviceOpen (device : string) (w : World)
  : World * exec (bool * option error) :=
  match DeviceEncryptionStatus device w with
  | (w', Done (_, mappedFile, err)) =>
      (w', Done (negb (String.eqb mappedFile EmptyString), err))
  | (w', Panic reason) => (w', Panic reason)
  end.

End DeviceStatus.

(** *** The cipher options *)

Definition CryptoKeyDefaultCipher : string := "aes-xts-plain64".
Definition CryptoKeyDefaultHash : string := "sha256".
Definition CryptoKeyDefaultSize : string := "256".
Definition CryptoDefaultPBKDF : string := "argon2i".

(** EncryptParams keeps the customized cipher options from the secret CR.  The
    methods are modelled on a non-nil receiver. *)
Record EncryptParams : Type := {
  KeyProvider : string;
  KeyCipher : string;
  KeyHash : string;
  KeySize : string;
  PBKDF : string;
}.

Definition NewEncryptParams (keyProvider keyCipher keyHash keySize pbkdf : string)
  : EncryptParams :=
  {| KeyProvider := keyProvider; KeyCipher := keyCipher; KeyHash := keyHash;
     KeySize := keySize; PBKDF := pbkdf |}.

Definition GetKeyCipher (cp : EncryptParams) : string :=
  if String.eqb (KeyCipher cp) EmptyString then CryptoKeyDefaultCipher
  else KeyCipher cp.

Definition GetKeyHash (cp : EncryptParams) : string :=
  if String.eqb (KeyHash cp) EmptyString then CryptoKeyDefaultHash else KeyHash cp.

Definition GetKeySize (cp : EncryptParams) : string :=
  if String.eqb (KeySize cp) EmptyString then CryptoKeyDefaultSize else KeySize cp.

Definition GetPBKDF (cp : EncryptParams) : string :=
  if String.eqb (PBKDF cp) EmptyString then CryptoDefaultPBKDF else PBKDF cp.

(** *** The path of the mapped device *)

Definition slash : Ascii.ascii := Ascii.ascii_of_nat 47.

(** One path element in path.Clean, on the elements kept so far (the last one
    first): empty elements and [.] are dropped, [..] removes the element
    before it, is dropped at the root, and is kept at the start of a path that
    is not rooted. *)
Definition cleanElement (rooted : bool) (kept : list string) (element : string)
  : list string :=
  if String.eqb element EmptyString then kept
  else if String.eqb element "." then kept
  else if String.eqb element ".." then
    match kept with
    | last :: others => if String.eqb last ".." then element :: kept else others
    | [] => if rooted then [] else [element]
    end
  else element :: kept.

(** path.Clean of the Go standard library, element by element *)
Definition Clean (path : string) : string :=
  if String.eqb path EmptyString then "."
  else
    let rooted := HasPrefix path "/" in
    let kept := rev (foldl (cleanElement rooted) [] (Split path slash)) in
    let out := (if rooted then "/" else EmptyString) ++ String.concat "/" kept in
    if String.eqb out EmptyString then "." else out.

(** path.Join of two elements, the first of which is not empty: the elements
    are put together with a slash and the result is cleaned. *)
Definition Join (first second : string) : string :=
  Clean (first ++ "/" ++ second).

(** VolumeMapper returns the path for mapped encrypted device. *)
Definition VolumeMapper (volume : string) : string :=
  Join mapperFilePathPrefix volume.

Section VolumeLifecycle.

(** The cryptsetup wrappers of luks.go, parameters like [luksStatus]: each
    runs a command in the world and returns its output or an error. *)
Context {World : Type}.
Variable luksStatus : string -> World -> World * (error + string).
Variable TrimSpace : string -> string.
Variable luksFormat : string -> string -> EncryptParams -> World -> World * (error + string).
Variable luksOpen : string -> string -> string -> World -> World * (error + string).
Variable luksClose : string -> World -> World * (error + string).
Variable luksResize : string -> string -> World -> World * (error + string).

(** EncryptVolume encrypts provided device with LUKS. *)
Definition EncryptVolume (devicePath passphrase : string) (cryptoParams : EncryptParams)
    (w : World) : World * exec (option error) :=
  match luksFormat devicePath passphrase cryptoParams w with
  | (w', inl err) =>
      (w', Done (Some ("failed to encrypt device " ++ devicePath ++ " with LUKS: " ++ err)))
  | (w', inr _) => (w', Done None)
  end.

(** OpenVolume opens volume so that it can be used by the client.  The error
    of IsDeviceOpen is dropped. *)
Definition OpenVolume (volume devicePath passphrase : string) (w : World)
  : World * exec (option error) :=
  match IsDeviceOpen luksStatus TrimSpace (VolumeMapper volume) w with
  | (w', Panic reason) => (w', Panic reason)
  | (w', Done (isOpen, _)) =>
      if isOpen : bool then (w', Done None)
      else match luksOpen volume devicePath passphrase w' with
           | (w'', inl err) => (w'', Done (Some err))
           | (w'', inr _) => (w'', Done None)
           end
  end.

(** CloseVolume closes encrypted volume so it can be detached. *)
Definition CloseVolume (volume : string) (w : World) : World * exec (option error) :=
  match luksClose volume w with
  | (w', inl err) => (w', Done (Some err))
  | (w', inr _) => (w', Done None)
  end.

Definition ResizeEncryptoDevice (volume passphrase : string) (w : World)
  : World * exec (option error) :=
  match IsDeviceOpen luksStatus TrimSpace (VolumeMapper volume) w with
  | (w', Panic reason) => (w', Panic reason)
  | (w', Done (_, Some err)) => (w', Done (Some err))
  | (w', Done (isOpen, None)) =>
      if negb isOpen then
        (w', Done (Some ("volume " ++ volume ++ " encrypto device is closed for resizing")))
      else match luksResize volume passphrase w' with
           | (w'', inl err) => (w'', Done (Some err))
           | (w'', inr _) => (w'', Done None)
           end
  end.

End VolumeLifecycle.

(** *** Notions used to state the properties of the functions above *)

(** a volume name that is one path element: not empty, not [.] or [..], and
    without a slash *)
Definition singleElement (volume : string) : bool :=
  negb (String.eqb volume EmptyString) && negb (String.eqb volume ".")
  && negb (String.eqb volume "..") && negb (Contains volume "/").

(** whether the first line of the status output says the mapping is active *)
Definition statusActive (result : error + string) : bool :=
  match result with
  | inl _ => false
  | inr stdout =>
      match Split stdout newline with
      | first :: _ => Contains first " is active"
      | [] => false
      end
  end.

(** what the callers make of the result of a cryptsetup wrapper *)
Definition errorOf (result : error + string) : option error :=
  match result with
  | inl err => Some err
  | inr _ => None
  end.

Section StatusLines.
Variable TrimSpace : string -> string.

(** a line is skipped by the loop of DeviceEncryptionStatus when, trimmed, it
    is neither [device] nor [device:] followed by a value *)
Definition otherLine (line : string) : Prop :=
  TrimSpace line <> "device" /\ forall value, TrimSpace line <> "device:" ++ value.

(** the status output of an active mapping whose first line with the key
    [device] is [line] *)
Definition activeWithDevice (stdout line : string) : Prop :=
  exists first before after,
    Split stdout newline = first :: (before ++ line :: after)%list /\
    Contains first " is active" = true /\
    forall l, l ∈ before -> otherLine l.

End StatusLines.

End crypto.

(** ** Package v122to123 *)

Module v122to123.

Definition upgradeLogPrefix : string := "upgrade from v1.2.2 to v1.2.3: ".

(** Go errors the upgrade can see: a failure reported by the store client, the
    NotFound of a single-object get, and the wrapping done by errors.Wrapf. *)
Inductive error : Type :=
  | StoreError (message : string)
  | NotFound (kind name : string)
  | Wrapf (cause : error) (message : string).

(** errors.Wrapf returns nil when the wrapped error is nil. *)
Definition errors_Wrapf (err : option error) (message : string) : option error :=
  (fun cause => Wrapf cause message) <$> err.

(** *** Resource records

    The records carry the fields the source reads or writes; the paths of the
    Go fields are kept in the names ([v.Status.CurrentNodeID] is
    [Volume_Status_CurrentNodeID v]).  The type declarations themselves live in
    the API package, outside the translated sources. *)

Record Volume : Type := {
  Volume_Spec_NodeID : string;
  Volume_Status_CurrentNodeID : string;
  Volume_Status_PendingNodeID : string;
}.

(** an entry of Engine.Status.BackupStatus *)
Record EngineBackupStatus : Type := {
  Progress : Z;
  BackupURL : string;
  Error : string;
  SnapshotName : string;
  State : string;
  ReplicaAddress : string;
}.

(** [Engine_Status_BackupStatus = None] is the nil map. *)
Record Engine : Type := {
  Engine_Labels : gmap string string;
  Engine_Spec_VolumeName : string;
  Engine_Spec_NodeID : string;
  Engine_Spec_DesireState : string;
  Engine_Spec_Active : bool;
  Engine_Status_CurrentState : string;
  Engine_Status_BackupStatus : option (gmap string EngineBackupStatus);
}.

Record Backup : Type := {
  Backup_Name : string;
  Backup_Labels : gmap string string;
  Backup_Status_Progress : Z;
  Backup_Status_URL : string;
  Backup_Status_Error : string;
  Backup_Status_SnapshotName : string;
  Backup_Status_State : string;
  Backup_Status_ReplicaAddress : string;
}.

(** [engine.Status.BackupStatus = nil] *)
Definition Engine_clearBackupStatus (e : Engine) : Engine :=
  {| Engine_Labels := Engine_Labels e;
     Engine_Spec_VolumeName := Engine_Spec_VolumeName e;
     Engine_Spec_NodeID := Engine_Spec_NodeID e;
     Engine_Spec_DesireState := Engine_Spec_DesireState e;
     Engine_Spec_Active := Engine_Spec_Active e;
     Engine_Status_CurrentState := Engine_Status_CurrentState e;
     Engine_Status_BackupStatus := None |}.

(** [currentEngine.Spec.Active = true] *)
Definition Engine_setActive (e : Engine) : Engine :=
  {| Engine_Labels := Engine_Labels e;
     Engine_Spec_VolumeName := Engine_Spec_VolumeName e;
     Engine_Spec_NodeID := Engine_Spec_NodeID e;
     Engine_Spec_DesireState := Engine_Spec_DesireState e;
     Engine_Spec_Active := true;
     Engine_Status_CurrentState := Engine_Status_CurrentState e;
     Engine_Status_BackupStatus := Engine_Status_BackupStatus e |}.

(** [engine.Status.BackupStatus[name]]: a lookup in a nil map finds nothing. *)
Definition Engine_backupStatusOf (e : Engine) (name : string)
  : option EngineBackupStatus :=
  match Engine_Status_BackupStatus e with
  | Some statuses => statuses !! name
  | None => None
  end.

(** *** The store and the cache (package upgrade/util and the client set) *)

(** Modelled from the spec: the resource store of section 1, reached through
    lhClient; the client set is not part of the translated sources.  It lists
    all resources of a kind in a namespace and gets a single resource by name;
    each call can fail, and a get reports [None] for an object the store does
    not have.  The upgrade never writes to the store, and nothing else does
    while it runs, so the answers are fixed. *)
Record Clientset : Type := {
  ListBackups : string -> error + gmap string Backup;
  ListEngines : string -> error + gmap string Engine;
  ListVolumes : string -> error + gmap string Volume;
  GetVolume : string -> string -> error + option Volume;
}.

(** Modelled from the spec: the cache of one resource kind inside
    resourceMaps (section 4.1), a lazily populated mapping from name to
    object; [listed] records that the full list was fetched already. *)
Record KindCache (X : Type) : Type := {
  listed : bool;
  objects : gmap string X;
}.
Arguments listed {X} _.
Arguments objects {X} _.

(** Modelled from the spec: resourceMaps, the scratch mapping shared by all
    steps (section 6: kind name, then name, then object). *)
Record ResourceMaps : Type := {
  backups : KindCache Backup;
  engines : KindCache Engine;
  volumes : KindCache Volume;
}.

Definition set_backups (c : KindCache Backup) (rm : ResourceMaps) : ResourceMaps :=
  {| backups := c; engines := engines rm; volumes := volumes rm |}.
Definition set_engines (c : KindCache Engine) (rm : ResourceMaps) : ResourceMaps :=
  {| backups := backups rm; engines := c; volumes := volumes rm |}.
Definition set_volumes (c : KindCache Volume) (rm : ResourceMaps) : ResourceMaps :=
  {| backups := backups rm; engines := engines rm; volumes := c |}.

(** *** Code that mutates the cache: a state monad that can panic *)

Definition run (A : Type) : Type := ResourceMaps -> ResourceMaps * exec A.

#[export] Instance run_ret : MRet run := fun A a rm => (rm, Done a).
#[export] Instance run_bind : MBind run := fun A B f m rm =>
  match m rm with
  | (rm', Done a) => f a rm'
  | (rm', Panic reason) => (rm', Panic reason)
  end.

Definition panic {A : Type} (reason : string) : run A :=
  fun rm => (rm, Panic reason).

(** read through the pointer [k] into the cached engines / backups *)
Definition derefEngine (k : string) : run Engine := fun rm =>
  match objects (engines rm) !! k with
  | Some e => (rm, Done e)
  | None => (rm, Panic nilDereference)
  end.
Definition derefBackup (k : string) : run Backup := fun rm =>
  match objects (backups rm) !! k with
  | Some b => (rm, Done b)
  | None => (rm, Panic nilDereference)
  end.

(** write through the pointer [k] *)
Definition storeEngine (k : string) (e : Engine) : run unit := fun rm =>
  (set_engines {| listed := listed (engines rm);
                  objects := <[k := e]> (objects (engines rm)) |} rm, Done tt).
Definition storeBackup (k : string) (b : Backup) : run unit := fun rm =>
  (set_backups {| listed := listed (backups rm);
                  objects := <[k := b]> (objects (backups rm)) |} rm, Done tt).

(** [for k, x := range m], visiting the keys of [m] in the given order *)
Definition range {X : Type} (order : list string) (m : gmap string X)
  : list (string * X) :=
  omap (fun k => pair k <$> m !! k) order.

(** [order] is a possible order of a [range] over [m]: every key once. *)
Definition RangeOrder {X : Type} (order : list string) (m : gmap string X) : Prop :=
  NoDup order /\ list_to_set order = dom m.

(** a loop whose body neither breaks nor returns *)
Fixpoint forEach {A : Type} (body : A -> run unit) (l : list A) : run unit :=
  match l with
  | [] => mret tt
  | x :: rest => _ ← body x; forEach body rest
  end.

Section Upgrade.

(** Constants and helpers of other packages of the repository, taken as
    parameters: the label keys types.LonghornLabelVolume and
    types.LonghornLabelBackupVolume, the instance state
    longhorn.InstanceStateRunning and engineapi.ConvertEngineBackupState. *)
Variable LonghornLabelVolume : string.
Variable LonghornLabelBackupVolume : string.
Variable InstanceStateRunning : string.
Variable ConvertEngineBackupState : string -> string.

Variable namespace : string.
Variable lhClient : Clientset.

(** Modelled from the spec: upgradeutil.ListAndUpdate...InProvidedCache
    (section 4.1, listAndCache).  The first call for a kind fetches the full
    list from the store and keeps it; later calls return the cached mapping.
    A store failure is returned and nothing is cached. *)
Definition ListAndUpdateBackupsInProvidedCache : run (error + gmap string Backup) :=
  fun rm =>
    if listed (backups rm) then (rm, Done (inr (objects (backups rm))))
    else match ListBackups lhClient namespace with
         | inl err => (rm, Done (inl err))
         | inr m => (set_backups {| listed := true; objects := m |} rm, Done (inr m))
         end.

Definition ListAndUpdateEnginesInProvidedCache : run (error + gmap string Engine) :=
  fun rm =>
    if listed (engines rm) then (rm, Done (inr (objects (engines rm))))
    else match ListEngines lhClient namespace with
         | inl err => (rm, Done (inl err))
         | inr m => (set_engines {| listed := true; objects := m |} rm, Done (inr m))
         end.

Definition ListAndUpdateVolumesInProvidedCache : run (error + gmap string Volume) :=
  fun rm =>
    if listed (volumes rm) then (rm, Done (inr (objects (volumes rm))))
    else match ListVolumes lhClient namespace with
         | inl err => (rm, Done (inl err))
         | inr m => (set_volumes {| listed := true; objects := m |} rm, Done (inr m))
         end.

(** Modelled from the spec: upgradeutil.GetVolumeFromProvidedCache (section
    4.1, get).  A cached volume is returned as it is; otherwise the volume is
    fetched from the store and cached, and the call fails with NotFound when
    the store has no such volume. *)
Definition GetVolumeFromProvidedCache (name : string) : run (error + Volume) :=
  fun rm =>
    match objects (volumes rm) !! name with
    | Some v => (rm, Done (inr v))
    | None =>
        match GetVolume lhClient namespace name with
        | inl err => (rm, Done (inl err))
        | inr None => (rm, Done (inl (NotFound "volume" name)))
        | inr (Some v) =>
            (set_volumes {| listed := listed (volumes rm);
                            objects := <[name := v]> (objects (volumes rm)) |} rm,
             Done (inr v))
        end
    end.

(** **** upgradeBackups *)

(** [e.Labels[types.LonghornLabelVolume]]: the empty string without the label *)
Definition engineVolumeLabel (e : Engine) : string :=
  default EmptyString (Engine_Labels e !! LonghornLabelVolume).

(** The index built by the first loop of upgradeBackups.  Engines are only
    read in this step, so a pointer to an engine is the record it points to. *)
Definition volumeNameToEngines (engineMap : list (string * Engine))
  : gmap string (list Engine) :=
  foldl (fun index ke =>
           <[engineVolumeLabel ke.2 :=
               (default [] (index !! engineVolumeLabel ke.2) ++ [ke.2])%list]> index)
        ∅ engineMap.

(** the condition of the loop over the candidates (lines 79-81) *)
Definition runningOnCurrentNode (v : Volume) (e : Engine) : bool :=
  bool_decide (Engine_Spec_NodeID e = Volume_Status_CurrentNodeID v) &&
  bool_decide (Engine_Spec_DesireState e = InstanceStateRunning) &&
  bool_decide (Engine_Status_CurrentState e = InstanceStateRunning).

(** The switch on len(engines) (lines 66-86): [None] is a [continue],
    [Some engine] leaves the switch with the pointer [engine], which is nil
    ([None]) when no candidate of the default case passes the test. *)
Definition selectEngine (volumeMap : gmap string Volume) (volumeName : string)
    (engines : list Engine) : option (option Engine) :=
  match engines with
  | [] => None
  | [e] => Some (Some e)
  | _ =>
      match volumeMap !! volumeName with
      | None => None
      | Some v => Some (List.find (runningOnCurrentNode v) engines)
      end
  end.

(** the six assignments of lines 94-99 *)
Definition copyBackupStatus (backup : Backup) (backupStatus : EngineBackupStatus)
  : Backup :=
  {| Backup_Name := Backup_Name backup;
     Backup_Labels := Backup_Labels backup;
     Backup_Status_Progress := Progress backupStatus;
     Backup_Status_URL := BackupURL backupStatus;
     Backup_Status_Error := Error backupStatus;
     Backup_Status_SnapshotName := SnapshotName backupStatus;
     Backup_Status_State := ConvertEngineBackupState (State backupStatus);
     Backup_Status_ReplicaAddress := ReplicaAddress backupStatus |}.

(** The body of the loop over the backups, for the backup behind the
    pointer [k].  Reading [engine.Status] through a nil [engine] panics. *)
Definition upgradeBackup (index : gmap string (list Engine))
    (volumeMap : gmap string Volume) (k : string) : run unit :=
  backup ← derefBackup k;
  match Backup_Labels backup !! LonghornLabelBackupVolume with
  | None => mret tt
  | Some volumeName =>
      match selectEngine volumeMap volumeName (default [] (index !! volumeName)) with
      | None => mret tt
      | Some None => panic nilDereference
      | Some (Some engine) =>
          match Engine_backupStatusOf engine (Backup_Name backup) with
          | None => mret tt
          | Some backupStatus => storeBackup k (copyBackupStatus backup backupStatus)
          end
      end
  end.

(** the deferred errors.Wrapf of upgradeBackups and upgradeEngines; a panic
    passes through it *)
Definition wrapping (message : string) (body : run (option error))
  : run (option error) :=
  err ← body; mret (errors_Wrapf err (upgradeLogPrefix ++ message)).

Definition upgradeBackups (engineOrder backupOrder : list string)
  : run (option error) :=
  wrapping "upgrade backups failed" (
    listedBackups ← ListAndUpdateBackupsInProvidedCache;
    match listedBackups with
    | inl err => mret (Some err)
    | inr backupMap =>
        listedEngines ← ListAndUpdateEnginesInProvidedCache;
        match listedEngines with
        | inl err => mret (Some err)
        | inr engineMap =>
            let index := volumeNameToEngines (range engineOrder engineMap) in
            listedVolumes ← ListAndUpdateVolumesInProvidedCache;
            match listedVolumes with
            | inl err => mret (Some err)
            | inr volumeMap =>
                _ ← forEach (upgradeBackup index volumeMap)
                            (range backupOrder backupMap).*1;
                mret None
            end
        end
    end).

(** **** checkAndRemoveEngineBackupStatus *)

Definition removeEngineBackupStatus (k : string) : run unit :=
  engine ← derefEngine k;
  storeEngine k (Engine_clearBackupStatus engine).

Definition checkAndRemoveEngineBackupStatus (engineOrder : list string)
  : run (option error) :=
  listedEngines ← ListAndUpdateEnginesInProvidedCache;
  match listedEngines with
  | inl err => mret (Some err)
  | inr engineMap =>
      _ ← forEach removeEngineBackupStatus (range engineOrder engineMap).*1;
      mret None
  end.

(** **** checkAndUpdateEngineActiveState *)

(** The grouping loop (lines 143-150): the pointers to the engines of each
    volume, in the order of the visit; engines without a volume name are
    left out. *)
Definition volumeEngineMap (engineMap : list (string * Engine))
  : gmap string (list string) :=
  foldl (fun groups ke =>
           if decide (Engine_Spec_VolumeName ke.2 = EmptyString) then groups
           else <[Engine_Spec_VolumeName ke.2 :=
                    (default [] (groups !! Engine_Spec_VolumeName ke.2)
                     ++ [ke.1])%list]> groups)
        ∅ engineMap.

(** the loop that sets [skip] (lines 155-161) *)
Fixpoint anyActive (engineList : list string) : run bool :=
  match engineList with
  | [] => mret false
  | k :: rest =>
      e ← derefEngine k;
      if Engine_Spec_Active e then mret true else anyActive rest
  end.

(** the three alternative tests of lines 175-177 *)
Definition onVolumeNode (v : Volume) (e : Engine) : bool :=
  (negb (bool_decide (Volume_Spec_NodeID v = EmptyString)) &&
   bool_decide (Volume_Spec_NodeID v = Engine_Spec_NodeID e)) ||
  (negb (bool_decide (Volume_Status_CurrentNodeID v = EmptyString)) &&
   bool_decide (Volume_Status_CurrentNodeID v = Engine_Spec_NodeID e)) ||
  (negb (bool_decide (Volume_Status_PendingNodeID v = EmptyString)) &&
   bool_decide (Volume_Status_PendingNodeID v = Engine_Spec_NodeID e)).

(** the loop over the indices of engineList (lines 174-181): the pointer to
    the first engine that passes the test, or nil *)
Fixpoint findCurrentEngine (v : Volume) (engineList : list string)
  : run (option string) :=
  match engineList with
  | [] => mret None
  | k :: rest =>
      e ← derefEngine k;
      if onVolumeNode v e then mret (Some k) else findCurrentEngine v rest
  end.

(** Lines 166-182: the value of [currentEngine] after the if/else, or the
    error of the get. *)
Definition chooseCurrentEngine (volumeName : string) (engineList : list string)
  : run (error + option string) :=
  match engineList with
  | [k] => mret (inr (Some k))
  | _ =>
      got ← GetVolumeFromProvidedCache volumeName;
      match got with
      | inl err => mret (inl err)
      | inr v => k ← findCurrentEngine v engineList; mret (inr k)
      end
  end.

(** The body of the loop over the groups (lines 154-187).  The result
    [Some err] is the [return err] of line 172; [None] goes on with the next
    group. *)
Definition updateGroup (volumeName : string) (engineList : list string)
  : run (option error) :=
  skip ← anyActive engineList;
  if skip : bool then mret None
  else
    chosen ← chooseCurrentEngine volumeName engineList;
    match chosen with
    | inl err => mret (Some err)
    | inr None => mret None
    | inr (Some k) =>
        currentEngine ← derefEngine k;
        _ ← storeEngine k (Engine_setActive currentEngine);
        mret None
    end.

Fixpoint updateGroups (groups : list (string * list string)) : run (option error) :=
  match groups with
  | [] => mret None
  | (volumeName, engineList) :: rest =>
      err ← updateGroup volumeName engineList;
      match err with
      | Some _ => mret err
      | None => updateGroups rest
      end
  end.

Definition checkAndUpdateEngineActiveState (engineOrder volumeOrder : list string)
  : run (option error) :=
  listedEngines ← ListAndUpdateEnginesInProvidedCache;
  match listedEngines with
  | inl err => mret (Some err)
  | inr engineMap =>
      updateGroups (range volumeOrder (volumeEngineMap (range engineOrder engineMap)))
  end.

(** **** upgradeEngines and UpgradeResources *)

Definition upgradeEngines (removeOrder engineOrder volumeOrder : list string)
  : run (option error) :=
  wrapping "upgrade engines failed" (
    err ← checkAndRemoveEngineBackupStatus removeOrder;
    match err with
    | Some _ => mret err
    | None => checkAndUpdateEngineActiveState engineOrder volumeOrder
    end).

Definition UpgradeResources
    (indexOrder backupOrder removeOrder engineOrder volumeOrder : list string)
  : run (option error) :=
  err ← upgradeBackups indexOrder backupOrder;
  match err with
  | Some _ => mret err
  | None => upgradeEngines removeOrder engineOrder volumeOrder
  end.

End Upgrade.

(** *** Notions used to state and prove the properties of
        checkAndUpdateEngineActiveState *)

(** the pointers to the engines of a volume, in the order of the visit *)
Definition groupOf (engineMap : gmap string Engine) (volumeName : string)
    (engineOrder : list string) : list string :=
  filter (fun k => Engine_Spec_VolumeName <$> engineMap !! k = Some volumeName)
         engineOrder.

(** the volume name of the engine behind a pointer, empty without an engine *)
Definition volumeNameOf (engineMap : gmap string Engine) (k : string) : string :=
  default EmptyString (Engine_Spec_VolumeName <$> engineMap !! k).

(** An order of visit of the engines that follows [order1] on the engines of
    the volumes [visited] and [order2] on the others, and the like for the
    volumes. *)
Definition mergedEngineOrder (engineMap : gmap string Engine) (visited : list string)
    (order1 order2 : list string) : list string :=
  (filter (fun k => volumeNameOf engineMap k ∈ visited) order1 ++
   filter (fun k => volumeNameOf engineMap k ∉ visited) order2)%list.

Definition mergedVolumeOrder (visited order2 : list string) : list string :=
  (visited ++ filter (fun volumeName => volumeName ∉ visited) order2)%list.

Section Notions.
Variable namespace : string.
Variable lhClient : Clientset.

(** the state after [currentEngine.Spec.Active = true] through the pointer
    [k] to the engine [e] *)
Definition activate (k : string) (e : Engine) (rm : ResourceMaps) : ResourceMaps :=
  set_engines {| listed := listed (engines rm);
                 objects := <[k := Engine_setActive e]> (objects (engines rm)) |} rm.

(** every pointer of the list points to a cached engine *)
Definition pointersValid (rm : ResourceMaps) (engineList : list string) : Prop :=
  forall k, k ∈ engineList -> is_Some (objects (engines rm) !! k).

Definition groupsValid (rm : ResourceMaps) (groups : list (string * list string))
  : Prop :=
  forall volumeName engineList,
    (volumeName, engineList) ∈ groups -> pointersValid rm engineList.

Definition noneActive (rm : ResourceMaps) (engineList : list string) : Prop :=
  forall k e, k ∈ engineList -> objects (engines rm) !! k = Some e ->
              Engine_Spec_Active e = false.

Definition noneOnNode (rm : ResourceMaps) (v : Volume) (engineList : list string)
  : Prop :=
  forall k e, k ∈ engineList -> objects (engines rm) !! k = Some e ->
              onVolumeNode v e = false.

(** One turn of the loop over the groups, as a step relation: from the
    state [rm], the group [engineList] of [volumeName] leads to the state
    [rm'] and to the error returned ([None] when the loop goes on). *)
Inductive groupStep (volumeName : string) (engineList : list string)
    (rm : ResourceMaps) : ResourceMaps -> option error -> Prop :=
  | step_skip k e :
      k ∈ engineList -> objects (engines rm) !! k = Some e ->
      Engine_Spec_Active e = true ->
      groupStep volumeName engineList rm rm None
  | step_single k e :
      engineList = [k] -> objects (engines rm) !! k = Some e ->
      Engine_Spec_Active e = false ->
      groupStep volumeName engineList rm (activate k e rm) None
  | step_get_failed err :
      noneActive rm engineList -> (forall k, engineList <> [k]) ->
      GetVolumeFromProvidedCache namespace lhClient volumeName rm
        = (rm, Done (inl err)) ->
      groupStep volumeName engineList rm rm (Some err)
  | step_none_on_node v rm1 :
      noneActive rm engineList -> (forall k, engineList <> [k]) ->
      GetVolumeFromProvidedCache namespace lhClient volumeName rm
        = (rm1, Done (inr v)) ->
      noneOnNode rm v engineList ->
      groupStep volumeName engineList rm rm1 None
  | step_first_on_node v rm1 before k after e :
      noneActive rm engineList -> (forall k, engineList <> [k]) ->
      GetVolumeFromProvidedCache namespace lhClient volumeName rm
        = (rm1, Done (inr v)) ->
      engineList = (before ++ k :: after)%list ->
      noneOnNode rm v before ->
      objects (engines rm) !! k = Some e -> onVolumeNode v e = true ->
      groupStep volumeName engineList rm (activate k e rm1) None.

(** [E'] is [E] with some engines set active *)
Definition activated (E E' : gmap string Engine) : Prop :=
  forall k, E' !! k = E !! k \/ E' !! k = Engine_setActive <$> E !! k.

(** [V'] is [V] with some volumes fetched from the store and added *)
Definition fetched (V V' : gmap string Volume) : Prop :=
  forall name,
    V' !! name = V !! name \/
    (V !! name = None /\
     exists v, GetVolume lhClient namespace name = inr (Some v) /\ V' !! name = Some v).

(** what checkAndUpdateEngineActiveState can do to the cache *)
Definition advances (rm rm' : ResourceMaps) : Prop :=
  backups rm' = backups rm /\
  listed (engines rm') = listed (engines rm) /\
  activated (objects (engines rm)) (objects (engines rm')) /\
  listed (volumes rm') = listed (volumes rm) /\
  fetched (objects (volumes rm)) (objects (volumes rm')).

(** a group the loop passes without a change and without a call to the
    store: it has an active engine, or it has several engines, its volume is
    cached and no engine is on a node of the volume *)
Definition settled (rm : ResourceMaps) (volumeName : string)
    (engineList : list string) : Prop :=
  (exists k e, k ∈ engineList /\ objects (engines rm) !! k = Some e /\
               Engine_Spec_Active e = true) \/
  ((forall k, engineList <> [k]) /\
   exists v, objects (volumes rm) !! volumeName = Some v /\
             noneOnNode rm v engineList).

End Notions.

(** *** Notions used to state and prove the properties of upgradeBackups *)

Section BackupNotions.
Variable LonghornLabelBackupVolume : string.
Variable InstanceStateRunning : string.
Variable ConvertEngineBackupState : string -> string.

(** what one turn of the loop of upgradeBackups makes of a backup, as a
    function of the backup alone: the backup itself when the turn ends in a
    [continue], the backup with the copied status, or the panic of line 89 *)
Definition upgradedBackup (index : gmap string (list Engine))
    (volumeMap : gmap string Volume) (backup : Backup) : exec Backup :=
  match Backup_Labels backup !! LonghornLabelBackupVolume with
  | None => Done backup
  | Some volumeName =>
      match selectEngine InstanceStateRunning volumeMap volumeName
              (default [] (index !! volumeName)) with
      | None => Done backup
      | Some None => Panic nilDereference
      | Some (Some engine) =>
          match Engine_backupStatusOf engine (Backup_Name backup) with
          | None => Done backup
          | Some backupStatus =>
              Done (copyBackupStatus ConvertEngineBackupState backup backupStatus)
          end
      end
  end.

End BackupNotions.

(** [B'] has the backups of [B], each with its name and its labels *)
Definition sameBackups (B B' : gmap string Backup) : Prop :=
  forall k,
    match B !! k with
    | Some backup =>
        exists backup',
          B' !! k = Some backup' /\ Backup_Name backup' = Backup_Name backup /\
          Backup_Labels backup' = Backup_Labels backup
    | None => B' !! k = None
    end.


End v122to123.

(** ** Scenarios: concrete stores and caches on which the statements are run *)

Module scenario.
Import v122to123.

(** sample values for the constants the functions take as parameters *)
Definition labelVolume : string := "longhornvolume".
Definition labelBackupVolume : string := "backup-volume".
Definition stateRunning : string := "running".
Definition convertState (state : string) : string :=
  if String.eqb state "in_progress" then "InProgress"
  else if String.eqb state "complete" then "Completed"
  else if String.eqb state "error" then "Error"
  else "Unknown".

Definition namespace : string := "longhorn-system".

(** a running engine of [volume] on [node] *)
Definition engineOn (volume node : string) (active : bool)
    (backupStatus : option (gmap string EngineBackupStatus)) : Engine :=
  {| Engine_Labels := {[ labelVolume := volume ]};
     Engine_Spec_VolumeName := volume;
     Engine_Spec_NodeID := node;
     Engine_Spec_DesireState := stateRunning;
     Engine_Spec_Active := active;
     Engine_Status_CurrentState := stateRunning;
     Engine_Status_BackupStatus := backupStatus |}.

Definition volumeOn (desired current pending : string) : Volume :=
  {| Volume_Spec_NodeID := desired;
     Volume_Status_CurrentNodeID := current;
     Volume_Status_PendingNodeID := pending |}.

Definition halfDone : EngineBackupStatus :=
  {| Progress := 50;
     BackupURL := "s3://bucket/b1";
     Error := EmptyString;
     SnapshotName := "snap1";
     State := "in_progress";
     ReplicaAddress := "tcp://10.0.0.1:10000" |}.

Definition newBackup (name : string) (labels : gmap string string) : Backup :=
  {| Backup_Name := name;
     Backup_Labels := labels;
     Backup_Status_Progress := 0;
     Backup_Status_URL := EmptyString;
     Backup_Status_Error := EmptyString;
     Backup_Status_SnapshotName := EmptyString;
     Backup_Status_State := EmptyString;
     Backup_Status_ReplicaAddress := EmptyString |}.

(** backup b1 of volume v1, and backup b0 without a volume label *)
Definition twoBackups : gmap string Backup :=
  {[ "b1" := newBackup "b1" {[ labelBackupVolume := "v1" ]};
     "b0" := newBackup "b0" ∅ ]}.

(** one engine for v1, which holds the status of b1 *)
Definition oneEngine : gmap string Engine :=
  {[ "e1" := engineOn "v1" "n1" false (Some {[ "b1" := halfDone ]}) ]}.

(** two engines for v1, on n1 and n2, none active *)
Definition twoEngines : gmap string Engine :=
  {[ "e1" := engineOn "v1" "n1" false (Some {[ "b1" := halfDone ]});
     "e2" := engineOn "v1" "n2" false None ]}.

(** the two engines of v1 and the single engine of v2, none active *)
Definition threeEngines : gmap string Engine :=
  {[ "e1" := engineOn "v1" "n1" false None;
     "e2" := engineOn "v1" "n2" false None;
     "e3" := engineOn "v2" "n1" false None ]}.

(** two engines for v1, both active already *)
Definition twoActiveEngines : gmap string Engine :=
  {[ "e1" := engineOn "v1" "n1" true None;
     "e2" := engineOn "v1" "n2" true None ]}.

(** v1 is on n2 now and is moving to n1 *)
Definition movingVolumes : gmap string Volume :=
  {[ "v1" := volumeOn EmptyString "n2" "n1" ]}.

(** v1 is on n2 *)
Definition attachedVolumes : gmap string Volume :=
  {[ "v1" := volumeOn EmptyString "n2" EmptyString ]}.

(** v1 is on n3, where no engine is *)
Definition elsewhereVolumes : gmap string Volume :=
  {[ "v1" := volumeOn EmptyString "n3" EmptyString ]}.

(** v1 and v2 without any node *)
Definition detachedVolumes : gmap string Volume :=
  {[ "v1" := volumeOn EmptyString EmptyString EmptyString;
     "v2" := volumeOn EmptyString EmptyString EmptyString ]}.

(** a store that holds the given resources and never fails *)
Definition storeOf (bs : gmap string Backup) (es : gmap string Engine)
    (vs : gmap string Volume) : Clientset :=
  {| ListBackups := fun _ => inr bs;
     ListEngines := fun _ => inr es;
     ListVolumes := fun _ => inr vs;
     GetVolume := fun _ name => inr (vs !! name) |}.

Definition emptyKind {X : Type} : KindCache X := {| listed := false; objects := ∅ |}.

(** resourceMaps before anything is listed *)
Definition emptyCache : ResourceMaps :=
  {| backups := emptyKind; engines := emptyKind; volumes := emptyKind |}.

(** the runs of checkAndUpdateEngineActiveState used below *)
Definition absentVolumeRun : ResourceMaps * exec (option error) :=
  checkAndUpdateEngineActiveState namespace (storeOf ∅ threeEngines ∅)
    ["e1"; "e2"; "e3"] ["v1"; "v2"] emptyCache.
Definition movingRun : ResourceMaps * exec (option error) :=
  checkAndUpdateEngineActiveState namespace (storeOf ∅ twoEngines movingVolumes)
    ["e1"; "e2"] ["v1"] emptyCache.
Definition movingRunSwapped : ResourceMaps * exec (option error) :=
  checkAndUpdateEngineActiveState namespace (storeOf ∅ twoEngines movingVolumes)
    ["e2"; "e1"] ["v1"] emptyCache.
Definition twoActiveRun : ResourceMaps * exec (option error) :=
  checkAndUpdateEngineActiveState namespace (storeOf ∅ twoActiveEngines movingVolumes)
    ["e1"; "e2"] ["v1"] emptyCache.
Definition detachedRun : ResourceMaps * exec (option error) :=
  checkAndUpdateEngineActiveState namespace (storeOf ∅ threeEngines detachedVolumes)
    ["e1"; "e2"; "e3"] ["v1"; "v2"] emptyCache.

(** v1 is on n1, where its engine e1 is *)
Definition homeVolumes : gmap string Volume :=
  {[ "v1" := volumeOn "n1" "n1" EmptyString ]}.

(** e0 has no volume name; e3 is the single engine of v2 *)
Definition orphanEngines : gmap string Engine :=
  {[ "e0" := engineOn EmptyString "n1" false None;
     "e3" := engineOn "v2" "n1" false None ]}.

(** a store that fails to list the engines *)
Definition enginesDown : Clientset :=
  {| ListBackups := fun _ => inr twoBackups;
     ListEngines := fun _ => inl (StoreError "connection refused");
     ListVolumes := fun _ => inr movingVolumes;
     GetVolume := fun _ name => inr (movingVolumes !! name) |}.

(** more runs used below: upgradeBackups against the store that fails,
    checkAndRemoveEngineBackupStatus on the two engines, and the whole upgrade
    with v1 at home and with v1 missing from the store *)
Definition enginesDownRun : ResourceMaps * exec (option error) :=
  upgradeBackups labelVolume labelBackupVolume stateRunning convertState namespace
    enginesDown ["e1"; "e2"] ["b0"; "b1"] emptyCache.
Definition removeRun : ResourceMaps * exec (option error) :=
  checkAndRemoveEngineBackupStatus namespace (storeOf twoBackups twoEngines movingVolumes)
    ["e1"; "e2"] emptyCache.
Definition upgradeRun : ResourceMaps * exec (option error) :=
  UpgradeResources labelVolume labelBackupVolume stateRunning convertState namespace
    (storeOf twoBackups twoEngines homeVolumes)
    ["e1"; "e2"] ["b0"; "b1"] ["e1"; "e2"] ["e1"; "e2"] ["v1"] emptyCache.
Definition missingVolumeUpgradeRun : ResourceMaps * exec (option error) :=
  UpgradeResources labelVolume labelBackupVolume stateRunning convertState namespace
    (storeOf twoBackups threeEngines ∅)
    ["e1"; "e2"; "e3"] ["b0"; "b1"] ["e1"; "e2"; "e3"] ["e1"; "e2"; "e3"] ["v1"; "v2"]
    emptyCache.

(** *** A world for package crypto *)

(** The commands run so far stand for the world. *)
Definition World : Type := list string.

Definition isSpace (c : Ascii.ascii) : bool :=
  Ascii.eqb c (Ascii.ascii_of_nat 32) || Ascii.eqb c (Ascii.ascii_of_nat 9).

Fixpoint trimLeft (l : list Ascii.ascii) : list Ascii.ascii :=
  match l with
  | c :: rest => if isSpace c then trimLeft rest else l
  | [] => []
  end.

Definition trimSpace (s : string) : string :=
  String.string_of_list_ascii
    (rev (trimLeft (rev (trimLeft (String.list_ascii_of_string s))))).

Definition unlines (lines : list string) : string :=
  String.concat (String crypto.newline EmptyString) lines.

(** the status output of an open mapping, of one without a device line, of
    one whose device line has no colon, and of one that is not active *)
Definition openStatus : string :=
  unlines ["/dev/mapper/vol1 is active and is in use.";
           "  type:    LUKS2";
           "  cipher:  aes-xts-plain64";
           "  device:  /dev/longhorn/vol1";
           "  size:    2064384 sectors"].
Definition noDeviceStatus : string :=
  unlines ["/dev/mapper/vol2 is active."; "  type:    LUKS2"].
Definition noColonStatus : string :=
  unlines ["/dev/mapper/vol3 is active."; "  type:    LUKS2"; "  device"].
Definition inactiveStatus : string := unlines ["/dev/mapper/vol4 is inactive."].

(** vol1 to vol4 have these outputs, every other name is unknown *)
Definition luksStatus (volume : string) (w : World) : World * (crypto.error + string) :=
  (app w ["status " ++ volume],
   if String.eqb volume "vol1" then inr openStatus
   else if String.eqb volume "vol2" then inr noDeviceStatus
   else if String.eqb volume "vol3" then inr noColonStatus
   else if String.eqb volume "vol4" then inr inactiveStatus
   else inl "exit status 4").

Definition luksOpen (volume devicePath passphrase : string) (w : World)
  : World * (crypto.error + string) :=
  (app w ["open " ++ volume],
   if String.eqb passphrase "secret" then inr EmptyString
   else inl "No key available with this passphrase.").

Definition luksResize (volume passphrase : string) (w : World)
  : World * (crypto.error + string) :=
  (app w ["resize " ++ volume],
   if String.eqb passphrase "secret" then inr EmptyString
   else inl "No key available with this passphrase.").

End scenario.

(** * Proofs *)

Import v122to123.

(** ** The monad, the loops and the order of a range *)

Lemma run_bind_eq {A B : Type} (m : run A) (f : A -> run B) (rm : ResourceMaps) :
  (m ≫= f) rm =
  match m rm with
  | (rm', Done a) => f a rm'
  | (rm', Panic reason) => (rm', Panic reason)
  end.
Proof. reflexivity. Qed.

Lemma forEach_cons {A : Type} (body : A -> run unit) (x : A) (l : list A) rm :
  forEach body (x :: l) rm =
  match body x rm with
  | (rm', Done _) => forEach body l rm'
  | (rm', Panic reason) => (rm', Panic reason)
  end.
Proof. reflexivity. Qed.

Lemma ResourceMaps_eq (a b : ResourceMaps) :
  backups a = backups b -> engines a = engines b -> volumes a = volumes b -> a = b.
Proof. destruct a, b; simpl; congruence. Qed.

Lemma KindCache_eq {X : Type} (a b : KindCache X) :
  listed a = listed b -> objects a = objects b -> a = b.
Proof. destruct a, b; simpl; congruence. Qed.

Lemma elem_of_range {X : Type} (order : list string) (m : gmap string X) k x :
  (k, x) ∈ range order m <-> k ∈ order /\ m !! k = Some x.
Proof.
  unfold range. rewrite list_elem_of_omap. split.
  - intros (j & Hj & Heq). destruct (m !! j) as [y|] eqn:Hm; simplify_eq/=. done.
  - intros [Hk Hm]. exists k. by rewrite Hm.
Qed.

Lemma range_cons {X : Type} k (order : list string) (m : gmap string X) :
  range (k :: order) m =
  match m !! k with
  | Some x => (k, x) :: range order m
  | None => range order m
  end.
Proof. unfold range; simpl. by destruct (m !! k). Qed.

Lemma range_keys {X : Type} (order : list string) (m : gmap string X) :
  (forall k, k ∈ order -> is_Some (m !! k)) -> (range order m).*1 = order.
Proof.
  induction order as [|k order IH]; intros Hin; [done|].
  rewrite range_cons. destruct (Hin k) as [x ->]; [left|].
  simpl. f_equal. apply IH. intros j Hj. apply Hin. by right.
Qed.

Lemma RangeOrder_elem {X : Type} (order : list string) (m : gmap string X) k :
  RangeOrder order m -> k ∈ order <-> is_Some (m !! k).
Proof.
  intros [_ Hdom]. by rewrite <- elem_of_dom, <- Hdom, elem_of_list_to_set.
Qed.

Lemma RangeOrder_keys {X : Type} (order : list string) (m : gmap string X) :
  RangeOrder order m -> (range order m).*1 = order.
Proof.
  intros Hro. apply range_keys. intros k Hk. by apply (RangeOrder_elem order m k Hro).
Qed.

Section ListFacts.
Variable namespace : string.
Variable lhClient : Clientset.

Lemma ListAndUpdateBackups_eq rm :
  exists r, ListAndUpdateBackupsInProvidedCache namespace lhClient rm =
    (match r with
     | inl _ => rm
     | inr m => set_backups {| listed := true; objects := m |} rm
     end, Done r).
Proof.
  unfold ListAndUpdateBackupsInProvidedCache.
  destruct (listed (backups rm)) eqn:Hl.
  - exists (inr (objects (backups rm))). f_equal.
    apply ResourceMaps_eq; try done. by apply KindCache_eq.
  - destruct (ListBackups lhClient namespace) as [err|m].
    + by exists (inl err).
    + by exists (inr m).
Qed.

Lemma ListAndUpdateEngines_eq rm :
  exists r, ListAndUpdateEnginesInProvidedCache namespace lhClient rm =
    (match r with
     | inl _ => rm
     | inr m => set_engines {| listed := true; objects := m |} rm
     end, Done r).
Proof.
  unfold ListAndUpdateEnginesInProvidedCache.
  destruct (listed (engines rm)) eqn:Hl.
  - exists (inr (objects (engines rm))). f_equal.
    apply ResourceMaps_eq; try done. by apply KindCache_eq.
  - destruct (ListEngines lhClient namespace) as [err|m].
    + by exists (inl err).
    + by exists (inr m).
Qed.

Lemma ListAndUpdateVolumes_eq rm :
  exists r, ListAndUpdateVolumesInProvidedCache namespace lhClient rm =
    (match r with
     | inl _ => rm
     | inr m => set_volumes {| listed := true; objects := m |} rm
     end, Done r).
Proof.
  unfold ListAndUpdateVolumesInProvidedCache.
  destruct (listed (volumes rm)) eqn:Hl.
  - exists (inr (objects (volumes rm))). f_equal.
    apply ResourceMaps_eq; try done. by apply KindCache_eq.
  - destruct (ListVolumes lhClient namespace) as [err|m].
    + by exists (inl err).
    + by exists (inr m).
Qed.

(** the engine listing does not look at the other kinds *)
Lemma ListAndUpdateEngines_frame rm rm' :
  engines rm' = engines rm ->
  (ListAndUpdateEnginesInProvidedCache namespace lhClient rm').2 =
  (ListAndUpdateEnginesInProvidedCache namespace lhClient rm).2.
Proof.
  intros He. unfold ListAndUpdateEnginesInProvidedCache. rewrite He.
  destruct (listed (engines rm)); [done|].
  by destruct (ListEngines lhClient namespace).
Qed.

Lemma ListAndUpdateVolumes_frame rm rm' :
  volumes rm' = volumes rm ->
  (ListAndUpdateVolumesInProvidedCache namespace lhClient rm').2 =
  (ListAndUpdateVolumesInProvidedCache namespace lhClient rm).2.
Proof.
  intros He. unfold ListAndUpdateVolumesInProvidedCache. rewrite He.
  destruct (listed (volumes rm)); [done|].
  by destruct (ListVolumes lhClient namespace).
Qed.

(** *** checkAndRemoveEngineBackupStatus *)

Lemma removeEngineBackupStatus_eq k e rm :
  objects (engines rm) !! k = Some e ->
  removeEngineBackupStatus k rm =
  (set_engines {| listed := listed (engines rm);
                  objects := <[k := Engine_clearBackupStatus e]> (objects (engines rm)) |}
               rm, Done tt).
Proof.
  intros Hk. unfold removeEngineBackupStatus. rewrite run_bind_eq.
  unfold derefEngine. by rewrite Hk.
Qed.

Lemma forEach_removeEngineBackupStatus l : forall rm,
  (forall k, k ∈ l -> is_Some (objects (engines rm) !! k)) ->
  exists rm',
    forEach removeEngineBackupStatus l rm = (rm', Done tt) /\
    backups rm' = backups rm /\ volumes rm' = volumes rm /\
    listed (engines rm') = listed (engines rm) /\
    forall j, objects (engines rm') !! j =
              (if decide (j ∈ l) then Engine_clearBackupStatus <$> objects (engines rm) !! j
               else objects (engines rm) !! j).
Proof.
  induction l as [|k l IH]; intros rm Hin.
  - exists rm. split_and!; [done..|]. intros j.
    rewrite decide_False; [done|]. apply not_elem_of_nil.
  - destruct (Hin k) as [e He]; [left|].
    rewrite forEach_cons, (removeEngineBackupStatus_eq k e rm He).
    set (rm1 := set_engines _ rm).
    destruct (IH rm1) as (rm' & Hrun & Hb & Hv & Hl & Hobj).
    { intros j Hj. simpl. destruct (decide (k = j)) as [->|Hne].
      - rewrite lookup_insert_eq. by eexists.
      - rewrite lookup_insert_ne by done. apply Hin. by right. }
    exists rm'. split; [done|]. split; [done|]. split; [done|]. split; [done|].
    intros j. rewrite Hobj. simpl.
    destruct (decide (k = j)) as [->|Hne].
    + rewrite lookup_insert_eq, He. simpl.
      rewrite (decide_True (P := j ∈ j :: l)) by left. by case_decide.
    + rewrite lookup_insert_ne by done.
      destruct (decide (j ∈ l)) as [Hj|Hj].
      * rewrite (decide_True (P := j ∈ k :: l)); [done|by right].
      * rewrite (decide_False (P := j ∈ k :: l)); [done|]. intros Hc. apply elem_of_cons in Hc.
        destruct Hc; congruence.
Qed.

Lemma checkAndRemoveEngineBackupStatus_run engineOrder rm engineMap :
  (ListAndUpdateEnginesInProvidedCache namespace lhClient rm).2 = Done (inr engineMap) ->
  RangeOrder engineOrder engineMap ->
  checkAndRemoveEngineBackupStatus namespace lhClient engineOrder rm =
  (set_engines {| listed := true;
                  objects := Engine_clearBackupStatus <$> engineMap |} rm,
   Done None).
Proof.
  intros Hlist Hro. unfold checkAndRemoveEngineBackupStatus.
  rewrite run_bind_eq.
  destruct (ListAndUpdateEngines_eq rm) as [r Hr]. rewrite Hr in Hlist |- *.
  simpl in Hlist. simplify_eq. rewrite run_bind_eq.
  rewrite (RangeOrder_keys _ _ Hro).
  set (rm1 := set_engines _ rm).
  destruct (forEach_removeEngineBackupStatus engineOrder rm1)
    as (rm' & Hrun & Hb & Hv & Hl & Hobj).
  { intros k Hk. simpl. by apply (RangeOrder_elem engineOrder engineMap k Hro). }
  rewrite Hrun. unfold mret, run_ret. f_equal.
  apply ResourceMaps_eq; [done| |done].
  apply KindCache_eq; [done|]. simpl. apply map_eq. intros j.
  rewrite Hobj, lookup_fmap. simpl. case_decide as Hj; [done|].
  rewrite (RangeOrder_elem engineOrder engineMap j Hro) in Hj.
  apply eq_None_not_Some in Hj. by rewrite Hj.
Qed.

End ListFacts.

(** ** upgradeBackups *)

Section BackupFacts.
Variable LonghornLabelVolume : string.
Variable LonghornLabelBackupVolume : string.
Variable InstanceStateRunning : string.
Variable ConvertEngineBackupState : string -> string.
Variable namespace : string.
Variable lhClient : Clientset.

Local Abbreviation upgradeBackup' :=
  (upgradeBackup LonghornLabelBackupVolume InstanceStateRunning ConvertEngineBackupState).
Local Abbreviation upgradeBackups' :=
  (upgradeBackups LonghornLabelVolume LonghornLabelBackupVolume InstanceStateRunning
                  ConvertEngineBackupState namespace lhClient).
Local Abbreviation selectEngine' := (selectEngine InstanceStateRunning).
Local Abbreviation candidates index volumeName := (default [] (index !! volumeName)).

(** what the body of the loop does to the backup it visits *)
Lemma upgradeBackup_eq index volumeMap k rm :
  upgradeBackup' index volumeMap k rm =
  match objects (backups rm) !! k with
  | None => (rm, Panic nilDereference)
  | Some backup =>
      match Backup_Labels backup !! LonghornLabelBackupVolume with
      | None => (rm, Done tt)
      | Some volumeName =>
          match selectEngine' volumeMap volumeName (candidates index volumeName) with
          | None => (rm, Done tt)
          | Some None => (rm, Panic nilDereference)
          | Some (Some engine) =>
              match Engine_backupStatusOf engine (Backup_Name backup) with
              | None => (rm, Done tt)
              | Some backupStatus =>
                  storeBackup k (copyBackupStatus ConvertEngineBackupState
                                   backup backupStatus) rm
              end
          end
      end
  end.
Proof.
  unfold upgradeBackup. rewrite run_bind_eq. unfold derefBackup.
  destruct (objects (backups rm) !! k) as [backup|]; [|done].
  destruct (Backup_Labels backup !! LonghornLabelBackupVolume) as [volumeName|]; [|done].
  destruct (selectEngine' _ _ _) as [[engine|]|]; try done.
  by destruct (Engine_backupStatusOf engine (Backup_Name backup)).
Qed.

(** the body touches no backup but the one it visits, and nothing else *)
Lemma upgradeBackup_frame index volumeMap k rm :
  let rm' := (upgradeBackup' index volumeMap k rm).1 in
  engines rm' = engines rm /\ volumes rm' = volumes rm /\
  listed (backups rm') = listed (backups rm) /\
  forall j, j <> k -> objects (backups rm') !! j = objects (backups rm) !! j.
Proof.
  rewrite upgradeBackup_eq.
  destruct (objects (backups rm) !! k) as [backup|]; [|done].
  destruct (Backup_Labels backup !! LonghornLabelBackupVolume) as [volumeName|]; [|done].
  destruct (selectEngine' _ _ _) as [[engine|]|]; try done.
  destruct (Engine_backupStatusOf engine (Backup_Name backup)); [|done].
  simpl. split_and!; try done. intros j Hj. by rewrite lookup_insert_ne.
Qed.

Lemma upgradeBackup_panic index volumeMap k rm reason :
  (upgradeBackup' index volumeMap k rm).2 = Panic reason -> reason = nilDereference.
Proof.
  rewrite upgradeBackup_eq.
  destruct (objects (backups rm) !! k) as [backup|]; [|simpl; congruence].
  destruct (Backup_Labels backup !! LonghornLabelBackupVolume) as [volumeName|]; [|done].
  destruct (selectEngine' _ _ _) as [[engine|]|]; try done; [|simpl; congruence].
  by destruct (Engine_backupStatusOf engine (Backup_Name backup)).
Qed.

(** a backup without the label stays as it is along the whole loop *)
Lemma forEach_upgradeBackup_unlabelled index volumeMap k backup l : forall rm,
  objects (backups rm) !! k = Some backup ->
  Backup_Labels backup !! LonghornLabelBackupVolume = None ->
  objects (backups (forEach (upgradeBackup' index volumeMap) l rm).1) !! k = Some backup.
Proof.
  induction l as [|j l IH]; intros rm Hk Hlabel; [done|].
  rewrite forEach_cons.
  destruct (upgradeBackup' index volumeMap j rm) as [rm1 [[]|reason]] eqn:Hstep.
  - apply IH; [|done].
    destruct (decide (j = k)) as [->|Hne].
    + rewrite upgradeBackup_eq, Hk, Hlabel in Hstep. by simplify_eq.
    + pose proof (upgradeBackup_frame index volumeMap j rm) as (_ & _ & _ & Hframe).
      rewrite Hstep in Hframe. simpl in Hframe. by rewrite Hframe.
  - simpl. destruct (decide (j = k)) as [->|Hne].
    + rewrite upgradeBackup_eq, Hk, Hlabel in Hstep. by simplify_eq.
    + pose proof (upgradeBackup_frame index volumeMap j rm) as (_ & _ & _ & Hframe).
      rewrite Hstep in Hframe. simpl in Hframe. by rewrite Hframe.
Qed.

(** a backup that is not visited stays as it is *)
Lemma forEach_upgradeBackup_frame index volumeMap k l : forall rm,
  k ∉ l ->
  objects (backups (forEach (upgradeBackup' index volumeMap) l rm).1) !! k =
  objects (backups rm) !! k.
Proof.
  induction l as [|j l IH]; intros rm Hk; [done|].
  apply not_elem_of_cons in Hk as [Hne Hk].
  rewrite forEach_cons.
  pose proof (upgradeBackup_frame index volumeMap j rm) as (_ & _ & _ & Hframe).
  destruct (upgradeBackup' index volumeMap j rm) as [rm1 [[]|reason]] eqn:Hstep;
    simpl in Hframe.
  - rewrite IH by done. by apply Hframe.
  - simpl. by apply Hframe.
Qed.

(** the value of a visited backup after a loop that ran to its end *)
Lemma forEach_upgradeBackup_visited index volumeMap k backup volumeName engine l :
  forall rm rm',
  NoDup l -> k ∈ l ->
  objects (backups rm) !! k = Some backup ->
  Backup_Labels backup !! LonghornLabelBackupVolume = Some volumeName ->
  selectEngine' volumeMap volumeName (candidates index volumeName) = Some (Some engine) ->
  forEach (upgradeBackup' index volumeMap) l rm = (rm', Done tt) ->
  objects (backups rm') !! k =
  Some (match Engine_backupStatusOf engine (Backup_Name backup) with
        | Some backupStatus =>
            copyBackupStatus ConvertEngineBackupState backup backupStatus
        | None => backup
        end).
Proof.
  induction l as [|j l IH]; intros rm rm' Hnd Hin Hk Hlabel Hsel Hrun.
  - by apply elem_of_nil in Hin.
  - apply NoDup_cons in Hnd as [Hj Hnd]. rewrite forEach_cons in Hrun.
    destruct (upgradeBackup' index volumeMap j rm) as [rm1 [[]|reason]] eqn:Hstep;
      [|done].
    destruct (decide (j = k)) as [->|Hne].
    + pose proof (forEach_upgradeBackup_frame index volumeMap k l rm1 Hj) as Hfr.
      rewrite Hrun in Hfr. simpl in Hfr. rewrite Hfr.
      rewrite upgradeBackup_eq, Hk, Hlabel, Hsel in Hstep.
      destruct (Engine_backupStatusOf engine (Backup_Name backup)).
      * unfold storeBackup in Hstep. simplify_eq. simpl. by rewrite lookup_insert_eq.
      * by simplify_eq.
    + apply elem_of_cons in Hin as [->|Hin]; [done|].
      apply (IH rm1 rm'); try done.
      pose proof (upgradeBackup_frame index volumeMap j rm) as (_ & _ & _ & Hframe).
      rewrite Hstep in Hframe. simpl in Hframe. by rewrite Hframe.
Qed.

(** a visited backup whose engine pointer is nil makes the loop panic *)
Lemma forEach_upgradeBackup_nil index volumeMap k backup volumeName l : forall rm,
  k ∈ l ->
  objects (backups rm) !! k = Some backup ->
  Backup_Labels backup !! LonghornLabelBackupVolume = Some volumeName ->
  selectEngine' volumeMap volumeName (candidates index volumeName) = Some None ->
  (forEach (upgradeBackup' index volumeMap) l rm).2 = Panic nilDereference.
Proof.
  induction l as [|j l IH]; intros rm Hin Hk Hlabel Hsel.
  - by apply elem_of_nil in Hin.
  - rewrite forEach_cons.
    destruct (upgradeBackup' index volumeMap j rm) as [rm1 [[]|reason]] eqn:Hstep.
    + destruct (decide (j = k)) as [->|Hne].
      * rewrite upgradeBackup_eq, Hk, Hlabel, Hsel in Hstep. by simplify_eq.
      * apply elem_of_cons in Hin as [->|Hin]; [done|].
        apply IH; try done.
        pose proof (upgradeBackup_frame index volumeMap j rm) as (_ & _ & _ & Hframe).
        rewrite Hstep in Hframe. simpl in Hframe. by rewrite Hframe.
    + simpl. f_equal. apply (upgradeBackup_panic index volumeMap j rm).
      by rewrite Hstep.
Qed.


(** the whole step, once the three listings are known *)
Lemma upgradeBackups_run engineOrder backupOrder rm backupMap engineMap volumeMap :
  (ListAndUpdateBackupsInProvidedCache namespace lhClient rm).2 = Done (inr backupMap) ->
  (ListAndUpdateEnginesInProvidedCache namespace lhClient rm).2 = Done (inr engineMap) ->
  (ListAndUpdateVolumesInProvidedCache namespace lhClient rm).2 = Done (inr volumeMap) ->
  upgradeBackups' engineOrder backupOrder rm =
  match forEach (upgradeBackup' (volumeNameToEngines LonghornLabelVolume
                                   (range engineOrder engineMap)) volumeMap)
                (range backupOrder backupMap).*1
                (set_volumes {| listed := true; objects := volumeMap |}
                   (set_engines {| listed := true; objects := engineMap |}
                      (set_backups {| listed := true; objects := backupMap |} rm)))
  with
  | (rm', Done _) => (rm', Done None)
  | (rm', Panic reason) => (rm', Panic reason)
  end.
Proof.
  intros Hb He Hv. unfold upgradeBackups, wrapping. rewrite !run_bind_eq.
  destruct (ListAndUpdateBackups_eq namespace lhClient rm) as [rb Hrb].
  rewrite Hrb in Hb |- *. simpl in Hb. simplify_eq. rewrite run_bind_eq.
  set (rm1 := set_backups _ rm).
  rewrite <- (ListAndUpdateEngines_frame namespace lhClient rm rm1) in He by done.
  destruct (ListAndUpdateEngines_eq namespace lhClient rm1) as [re Hre].
  rewrite Hre in He |- *. simpl in He. simplify_eq. rewrite run_bind_eq.
  set (rm2 := set_engines _ rm1).
  rewrite <- (ListAndUpdateVolumes_frame namespace lhClient rm rm2) in Hv by done.
  destruct (ListAndUpdateVolumes_eq namespace lhClient rm2) as [rv Hrv].
  rewrite Hrv in Hv |- *. simpl in Hv. simplify_eq. rewrite run_bind_eq.
  by destruct (forEach _ _ _) as [rm' [[]|reason]].
Qed.

Lemma find_all_false {A : Type} (f : A -> bool) (l : list A) :
  (forall x, x ∈ l -> f x = false) -> List.find f l = None.
Proof.
  induction l as [|x l IH]; intros Hall; [done|]. simpl.
  rewrite (Hall x) by left. apply IH. intros y Hy. apply Hall. by right.
Qed.

(** C6: a backup that carries no volume label is in the cache after
    upgradeBackups exactly as it was listed, whatever the step does with the
    other backups and however the step ends; a step whose backup listing
    fails changes nothing at all. *)
Theorem upgradeBackups_unlabelled_backup_untouched engineOrder backupOrder rm :
  (forall backupMap k backup,
     (ListAndUpdateBackupsInProvidedCache namespace lhClient rm).2
       = Done (inr backupMap) ->
     backupMap !! k = Some backup ->
     Backup_Labels backup !! LonghornLabelBackupVolume = None ->
     objects (backups (upgradeBackups' engineOrder backupOrder rm).1) !! k
       = Some backup) /\
  (forall err,
     (ListAndUpdateBackupsInProvidedCache namespace lhClient rm).2
       = Done (inl err) ->
     (upgradeBackups' engineOrder backupOrder rm).1 = rm).
Proof.
  split.
  - intros backupMap k backup Hb Hk Hlabel.
    unfold upgradeBackups, wrapping. rewrite !run_bind_eq.
    destruct (ListAndUpdateBackups_eq namespace lhClient rm) as [rb Hrb].
    rewrite Hrb in Hb |- *. simpl in Hb. simplify_eq. rewrite run_bind_eq.
    set (rm1 := set_backups _ rm).
    destruct (ListAndUpdateEngines_eq namespace lhClient rm1) as [[err|engineMap] Hre];
      rewrite Hre; [done|]. rewrite run_bind_eq.
    set (rm2 := set_engines _ rm1).
    destruct (ListAndUpdateVolumes_eq namespace lhClient rm2) as [[err|volumeMap] Hrv];
      rewrite Hrv; [done|]. rewrite run_bind_eq.
    set (rm3 := set_volumes _ rm2).
    pose proof (forEach_upgradeBackup_unlabelled
                  (volumeNameToEngines LonghornLabelVolume (range engineOrder engineMap))
                  volumeMap k backup (range backupOrder backupMap).*1 rm3 Hk Hlabel)
      as Hloop.
    by destruct (forEach _ _ rm3) as [rm' [[]|reason]].
  - intros err Hb. unfold upgradeBackups, wrapping. rewrite !run_bind_eq.
    destruct (ListAndUpdateBackups_eq namespace lhClient rm) as [rb Hrb].
    rewrite Hrb in Hb |- *. simpl in Hb. by simplify_eq.
Qed.

(** C7: in a run of upgradeBackups that returns, a backup for which an
    engine is selected ends with the six status fields of the engine's
    backupStatus entry of the backup's name (progress, url, error,
    snapshotName, the converted state, replicaAddress), its name and labels
    kept; without such an entry the backup is as it was. *)
Theorem upgradeBackups_copies_selected_status
    engineOrder backupOrder rm rm' backupMap engineMap volumeMap
    k backup volumeName engine :
  (ListAndUpdateBackupsInProvidedCache namespace lhClient rm).2 = Done (inr backupMap) ->
  (ListAndUpdateEnginesInProvidedCache namespace lhClient rm).2 = Done (inr engineMap) ->
  (ListAndUpdateVolumesInProvidedCache namespace lhClient rm).2 = Done (inr volumeMap) ->
  RangeOrder backupOrder backupMap ->
  backupMap !! k = Some backup ->
  Backup_Labels backup !! LonghornLabelBackupVolume = Some volumeName ->
  selectEngine' volumeMap volumeName
    (candidates (volumeNameToEngines LonghornLabelVolume (range engineOrder engineMap))
                volumeName) = Some (Some engine) ->
  upgradeBackups' engineOrder backupOrder rm = (rm', Done None) ->
  exists backup',
    objects (backups rm') !! k = Some backup' /\
    match Engine_backupStatusOf engine (Backup_Name backup) with
    | Some backupStatus =>
        Backup_Status_Progress backup' = Progress backupStatus /\
        Backup_Status_URL backup' = BackupURL backupStatus /\
        Backup_Status_Error backup' = Error backupStatus /\
        Backup_Status_SnapshotName backup' = SnapshotName backupStatus /\
        Backup_Status_State backup' = ConvertEngineBackupState (State backupStatus) /\
        Backup_Status_ReplicaAddress backup' = ReplicaAddress backupStatus /\
        Backup_Name backup' = Backup_Name backup /\
        Backup_Labels backup' = Backup_Labels backup
    | None => backup' = backup
    end.
Proof.
  intros Hb He Hv Hro Hk Hlabel Hsel Hrun.
  rewrite (upgradeBackups_run _ _ _ _ _ _ Hb He Hv) in Hrun.
  rewrite (RangeOrder_keys _ _ Hro) in Hrun.
  destruct (forEach _ _ _) as [rm1 [[]|reason]] eqn:Hloop; [|done]. simplify_eq.
  destruct Hro as [Hnd Hdom].
  assert (k ∈ backupOrder) as Hin.
  { apply (RangeOrder_elem backupOrder backupMap k (conj Hnd Hdom)). by eexists. }
  pose proof (forEach_upgradeBackup_visited _ _ k backup volumeName engine
                backupOrder
                (set_volumes {| listed := true; objects := volumeMap |}
                   (set_engines {| listed := true; objects := engineMap |}
                      (set_backups {| listed := true; objects := backupMap |} rm)))
                rm' Hnd Hin Hk Hlabel Hsel Hloop) as Hfinal.
  eexists. split; [exact Hfinal|].
  by destruct (Engine_backupStatusOf engine (Backup_Name backup)).
Qed.

(** C1: when some backup has a volume label with more than one candidate
    engine, the volume is known, and no candidate runs on the volume's
    current node, line 89 reads [engine.Status] through the nil pointer:
    upgradeBackups does not return, it panics. *)
Theorem upgradeBackups_no_running_candidate_panics
    engineOrder backupOrder rm backupMap engineMap volumeMap
    k backup volumeName v :
  (ListAndUpdateBackupsInProvidedCache namespace lhClient rm).2 = Done (inr backupMap) ->
  (ListAndUpdateEnginesInProvidedCache namespace lhClient rm).2 = Done (inr engineMap) ->
  (ListAndUpdateVolumesInProvidedCache namespace lhClient rm).2 = Done (inr volumeMap) ->
  RangeOrder backupOrder backupMap ->
  backupMap !! k = Some backup ->
  Backup_Labels backup !! LonghornLabelBackupVolume = Some volumeName ->
  (1 < length (candidates (volumeNameToEngines LonghornLabelVolume
                             (range engineOrder engineMap)) volumeName))%nat ->
  volumeMap !! volumeName = Some v ->
  (forall e, e ∈ candidates (volumeNameToEngines LonghornLabelVolume
                               (range engineOrder engineMap)) volumeName ->
             runningOnCurrentNode InstanceStateRunning v e = false) ->
  (upgradeBackups' engineOrder backupOrder rm).2 = Panic nilDereference.
Proof.
  intros Hb He Hv Hro Hk Hlabel Hlen Hvol Hnone.
  rewrite (upgradeBackups_run _ _ _ _ _ _ Hb He Hv).
  rewrite (RangeOrder_keys _ _ Hro).
  assert (k ∈ backupOrder) as Hin.
  { apply (RangeOrder_elem backupOrder backupMap k Hro). by eexists. }
  assert (selectEngine' volumeMap volumeName
            (candidates (volumeNameToEngines LonghornLabelVolume
                           (range engineOrder engineMap)) volumeName) = Some None)
    as Hsel.
  { unfold selectEngine. rewrite Hvol, (find_all_false _ _ Hnone).
    destruct (candidates _ volumeName) as [|e1 [|e2 l]]; simpl in Hlen;
      [lia|lia|done]. }
  pose proof (forEach_upgradeBackup_nil
                (volumeNameToEngines LonghornLabelVolume (range engineOrder engineMap))
                volumeMap k backup volumeName backupOrder
                (set_volumes {| listed := true; objects := volumeMap |}
                   (set_engines {| listed := true; objects := engineMap |}
                      (set_backups {| listed := true; objects := backupMap |} rm)))
                Hin Hk Hlabel Hsel) as Hloop.
  destruct (forEach _ _ _) as [rm1 [[]|reason]]; simpl in Hloop; [done|].
  simpl. by simplify_eq.
Qed.

End BackupFacts.

(** ** checkAndRemoveEngineBackupStatus *)

Section RemoveFacts.
Variable namespace : string.
Variable lhClient : Clientset.

Lemma range_keys_present {X : Type} (order : list string) (m : gmap string X) k :
  k ∈ (range order m).*1 -> is_Some (m !! k).
Proof.
  intros Hk. apply list_elem_of_fmap in Hk as ([j x] & -> & Hjx).
  apply elem_of_range in Hjx as [_ Hm]. by eexists.
Qed.

(** the step returns no error as soon as the listing works, in any order *)
Lemma checkAndRemoveEngineBackupStatus_returns engineOrder rm engineMap :
  (ListAndUpdateEnginesInProvidedCache namespace lhClient rm).2 = Done (inr engineMap) ->
  (checkAndRemoveEngineBackupStatus namespace lhClient engineOrder rm).2 = Done None.
Proof.
  intros Hlist. unfold checkAndRemoveEngineBackupStatus. rewrite run_bind_eq.
  destruct (ListAndUpdateEngines_eq namespace lhClient rm) as [r Hr].
  rewrite Hr in Hlist |- *. simpl in Hlist. simplify_eq. rewrite run_bind_eq.
  set (rm1 := set_engines _ rm).
  destruct (forEach_removeEngineBackupStatus (range engineOrder engineMap).*1 rm1)
    as (rm' & Hrun & _).
  { intros k Hk. simpl. by apply (range_keys_present engineOrder). }
  by rewrite Hrun.
Qed.

(** C8: after checkAndRemoveEngineBackupStatus has returned without error,
    every engine of the cached engine set has a nil backupStatus and all its
    other fields as listed, no engine is added or dropped, and the backups
    and volumes of the cache are as before; the step returns an error only
    when the engines were not cached yet and the store fails to list them,
    and then it is that error. *)
Theorem checkAndRemoveEngineBackupStatus_clears_every_engine engineOrder rm :
  (forall engineMap,
     (ListAndUpdateEnginesInProvidedCache namespace lhClient rm).2
       = Done (inr engineMap) ->
     RangeOrder engineOrder engineMap ->
     exists rm',
       checkAndRemoveEngineBackupStatus namespace lhClient engineOrder rm
         = (rm', Done None) /\
       backups rm' = backups rm /\ volumes rm' = volumes rm /\
       forall k,
         match engineMap !! k with
         | Some e =>
             exists e',
               objects (engines rm') !! k = Some e' /\
               Engine_Status_BackupStatus e' = None /\
               Engine_Labels e' = Engine_Labels e /\
               Engine_Spec_VolumeName e' = Engine_Spec_VolumeName e /\
               Engine_Spec_NodeID e' = Engine_Spec_NodeID e /\
               Engine_Spec_DesireState e' = Engine_Spec_DesireState e /\
               Engine_Spec_Active e' = Engine_Spec_Active e /\
               Engine_Status_CurrentState e' = Engine_Status_CurrentState e
         | None => objects (engines rm') !! k = None
         end) /\
  (forall err,
     (checkAndRemoveEngineBackupStatus namespace lhClient engineOrder rm).2
       = Done (Some err) ->
     listed (engines rm) = false /\ ListEngines lhClient namespace = inl err) /\
  (forall reason,
     (checkAndRemoveEngineBackupStatus namespace lhClient engineOrder rm).2
       <> Panic reason).
Proof.
  split_and!.
  - intros engineMap Hlist Hro. eexists. split.
    { by apply checkAndRemoveEngineBackupStatus_run. }
    split_and!; [done..|]. intros k. simpl. rewrite lookup_fmap.
    destruct (engineMap !! k) as [e|]; [|done]. simpl. by eexists.
  - intros err Hrun.
    destruct (ListAndUpdateEngines_eq namespace lhClient rm) as [[err'|m] Hr].
    + unfold checkAndRemoveEngineBackupStatus in Hrun.
      rewrite run_bind_eq, Hr in Hrun. simpl in Hrun. simplify_eq.
      unfold ListAndUpdateEnginesInProvidedCache in Hr.
      destruct (listed (engines rm)); [by simplify_eq|].
      destruct (ListEngines lhClient namespace); by simplify_eq.
    + rewrite (checkAndRemoveEngineBackupStatus_returns engineOrder rm m) in Hrun;
        [done|by rewrite Hr].
  - intros reason Hrun.
    destruct (ListAndUpdateEngines_eq namespace lhClient rm) as [[err'|m] Hr].
    + unfold checkAndRemoveEngineBackupStatus in Hrun.
      rewrite run_bind_eq, Hr in Hrun. done.
    + rewrite (checkAndRemoveEngineBackupStatus_returns engineOrder rm m) in Hrun;
        [done|by rewrite Hr].
Qed.

End RemoveFacts.

(** ** Package crypto *)

Section CryptoFacts.
Import crypto.
Context {World : Type}.
Variable luksStatus : string -> World -> World * (crypto.error + string).
Variable TrimSpace : string -> string.

Lemma append_String (c : Ascii.ascii) (s rest : string) :
  String c s ++ rest = String c (s ++ rest).
Proof. reflexivity. Qed.

(** [HasPrefix] is [true] exactly on the strings that begin with the prefix *)
Lemma HasPrefix_true_iff (prefix s : string) :
  HasPrefix s prefix = true <-> exists rest, s = prefix ++ rest.
Proof.
  revert s. induction prefix as [|c prefix IH]; intros s.
  - split; [|by destruct s]. intros _. by exists s.
  - destruct s as [|d s]; simpl.
    + split; [done|]. by intros [rest Hrest].
    + destruct (Ascii.eqb_spec c d) as [->|Hne].
      * rewrite IH. split; intros [rest Hrest]; exists rest;
          rewrite append_String in *; congruence.
      * split; [done|]. intros [rest Hrest]. rewrite append_String in Hrest.
        congruence.
Qed.

(** C10: on a device path that does not begin with /dev/mapper,
    DeviceEncryptionStatus returns the path, an empty mapper name and no
    error, and leaves the world as it is for every luksStatus, so
    luksStatus is not called; IsDeviceOpen returns false and no error. *)
Theorem DeviceEncryptionStatus_outside_mapper (devicePath : string) (w : World) :
  (forall rest, devicePath <> mapperFilePathPrefix ++ rest) ->
  DeviceEncryptionStatus luksStatus TrimSpace devicePath w
    = (w, Done (devicePath, EmptyString, None)) /\
  IsDeviceOpen luksStatus TrimSpace devicePath w = (w, Done (false, None)).
Proof.
  intros Hprefix.
  assert (HasPrefix devicePath mapperFilePathPrefix = false) as Hfalse.
  { destruct (HasPrefix devicePath mapperFilePathPrefix) eqn:Hp; [|done].
    apply HasPrefix_true_iff in Hp as [rest Hrest]. by destruct (Hprefix rest). }
  assert (DeviceEncryptionStatus luksStatus TrimSpace devicePath w
          = (w, Done (devicePath, EmptyString, None))) as Hstatus.
  { unfold DeviceEncryptionStatus. by rewrite Hfalse. }
  split; [done|]. unfold IsDeviceOpen. by rewrite Hstatus.
Qed.

End CryptoFacts.

Lemma DeviceEncryptionStatus_outside_mapper_witness :
  (forall rest, "/dev/sda" <> crypto.mapperFilePathPrefix ++ rest) /\
  crypto.DeviceEncryptionStatus
    (fun (_ : string) (calls : nat) => (S calls, inr "vol is active")) id "/dev/sda" 0%nat
    = (0%nat, Done ("/dev/sda", EmptyString, None)) /\
  crypto.IsDeviceOpen
    (fun (_ : string) (calls : nat) => (S calls, inr "vol is active")) id "/dev/sda" 0%nat
    = (0%nat, Done (false, None)).
Proof.
  assert (forall rest, "/dev/sda" <> crypto.mapperFilePathPrefix ++ rest) as Hprefix.
  { intros rest Heq. vm_compute in Heq. discriminate Heq. }
  split; [exact Hprefix|].
  exact (DeviceEncryptionStatus_outside_mapper
           (fun (_ : string) (calls : nat) => (S calls, inr "vol is active")) id
           "/dev/sda" 0%nat Hprefix).
Defined.

(** ** checkAndUpdateEngineActiveState *)

Section GroupFacts.

Lemma range_app {X : Type} (o1 o2 : list string) (m : gmap string X) :
  range (o1 ++ o2) m = (range o1 m ++ range o2 m)%list.
Proof. unfold range. apply omap_app. Qed.

Lemma groupOf_app engineMap volumeName o1 o2 :
  groupOf engineMap volumeName (o1 ++ o2) =
  (groupOf engineMap volumeName o1 ++ groupOf engineMap volumeName o2)%list.
Proof. unfold groupOf. apply filter_app. Qed.

Lemma elem_of_groupOf engineMap volumeName engineOrder k :
  k ∈ groupOf engineMap volumeName engineOrder <->
  k ∈ engineOrder /\
  exists e, engineMap !! k = Some e /\ Engine_Spec_VolumeName e = volumeName.
Proof.
  unfold groupOf. rewrite list_elem_of_filter. split.
  - intros [Hvn Hk]. split; [done|].
    destruct (engineMap !! k) as [e|]; simplify_eq/=. by exists e.
  - intros [Hk (e & He & Hvn)]. split; [|done]. rewrite He. simpl. by rewrite Hvn.
Qed.

Lemma NoDup_groupOf engineMap volumeName engineOrder :
  NoDup engineOrder -> NoDup (groupOf engineMap volumeName engineOrder).
Proof. apply NoDup_filter. Qed.

Lemma groupOf_snoc engineMap volumeName engineOrder k :
  groupOf engineMap volumeName (engineOrder ++ [k]) =
  (groupOf engineMap volumeName engineOrder ++
   if decide (Engine_Spec_VolumeName <$> engineMap !! k = Some volumeName)
   then [k] else [])%list.
Proof. rewrite groupOf_app. f_equal. Qed.

Lemma range_snoc {X : Type} (order : list string) k (m : gmap string X) :
  range (order ++ [k]) m =
  (range order m ++ match m !! k with Some x => [(k, x)] | None => [] end)%list.
Proof. rewrite range_app. f_equal. unfold range. simpl. by destruct (m !! k). Qed.

(** the entry of a volume in the map built by the grouping loop *)
Lemma volumeEngineMap_lookup engineMap engineOrder volumeName :
  volumeEngineMap (range engineOrder engineMap) !! volumeName =
  if decide (volumeName = EmptyString \/ groupOf engineMap volumeName engineOrder = [])
  then None else Some (groupOf engineMap volumeName engineOrder).
Proof.
  induction engineOrder as [|k engineOrder IH] using rev_ind.
  - unfold volumeEngineMap, range, groupOf. simpl. rewrite lookup_empty.
    by rewrite decide_True by (by right).
  - rewrite range_snoc, groupOf_snoc. unfold volumeEngineMap in *.
    rewrite foldl_app.
    destruct (engineMap !! k) as [e|] eqn:He; simpl.
    + destruct (decide (Engine_Spec_VolumeName e = EmptyString)) as [Hempty|Hname].
      * rewrite IH. destruct (decide (Some (Engine_Spec_VolumeName e) = Some volumeName))
          as [Heq|Hne].
        -- simplify_eq.
           rewrite (decide_True (P := _ \/ groupOf _ _ engineOrder = [])) by (by left).
           by rewrite (decide_True (P := _ \/ (_ ++ [k])%list = [])) by (by left).
        -- by rewrite app_nil_r.
      * destruct (decide (Some (Engine_Spec_VolumeName e) = Some volumeName))
          as [Heq|Hne].
        -- simplify_eq. rewrite lookup_insert_eq, IH.
           rewrite (decide_False (P := _ \/ (_ ++ [k])%list = [])).
           2:{ intros [?|Happ]; [done|]. by apply app_nil in Happ as [_ ?]. }
           case_decide as Hold; [|done].
           destruct Hold as [?|Hold]; [done|]. by rewrite Hold.
        -- rewrite lookup_insert_ne by congruence. by rewrite IH, app_nil_r.
    + by rewrite app_nil_r.
Qed.

Lemma volumeEngineMap_group engineMap engineOrder volumeName engineList :
  volumeEngineMap (range engineOrder engineMap) !! volumeName = Some engineList ->
  volumeName <> EmptyString /\ engineList <> [] /\
  engineList = groupOf engineMap volumeName engineOrder.
Proof.
  rewrite volumeEngineMap_lookup. case_decide as Hd; [done|]. intros [= <-].
  split_and!; [intros Hc; apply Hd; by left|intros Hc; apply Hd; by right|done].
Qed.

(** the groups met by the loop over the volumes *)
Lemma elem_of_groups engineMap engineOrder volumeOrder volumeName engineList :
  (volumeName, engineList)
    ∈ range volumeOrder (volumeEngineMap (range engineOrder engineMap)) ->
  volumeName ∈ volumeOrder /\ volumeName <> EmptyString /\ engineList <> [] /\
  engineList = groupOf engineMap volumeName engineOrder.
Proof.
  rewrite elem_of_range. intros [Hin Hl]. split; [done|].
  by apply volumeEngineMap_group.
Qed.

End GroupFacts.

Section StepFacts.
Variable namespace : string.
Variable lhClient : Clientset.

Local Abbreviation Get := (GetVolumeFromProvidedCache namespace lhClient).
Local Abbreviation updateGroup' := (updateGroup namespace lhClient).
Local Abbreviation updateGroups' := (updateGroups namespace lhClient).
Local Abbreviation groupStep' := (groupStep namespace lhClient).
Local Abbreviation advances' := (advances namespace lhClient).
Local Abbreviation fetched' := (fetched namespace lhClient).

Lemma anyActive_spec engineList rm :
  pointersValid rm engineList ->
  (anyActive engineList rm = (rm, Done true) /\
   exists k e, k ∈ engineList /\ objects (engines rm) !! k = Some e /\
               Engine_Spec_Active e = true) \/
  (anyActive engineList rm = (rm, Done false) /\ noneActive rm engineList).
Proof.
  induction engineList as [|k l IH]; intros Hvalid.
  - right. split; [done|]. intros k e Hk. by apply elem_of_nil in Hk.
  - destruct (Hvalid k) as [e He]; [left|].
    assert (anyActive (k :: l) rm =
            if Engine_Spec_Active e then (rm, Done true) else anyActive l rm) as ->.
    { simpl. rewrite run_bind_eq. unfold derefEngine. rewrite He.
      by destruct (Engine_Spec_Active e). }
    destruct (Engine_Spec_Active e) eqn:Hact.
    + left. split; [done|]. exists k, e. split_and!; [left|done..].
    + destruct IH as [[Hrun (k' & e' & Hk' & He' & Hact')]|[Hrun Hnone]].
      { intros j Hj. apply Hvalid. by right. }
      * left. split; [done|]. exists k', e'. split_and!; [by right|done..].
      * right. split; [done|]. intros j ej Hj Hej.
        apply elem_of_cons in Hj as [->|Hj]; [congruence|]. by eapply Hnone.
Qed.

Lemma findCurrentEngine_spec v engineList rm :
  pointersValid rm engineList ->
  (findCurrentEngine v engineList rm = (rm, Done None) /\
   noneOnNode rm v engineList) \/
  (exists before k after e,
     findCurrentEngine v engineList rm = (rm, Done (Some k)) /\
     engineList = (before ++ k :: after)%list /\ noneOnNode rm v before /\
     objects (engines rm) !! k = Some e /\ onVolumeNode v e = true).
Proof.
  induction engineList as [|k l IH]; intros Hvalid.
  - left. split; [done|]. intros k e Hk. by apply elem_of_nil in Hk.
  - destruct (Hvalid k) as [e He]; [left|].
    assert (findCurrentEngine v (k :: l) rm =
            if onVolumeNode v e then (rm, Done (Some k))
            else findCurrentEngine v l rm) as ->.
    { simpl. rewrite run_bind_eq. unfold derefEngine. rewrite He.
      by destruct (onVolumeNode v e). }
    destruct (onVolumeNode v e) eqn:Hon.
    + right. exists [], k, l, e. split_and!; try done.
      intros j ej Hj. by apply elem_of_nil in Hj.
    + destruct IH as [[Hrun Hnone]|(before & k' & after & e' & Hrun & -> & Hb & He' & Hon')].
      { intros j Hj. apply Hvalid. by right. }
      * left. split; [done|]. intros j ej Hj Hej.
        apply elem_of_cons in Hj as [->|Hj]; [congruence|]. by eapply Hnone.
      * right. exists (k :: before), k', after, e'. split_and!; try done.
        intros j ej Hj Hej.
        apply elem_of_cons in Hj as [->|Hj]; [congruence|]. by eapply Hb.
Qed.

Lemma advances_refl rm : advances' rm rm.
Proof. split_and!; try done; intros k; by left. Qed.

Lemma Engine_setActive_idemp e :
  Engine_setActive (Engine_setActive e) = Engine_setActive e.
Proof. reflexivity. Qed.

Lemma activated_trans E1 E2 E3 :
  activated E1 E2 -> activated E2 E3 -> activated E1 E3.
Proof.
  intros H12 H23 k. destruct (H12 k) as [H1|H1], (H23 k) as [H2|H2];
    rewrite H2, H1; [by left|by right|by right|].
  right. destruct (E1 !! k); [|done]. simpl. by rewrite Engine_setActive_idemp.
Qed.

Lemma fetched_trans V1 V2 V3 :
  fetched' V1 V2 -> fetched' V2 V3 -> fetched' V1 V3.
Proof.
  intros H12 H23 name.
  destruct (H12 name) as [H1|(H1 & v & Hv & H1')],
           (H23 name) as [H2|(H2 & w & Hw & H2')].
  - left. congruence.
  - right. split; [congruence|]. by exists w.
  - right. split; [done|]. exists v. split; [done|]. congruence.
  - congruence.
Qed.

Lemma advances_trans rm1 rm2 rm3 :
  advances' rm1 rm2 -> advances' rm2 rm3 -> advances' rm1 rm3.
Proof.
  intros (Hb & Hl & Ha & Hvl & Hf) (Hb' & Hl' & Ha' & Hvl' & Hf').
  split_and!; try congruence.
  - by eapply activated_trans.
  - by eapply fetched_trans.
Qed.

Lemma advances_activate k e rm :
  objects (engines rm) !! k = Some e -> advances' rm (activate k e rm).
Proof.
  intros He. split_and!; try done; [|intros name; by left].
  intros j. simpl. destruct (decide (k = j)) as [->|Hne].
  - right. by rewrite lookup_insert_eq, He.
  - left. by rewrite lookup_insert_ne.
Qed.

(** the get returns an error and leaves the cache, or returns the volume and
    leaves it cached *)
Lemma Get_cases name rm :
  (exists err, Get name rm = (rm, Done (inl err)) /\
               objects (volumes rm) !! name = None) \/
  (exists v rm', Get name rm = (rm', Done (inr v)) /\
                 advances' rm rm' /\ engines rm' = engines rm /\
                 objects (volumes rm') !! name = Some v).
Proof.
  unfold GetVolumeFromProvidedCache.
  destruct (objects (volumes rm) !! name) as [v|] eqn:Hc.
  - right. exists v, rm. split_and!; try done. apply advances_refl.
  - destruct (GetVolume lhClient namespace name) as [err|[v|]] eqn:Hget.
    + left. by eexists.
    + right. eexists v, _. split_and!; try done.
      * split_and!; try done; [intros k; by left|].
        intros n. simpl. destruct (decide (name = n)) as [->|Hne].
        -- right. split; [done|]. exists v. by rewrite lookup_insert_eq.
        -- left. by rewrite lookup_insert_ne.
      * simpl. by rewrite lookup_insert_eq.
    + left. by eexists.
Qed.

Lemma Get_cached name rm v :
  objects (volumes rm) !! name = Some v -> Get name rm = (rm, Done (inr v)).
Proof. intros Hc. unfold GetVolumeFromProvidedCache. by rewrite Hc. Qed.

(** the answer of the get is the same later in the run *)
Lemma Get_stable name rm rm' :
  advances' rm rm' -> (Get name rm').2 = (Get name rm).2.
Proof.
  intros (_ & _ & _ & _ & Hf). unfold GetVolumeFromProvidedCache.
  destruct (Hf name) as [Heq|(Hnone & v & Hv & Hsome)].
  - rewrite Heq. destruct (objects (volumes rm) !! name); [done|].
    by destruct (GetVolume lhClient namespace name) as [err|[w|]].
  - by rewrite Hnone, Hsome, Hv.
Qed.


Lemma Get_inr name rm rm' v :
  Get name rm = (rm', Done (inr v)) ->
  advances' rm rm' /\ engines rm' = engines rm /\
  objects (volumes rm') !! name = Some v.
Proof.
  intros Hget.
  destruct (Get_cases name rm) as [(err & Herr & _)|(w & rm1 & Hrun & Hadv & He & Hc)];
    rewrite Hget in *; by simplify_eq.
Qed.

Lemma chooseCurrentEngine_several volumeName engineList rm :
  (forall k, engineList <> [k]) ->
  chooseCurrentEngine namespace lhClient volumeName engineList rm =
  match Get volumeName rm with
  | (rm1, Done (inl err)) => (rm1, Done (inl err))
  | (rm1, Done (inr v)) =>
      match findCurrentEngine v engineList rm1 with
      | (rm2, Done k) => (rm2, Done (inr k))
      | (rm2, Panic reason) => (rm2, Panic reason)
      end
  | (rm1, Panic reason) => (rm1, Panic reason)
  end.
Proof.
  intros Hseveral. unfold chooseCurrentEngine.
  destruct engineList as [|k1 [|k2 l]]; [|by destruct (Hseveral k1)|];
    rewrite run_bind_eq;
    (destruct (Get volumeName rm) as [rm1 [[err|v]|reason]]; [done| |done]);
    rewrite run_bind_eq; by destruct (findCurrentEngine _ _ _) as [rm2 [k|reason]].
Qed.

Lemma activate_eq k e rm :
  storeEngine k (Engine_setActive e) rm = (activate k e rm, Done tt).
Proof. reflexivity. Qed.

(** the body of the loop takes one step of [groupStep] *)
Lemma updateGroup_step volumeName engineList rm :
  pointersValid rm engineList ->
  exists rm' r,
    updateGroup' volumeName engineList rm = (rm', Done r) /\
    groupStep' volumeName engineList rm rm' r.
Proof.
  intros Hvalid. unfold updateGroup. rewrite run_bind_eq.
  destruct (anyActive_spec engineList rm Hvalid)
    as [[Hrun (k & e & Hk & He & Hact)]|[Hrun Hnone]]; rewrite Hrun.
  { exists rm, None. split; [done|]. by eapply step_skip. }
  rewrite run_bind_eq.
  assert ((exists k, engineList = [k]) \/ (forall k, engineList <> [k]))
    as [[k ->]|Hsev].
  { destruct engineList as [|k1 [|k2 l]]; [by right|left; by eexists|by right]. }
  - destruct (Hvalid k) as [e He]; [left|].
    unfold chooseCurrentEngine. unfold mret at 1, run_ret at 1.
    rewrite run_bind_eq. unfold derefEngine. rewrite He.
    rewrite run_bind_eq, activate_eq.
    exists (activate k e rm), None. split; [done|].
    apply step_single; [done..|]. eapply Hnone; [left|done].
  - rewrite (chooseCurrentEngine_several _ _ _ Hsev).
    destruct (Get_cases volumeName rm)
      as [(err & Hget & _)|(v & rm1 & Hget & Hadv & He & Hc)]; rewrite Hget.
    { exists rm, (Some err). split; [done|]. by apply step_get_failed. }
    assert (pointersValid rm1 engineList) as Hvalid1.
    { intros k Hk. rewrite He. by apply Hvalid. }
    destruct (findCurrentEngine_spec v engineList rm1 Hvalid1)
      as [[Hfind Hnode]|(before & k & after & e & Hfind & -> & Hnode & Hke & Hon)];
      rewrite Hfind.
    + exists rm1, None. split; [done|].
      eapply step_none_on_node; try done.
      intros k e Hk Hke. eapply Hnode; [done|]. by rewrite He.
    + rewrite run_bind_eq. unfold derefEngine. rewrite Hke.
      rewrite run_bind_eq, activate_eq.
      exists (activate k e rm1), None. split; [done|].
      eapply step_first_on_node; try done.
      * intros j ej Hj Hej. eapply Hnode; [done|]. by rewrite He.
      * by rewrite <- He.
Qed.

(** the five ways of a step, with their data *)
Lemma groupStep_inv volumeName engineList rm rm' r :
  groupStep' volumeName engineList rm rm' r ->
  (exists k e, k ∈ engineList /\ objects (engines rm) !! k = Some e /\
               Engine_Spec_Active e = true /\ rm' = rm /\ r = None) \/
  (exists k e, engineList = [k] /\ objects (engines rm) !! k = Some e /\
               Engine_Spec_Active e = false /\ rm' = activate k e rm /\ r = None) \/
  (exists err, noneActive rm engineList /\ (forall k, engineList <> [k]) /\
               Get volumeName rm = (rm, Done (inl err)) /\
               rm' = rm /\ r = Some err) \/
  (exists v, noneActive rm engineList /\ (forall k, engineList <> [k]) /\
             Get volumeName rm = (rm', Done (inr v)) /\
             noneOnNode rm v engineList /\ r = None) \/
  (exists v rm1 before k after e,
     noneActive rm engineList /\ (forall k, engineList <> [k]) /\
     Get volumeName rm = (rm1, Done (inr v)) /\
     engineList = (before ++ k :: after)%list /\ noneOnNode rm v before /\
     objects (engines rm) !! k = Some e /\ onVolumeNode v e = true /\
     rm' = activate k e rm1 /\ r = None).
Proof.
  destruct 1 as [k e Hk He Ha|k e Hl He Ha|err Hn Hs Hg|v rm1 Hn Hs Hg Hno
                |v rm1 before k after e Hn Hs Hg Hl Hno He Hon].
  - left. by exists k, e.
  - right; left. by exists k, e.
  - right; right; left. by exists err.
  - right; right; right; left. by exists v.
  - right; right; right; right. by exists v, rm1, before, k, after, e.
Qed.

Lemma groupStep_advances volumeName engineList rm rm' r :
  groupStep' volumeName engineList rm rm' r -> advances' rm rm'.
Proof.
  destruct 1 as [k e Hk He Ha|k e Hl He Ha|err Hn Hs Hg|v rm1 Hn Hs Hg Hno
                |v rm1 before k after e Hn Hs Hg Hl Hno He Hon].
  - apply advances_refl.
  - by apply advances_activate.
  - apply advances_refl.
  - by eapply Get_inr.
  - apply Get_inr in Hg as (Hadv & Heng & _).
    eapply advances_trans; [done|]. apply advances_activate. by rewrite Heng.
Qed.

(** a step changes no engine outside the group *)
Lemma groupStep_frame volumeName engineList rm rm' r j :
  groupStep' volumeName engineList rm rm' r -> j ∉ engineList ->
  objects (engines rm') !! j = objects (engines rm) !! j.
Proof.
  destruct 1 as [k e Hk He Ha|k e Hl He Ha|err Hn Hs Hg|v rm1 Hn Hs Hg Hno
                |v rm1 before k after e Hn Hs Hg Hl Hno He Hon]; intros Hj; try done.
  - simpl. rewrite lookup_insert_ne; [done|]. intros ->. apply Hj. rewrite Hl. left.
  - apply Get_inr in Hg as (_ & Heng & _). by rewrite Heng.
  - apply Get_inr in Hg as (_ & Heng & _).
    simpl. rewrite Heng. rewrite lookup_insert_ne; [done|]. intros ->.
    apply Hj. rewrite Hl. apply elem_of_app. right. left.
Qed.

Lemma pointersValid_advances rm rm' engineList :
  advances' rm rm' -> pointersValid rm engineList -> pointersValid rm' engineList.
Proof.
  intros (_ & _ & Ha & _) Hvalid k Hk. destruct (Hvalid k Hk) as [e He].
  destruct (Ha k) as [->| ->]; rewrite He; by eexists.
Qed.

Lemma onVolumeNode_setActive v e :
  onVolumeNode v (Engine_setActive e) = onVolumeNode v e.
Proof. reflexivity. Qed.

Lemma settled_advances rm rm' volumeName engineList :
  advances' rm rm' -> settled rm volumeName engineList ->
  settled rm' volumeName engineList.
Proof.
  intros (_ & _ & Ha & _ & Hf) [(k & e & Hk & He & Hact)|(Hsev & v & Hc & Hnode)].
  - left. destruct (Ha k) as [Heq|Heq]; rewrite He in Heq.
    + by exists k, e.
    + by exists k, (Engine_setActive e).
  - right. split; [done|]. exists v. split.
    + destruct (Hf volumeName) as [->|[Hnone _]]; [done|congruence].
    + intros k e' Hk He'. destruct (Ha k) as [Heq|Heq]; rewrite He' in Heq.
      * by eapply Hnode.
      * destruct (objects (engines rm) !! k) as [e|] eqn:He; simplify_eq/=.
        rewrite onVolumeNode_setActive. by eapply Hnode.
Qed.

(** after a step that goes on, the group is settled *)
Lemma groupStep_settles volumeName engineList rm rm' :
  groupStep' volumeName engineList rm rm' None -> settled rm' volumeName engineList.
Proof.
  intros Hstep.
  destruct (groupStep_inv _ _ _ _ _ Hstep)
    as [(k & e & Hk & He & Ha & -> & _)
       |[(k & e & Hl & He & Ha & -> & _)
        |[(err & _ & _ & _ & _ & ?)
         |[(v & Hn & Hs & Hg & Hno & _)
          |(v & rm1 & before & k & after & e & Hn & Hs & Hg & Hl & Hno & He & Hon
              & -> & _)]]]].
  - left. by exists k, e.
  - left. exists k, (Engine_setActive e). split_and!; [rewrite Hl; left| |done].
    simpl. by rewrite lookup_insert_eq.
  - done.
  - apply Get_inr in Hg as (_ & Heng & Hc).
    right. split; [done|]. exists v. split; [done|].
    intros k e Hk Hke. rewrite Heng in Hke. by eapply Hno.
  - left. exists k, (Engine_setActive e). split_and!.
    + rewrite Hl. apply elem_of_app. right. left.
    + simpl. by rewrite lookup_insert_eq.
    + done.
Qed.

(** a settled group is passed with the cache as it is *)
Lemma settled_updateGroup volumeName engineList rm :
  pointersValid rm engineList -> settled rm volumeName engineList ->
  updateGroup' volumeName engineList rm = (rm, Done None).
Proof.
  intros Hvalid Hsettled.
  destruct (updateGroup_step volumeName engineList rm Hvalid) as (rm' & r & -> & Hstep).
  destruct (groupStep_inv _ _ _ _ _ Hstep)
    as [(k0 & e0 & _ & _ & _ & -> & ->)
       |[(k0 & e0 & Hl & He0 & Ha0 & _)
        |[(err & Hn & _ & Hg & _)
         |[(w & Hn & _ & Hg & _ & ->)
          |(w & rm1 & before & k0 & after & e0 & Hn & _ & Hg & Hl & _ & He0 & Hon
              & _)]]]]; [done|..];
    destruct Hsettled as [(k & e & Hk & He & Hact)|(Hsev & v & Hc & Hnode)].
  - rewrite Hl in Hk. apply list_elem_of_singleton in Hk as ->. congruence.
  - by destruct (Hsev k0).
  - by rewrite (Hn k e Hk He) in Hact.
  - by rewrite (Get_cached _ _ _ Hc) in Hg.
  - by rewrite (Hn k e Hk He) in Hact.
  - rewrite (Get_cached _ _ _ Hc) in Hg. by simplify_eq.
  - by rewrite (Hn k e Hk He) in Hact.
  - rewrite (Get_cached _ _ _ Hc) in Hg. assert (w = v) as -> by congruence.
    rewrite (Hnode k0 e0) in Hon; [done| |done].
    rewrite Hl. apply elem_of_app. right. left.
Qed.

End StepFacts.

Section LoopFacts.
Variable namespace : string.
Variable lhClient : Clientset.

Local Abbreviation Get := (GetVolumeFromProvidedCache namespace lhClient).
Local Abbreviation updateGroup' := (updateGroup namespace lhClient).
Local Abbreviation updateGroups' := (updateGroups namespace lhClient).
Local Abbreviation groupStep' := (groupStep namespace lhClient).
Local Abbreviation advances' := (advances namespace lhClient).

Lemma groupsValid_advances rm rm' groups :
  advances' rm rm' -> groupsValid rm groups -> groupsValid rm' groups.
Proof.
  intros Hadv Hvalid vn l Hin. eapply pointersValid_advances; [done|].
  by eapply Hvalid.
Qed.

Lemma updateGroups_cons volumeName engineList groups rm :
  updateGroups' ((volumeName, engineList) :: groups) rm =
  match updateGroup' volumeName engineList rm with
  | (rm1, Done None) => updateGroups' groups rm1
  | (rm1, Done (Some err)) => (rm1, Done (Some err))
  | (rm1, Panic reason) => (rm1, Panic reason)
  end.
Proof.
  simpl. rewrite run_bind_eq.
  by destruct (updateGroup' volumeName engineList rm) as [rm1 [[err|]|reason]].
Qed.

Lemma updateGroups_app groups1 groups2 : forall rm,
  updateGroups' (groups1 ++ groups2)%list rm =
  match updateGroups' groups1 rm with
  | (rm1, Done None) => updateGroups' groups2 rm1
  | (rm1, Done (Some err)) => (rm1, Done (Some err))
  | (rm1, Panic reason) => (rm1, Panic reason)
  end.
Proof.
  induction groups1 as [|[vn l] groups1 IH]; intros rm; [done|].
  rewrite <- app_comm_cons, !updateGroups_cons.
  by destruct (updateGroup' vn l rm) as [rm1 [[err|]|reason]].
Qed.

(** the loop returns, the cache only advances, and the engines outside the
    groups of the loop are not touched *)
Lemma updateGroups_run groups : forall rm,
  groupsValid rm groups ->
  exists rm' r,
    updateGroups' groups rm = (rm', Done r) /\ advances' rm rm' /\
    forall j, (forall vn l, (vn, l) ∈ groups -> j ∉ l) ->
              objects (engines rm') !! j = objects (engines rm) !! j.
Proof.
  induction groups as [|[vn l] groups IH]; intros rm Hvalid.
  - exists rm, None. split_and!; [done|apply advances_refl|done].
  - rewrite updateGroups_cons.
    destruct (updateGroup_step namespace lhClient vn l rm) as (rm1 & r1 & Hrun & Hstep).
    { eapply Hvalid. left. }
    rewrite Hrun.
    pose proof (groupStep_advances _ _ _ _ _ _ _ Hstep) as Hadv1.
    destruct r1 as [err|].
    + exists rm1, (Some err). split_and!; [done..|].
      intros j Hj. eapply groupStep_frame; [done|]. eapply Hj. left.
    + destruct (IH rm1) as (rm' & r & Hrest & Hadv & Hframe).
      { eapply groupsValid_advances; [done|].
        intros vn' l' Hin. eapply Hvalid. by right. }
      exists rm', r. split_and!; [done|by eapply advances_trans|].
      intros j Hj. rewrite Hframe.
      * eapply groupStep_frame; [done|]. eapply Hj. left.
      * intros vn' l' Hin. eapply Hj. by right.
Qed.

(** settled groups are passed with the cache as it is *)
Lemma updateGroups_settled groups rm :
  groupsValid rm groups ->
  (forall vn l, (vn, l) ∈ groups -> settled rm vn l) ->
  updateGroups' groups rm = (rm, Done None).
Proof.
  induction groups as [|[vn l] groups IH]; intros Hvalid Hsettled; [done|].
  rewrite updateGroups_cons, settled_updateGroup.
  - apply IH.
    + intros vn' l' Hin. eapply Hvalid. by right.
    + intros vn' l' Hin. eapply Hsettled. by right.
  - eapply Hvalid. left.
  - eapply Hsettled. left.
Qed.

(** after a loop that ran to its end every group is settled *)
Lemma updateGroups_settles groups : forall rm rm',
  groupsValid rm groups ->
  updateGroups' groups rm = (rm', Done None) ->
  forall vn l, (vn, l) ∈ groups -> settled rm' vn l.
Proof.
  induction groups as [|[vn l] groups IH]; intros rm rm' Hvalid Hrun vn' l' Hin.
  - by apply elem_of_nil in Hin.
  - rewrite updateGroups_cons in Hrun.
    destruct (updateGroup_step namespace lhClient vn l rm) as (rm1 & r1 & Hrun1 & Hstep).
    { eapply Hvalid. left. }
    rewrite Hrun1 in Hrun. destruct r1 as [err|]; [done|].
    pose proof (groupStep_advances _ _ _ _ _ _ _ Hstep) as Hadv1.
    assert (groupsValid rm1 groups) as Hvalid1.
    { eapply groupsValid_advances; [done|].
      intros vn2 l2 Hin2. eapply Hvalid. by right. }
    apply elem_of_cons in Hin as [Heq|Hin].
    + simplify_eq.
      destruct (updateGroups_run groups rm1 Hvalid1) as (rm2 & r2 & Hrest & Hadv & _).
      rewrite Hrun in Hrest. simplify_eq.
      eapply settled_advances; [done|]. by eapply groupStep_settles.
    + by eapply (IH rm1 rm').
Qed.

(** the loop returns no error when the volume of every group can be got *)
Lemma updateGroups_returns groups : forall rm,
  groupsValid rm groups ->
  (forall vn l, (vn, l) ∈ groups -> exists v, (Get vn rm).2 = Done (inr v)) ->
  (updateGroups' groups rm).2 = Done None.
Proof.
  induction groups as [|[vn l] groups IH]; intros rm Hvalid Hget; [done|].
  rewrite updateGroups_cons.
  destruct (updateGroup_step namespace lhClient vn l rm) as (rm1 & r1 & Hrun1 & Hstep).
  { eapply Hvalid. left. }
  rewrite Hrun1.
  pose proof (groupStep_advances _ _ _ _ _ _ _ Hstep) as Hadv1.
  destruct r1 as [err|].
  - destruct (Hget vn l) as [v Hv]; [left|].
    destruct (groupStep_inv _ _ _ _ _ _ _ Hstep)
      as [(? & ? & _ & _ & _ & _ & ?)|[(? & ? & _ & _ & _ & _ & ?)
         |[(? & _ & _ & Hg & _)|[(? & _ & _ & _ & _ & ?)
         |(? & ? & ? & ? & ? & ? & _ & _ & _ & _ & _ & _ & _ & _ & ?)]]]]; try done.
    by rewrite Hg in Hv.
  - apply IH.
    + eapply groupsValid_advances; [done|].
      intros vn2 l2 Hin2. eapply Hvalid. by right.
    + intros vn2 l2 Hin2. rewrite (Get_stable _ _ vn2 rm rm1 Hadv1).
      eapply Hget. by right.
Qed.

(** What the loop does at one group whose engines belong to no other group
    of the loop: the loop reaches the group with these engines as they were,
    unless it returned an error before, and does not touch them after the
    step of the group. *)
Lemma updateGroups_at groups1 volumeName engineList groups2 rm rm' r :
  groupsValid rm (groups1 ++ (volumeName, engineList) :: groups2)%list ->
  (forall vn l j, (vn, l) ∈ (groups1 ++ groups2)%list -> j ∈ engineList -> j ∉ l) ->
  updateGroups' (groups1 ++ (volumeName, engineList) :: groups2)%list rm
    = (rm', Done r) ->
  exists rm1,
    advances' rm rm1 /\
    (forall j, j ∈ engineList ->
               objects (engines rm1) !! j = objects (engines rm) !! j) /\
    ((rm' = rm1 /\ exists err, r = Some err) \/
     exists rm2 r2,
       groupStep' volumeName engineList rm1 rm2 r2 /\
       advances' rm2 rm' /\
       (forall j, j ∈ engineList ->
                  objects (engines rm') !! j = objects (engines rm2) !! j) /\
       match r2 with
       | Some err => rm' = rm2 /\ r = Some err
       | None => True
       end).
Proof.
  intros Hvalid Hdisj Hrun. rewrite updateGroups_app in Hrun.
  destruct (updateGroups_run groups1 rm) as (rm1 & r1 & Hrun1 & Hadv1 & Hframe1).
  { intros vn l Hin. eapply Hvalid. apply elem_of_app. by left. }
  rewrite Hrun1 in Hrun. exists rm1. split; [done|]. split.
  { intros j Hj. apply Hframe1. intros vn l Hin. eapply Hdisj; [|done].
    apply elem_of_app. by left. }
  destruct r1 as [err|].
  { left. simplify_eq. split; [done|]. by eexists. }
  right. rewrite updateGroups_cons in Hrun.
  assert (groupsValid rm1 ((volumeName, engineList) :: groups2)) as Hvalid1.
  { eapply groupsValid_advances; [done|].
    intros vn l Hin. eapply Hvalid. apply elem_of_app. by right. }
  destruct (updateGroup_step namespace lhClient volumeName engineList rm1)
    as (rm2 & r2 & Hrun2 & Hstep).
  { eapply Hvalid1. left. }
  rewrite Hrun2 in Hrun.
  pose proof (groupStep_advances _ _ _ _ _ _ _ Hstep) as Hadv2.
  exists rm2, r2. split; [done|]. destruct r2 as [err|].
  { simplify_eq. split_and!; try done. apply advances_refl. }
  destruct (updateGroups_run groups2 rm2) as (rm3 & r3 & Hrun3 & Hadv3 & Hframe3).
  { eapply groupsValid_advances; [done|].
    intros vn l Hin. eapply Hvalid1. by right. }
  rewrite Hrun3 in Hrun. simplify_eq. split_and!; try done.
  intros j Hj. apply Hframe3. intros vn l Hin. eapply Hdisj; [|done].
  apply elem_of_app. by right.
Qed.

End LoopFacts.

Section ActiveFacts.
Variable namespace : string.
Variable lhClient : Clientset.

Local Abbreviation Get := (GetVolumeFromProvidedCache namespace lhClient).
Local Abbreviation updateGroups' := (updateGroups namespace lhClient).
Local Abbreviation groupStep' := (groupStep namespace lhClient).
Local Abbreviation advances' := (advances namespace lhClient).
Local Abbreviation listEngines' :=
  (ListAndUpdateEnginesInProvidedCache namespace lhClient).
Local Abbreviation checkAndUpdate :=
  (checkAndUpdateEngineActiveState namespace lhClient).
Local Abbreviation groupsOf engineMap engineOrder :=
  (volumeEngineMap (range engineOrder engineMap)).
(** the cache once the engines are listed *)
Local Abbreviation withEngines engineMap rm :=
  (set_engines {| listed := true; objects := engineMap |} rm).

Lemma checkAndUpdate_run engineOrder volumeOrder rm engineMap :
  (listEngines' rm).2 = Done (inr engineMap) ->
  checkAndUpdate engineOrder volumeOrder rm =
  updateGroups' (range volumeOrder (groupsOf engineMap engineOrder))
                (withEngines engineMap rm).
Proof.
  intros Hlist. unfold checkAndUpdateEngineActiveState. rewrite run_bind_eq.
  destruct (ListAndUpdateEngines_eq namespace lhClient rm) as [r Hr].
  rewrite Hr in Hlist |- *. simpl in Hlist. by simplify_eq.
Qed.

Lemma Get_frame name rm rm' :
  volumes rm' = volumes rm -> (Get name rm').2 = (Get name rm).2.
Proof.
  intros Hv. unfold GetVolumeFromProvidedCache. rewrite Hv.
  destruct (objects (volumes rm) !! name); [done|].
  by destruct (GetVolume lhClient namespace name) as [err|[w|]].
Qed.

Lemma groups_valid engineMap engineOrder volumeOrder rm :
  objects (engines rm) = engineMap ->
  groupsValid rm (range volumeOrder (groupsOf engineMap engineOrder)).
Proof.
  intros HE vn l Hin k Hk. apply elem_of_groups in Hin as (_ & _ & _ & ->).
  apply elem_of_groupOf in Hk as (_ & e & He & _). rewrite HE. by eexists.
Qed.

Lemma groups_disjoint engineMap engineOrder volumeOrder vn1 l1 vn2 l2 j :
  (vn1, l1) ∈ range volumeOrder (groupsOf engineMap engineOrder) ->
  groupsOf engineMap engineOrder !! vn2 = Some l2 ->
  vn1 <> vn2 -> j ∈ l2 -> j ∉ l1.
Proof.
  intros Hin1 Hin2 Hne Hj2 Hj1.
  apply elem_of_groups in Hin1 as (_ & _ & _ & ->).
  apply volumeEngineMap_group in Hin2 as (_ & _ & ->).
  apply elem_of_groupOf in Hj1 as (_ & e1 & He1 & Hvn1).
  apply elem_of_groupOf in Hj2 as (_ & e2 & He2 & Hvn2). congruence.
Qed.

(** the place of a group in the visit of the groups *)
Lemma groups_split {X : Type} volumeOrder (groups : gmap string X) volumeName x :
  RangeOrder volumeOrder groups -> groups !! volumeName = Some x ->
  exists groups1 groups2,
    range volumeOrder groups = (groups1 ++ (volumeName, x) :: groups2)%list /\
    forall vn y, (vn, y) ∈ (groups1 ++ groups2)%list -> vn <> volumeName.
Proof.
  intros Hro Hx.
  assert (volumeName ∈ volumeOrder) as Hin.
  { apply (RangeOrder_elem _ _ _ Hro). by eexists. }
  destruct Hro as [Hnd _].
  apply list_elem_of_split in Hin as (o1 & o2 & ->).
  apply NoDup_app in Hnd as (_ & Hnot1 & Hnd2).
  apply NoDup_cons in Hnd2 as [Hnot2 _].
  exists (range o1 groups), (range o2 groups). split.
  - by rewrite range_app, range_cons, Hx.
  - intros vn y Hin ->. apply elem_of_app in Hin as [Hin|Hin];
      apply elem_of_range in Hin as [Hin _].
    + apply (Hnot1 volumeName Hin). left.
    + done.
Qed.

(** What a run does at one group: see [updateGroups_at]. *)
Lemma checkAndUpdate_at engineOrder volumeOrder rm engineMap volumeName engineList :
  (listEngines' rm).2 = Done (inr engineMap) ->
  RangeOrder volumeOrder (groupsOf engineMap engineOrder) ->
  groupsOf engineMap engineOrder !! volumeName = Some engineList ->
  exists rm' r rm1,
    checkAndUpdate engineOrder volumeOrder rm = (rm', Done r) /\
    advances' (withEngines engineMap rm) rm1 /\
    (forall j, j ∈ engineList -> objects (engines rm1) !! j = engineMap !! j) /\
    ((rm' = rm1 /\ exists err, r = Some err) \/
     exists rm2 r2,
       groupStep' volumeName engineList rm1 rm2 r2 /\
       advances' rm2 rm' /\
       (forall j, j ∈ engineList ->
                  objects (engines rm') !! j = objects (engines rm2) !! j) /\
       match r2 with
       | Some err => rm' = rm2 /\ r = Some err
       | None => True
       end).
Proof.
  intros Hlist Hro Hgroup. rewrite (checkAndUpdate_run _ _ _ _ Hlist).
  destruct (groups_split _ _ _ _ Hro Hgroup) as (groups1 & groups2 & Hsplit & Hother).
  pose proof (groups_valid engineMap engineOrder volumeOrder
                (withEngines engineMap rm) eq_refl) as Hvalid.
  destruct (updateGroups_run namespace lhClient _ _ Hvalid) as (rm' & r & Hrun & _).
  exists rm', r. rewrite Hrun. rewrite Hsplit in Hvalid, Hrun.
  destruct (updateGroups_at namespace lhClient groups1 volumeName engineList groups2
              (withEngines engineMap rm) rm' r Hvalid) as (rm1 & Hadv & Hsame & Hcases);
    [|done|].
  - intros vn l j Hin Hj.
    eapply (groups_disjoint engineMap engineOrder volumeOrder vn l volumeName);
      [|done|by eapply Hother|done].
    rewrite Hsplit. apply elem_of_app in Hin as [Hin|Hin]; apply elem_of_app;
      [by left|right; by right].
  - exists rm1. split_and!; done.
Qed.


Lemma Get_after_listing name engineMap rm rm1 :
  advances' (withEngines engineMap rm) rm1 -> (Get name rm1).2 = (Get name rm).2.
Proof.
  intros Hadv. rewrite (Get_stable _ _ name _ _ Hadv). by apply Get_frame.
Qed.

Lemma noneActive_same rm1 (engineMap : gmap string Engine) engineList :
  (forall j, j ∈ engineList -> objects (engines rm1) !! j = engineMap !! j) ->
  (forall k e, k ∈ engineList -> engineMap !! k = Some e ->
               Engine_Spec_Active e = false) ->
  noneActive rm1 engineList.
Proof. intros Hsame Hnone k e Hk He. rewrite Hsame in He by done. by eapply Hnone. Qed.

Lemma several_length (engineList : list string) :
  (1 < length engineList)%nat -> forall k, engineList <> [k].
Proof. intros Hlen k ->. simpl in Hlen. lia. Qed.

(** C9: a group of more than one engine, none active, whose volume has no
    node field (non-empty and) equal to the nodeID of an engine of the
    group: however the run ends, every engine of the group is in the cache
    as it was listed, so none is set active; and the run returns no error
    when the volumes of the other groups can be got. *)
Theorem checkAndUpdateEngineActiveState_no_engine_on_node
    engineOrder volumeOrder rm engineMap volumeName engineList v :
  (listEngines' rm).2 = Done (inr engineMap) ->
  RangeOrder volumeOrder (groupsOf engineMap engineOrder) ->
  groupsOf engineMap engineOrder !! volumeName = Some engineList ->
  (1 < length engineList)%nat ->
  (forall k e, k ∈ engineList -> engineMap !! k = Some e ->
               Engine_Spec_Active e = false) ->
  (Get volumeName rm).2 = Done (inr v) ->
  (forall k e, k ∈ engineList -> engineMap !! k = Some e ->
               onVolumeNode v e = false) ->
  (forall k, k ∈ engineList ->
     objects (engines (checkAndUpdate engineOrder volumeOrder rm).1) !! k
       = engineMap !! k) /\
  ((forall vn l, groupsOf engineMap engineOrder !! vn = Some l -> vn <> volumeName ->
                 exists w, (Get vn rm).2 = Done (inr w)) ->
   (checkAndUpdate engineOrder volumeOrder rm).2 = Done None).
Proof.
  intros Hlist Hro Hgroup Hlen Hnone Hget Hnode. split.
  - destruct (checkAndUpdate_at engineOrder volumeOrder rm engineMap volumeName
                engineList Hlist Hro Hgroup)
      as (rm' & r & rm1 & Hrun & Hadv & Hsame & Hcases).
    rewrite Hrun. simpl. intros k Hk.
    destruct Hcases as [[-> _]|(rm2 & r2 & Hstep & _ & Hafter & _)]; [by apply Hsame|].
    rewrite Hafter by done. rewrite <- Hsame by done.
    pose proof (noneActive_same rm1 engineMap engineList Hsame Hnone) as Hnone1.
    pose proof (Get_after_listing volumeName engineMap rm rm1 Hadv) as Hget1.
    rewrite Hget in Hget1.
    destruct (groupStep_inv _ _ _ _ _ _ _ Hstep)
      as [(k0 & e0 & Hk0 & He0 & Ha0 & -> & _)
         |[(k0 & e0 & Hl0 & _)
          |[(err & _ & _ & _ & -> & _)
           |[(w & _ & _ & Hg & _)
            |(w & rm3 & before & k0 & after & e0 & _ & _ & Hg & Hl0 & _ & He0 & Hon & _)]]]].
    + done.
    + by destruct (several_length _ Hlen k0).
    + done.
    + apply Get_inr in Hg as (_ & He & _). by rewrite He.
    + assert (k0 ∈ engineList) as Hk0.
      { rewrite Hl0. apply elem_of_app. right. left. }
      rewrite Hg in Hget1. simpl in Hget1. assert (w = v) as -> by congruence.
      rewrite Hsame in He0 by done. by rewrite (Hnode k0 e0 Hk0 He0) in Hon.
  - intros Hothers. rewrite (checkAndUpdate_run _ _ _ _ Hlist).
    apply updateGroups_returns.
    + by apply groups_valid.
    + intros vn l Hin. apply elem_of_range in Hin as [_ Hin].
      rewrite (Get_frame vn rm (withEngines engineMap rm)) by done.
      destruct (decide (vn = volumeName)) as [->|Hne]; [by eexists|].
      by eapply Hothers.
Qed.


(** C2 as the code has it: for a group of more than one engine, none
    active, whose volume is neither cached nor in the store, the get fails
    with NotFound and the group is not skipped: the run returns an error,
    the engines of the group stay as listed, and when the group is the first
    one visited the error is that NotFound and no group at all is
    processed. *)
Theorem checkAndUpdateEngineActiveState_volume_absent
    engineOrder volumeOrder rm engineMap volumeName engineList :
  (listEngines' rm).2 = Done (inr engineMap) ->
  RangeOrder volumeOrder (groupsOf engineMap engineOrder) ->
  groupsOf engineMap engineOrder !! volumeName = Some engineList ->
  (1 < length engineList)%nat ->
  (forall k e, k ∈ engineList -> engineMap !! k = Some e ->
               Engine_Spec_Active e = false) ->
  objects (volumes rm) !! volumeName = None ->
  GetVolume lhClient namespace volumeName = inr None ->
  (exists err, (checkAndUpdate engineOrder volumeOrder rm).2 = Done (Some err)) /\
  (forall k, k ∈ engineList ->
     objects (engines (checkAndUpdate engineOrder volumeOrder rm).1) !! k
       = engineMap !! k) /\
  (forall rest, volumeOrder = volumeName :: rest ->
     checkAndUpdate engineOrder volumeOrder rm
       = (withEngines engineMap rm, Done (Some (NotFound "volume" volumeName)))).
Proof.
  intros Hlist Hro Hgroup Hlen Hnone Hcache Hstore.
  assert (forall rm0, volumes rm0 = volumes rm ->
            (Get volumeName rm0).2 = Done (inl (NotFound "volume" volumeName)))
    as Hget.
  { intros rm0 Hv. unfold GetVolumeFromProvidedCache. by rewrite Hv, Hcache, Hstore. }
  destruct (checkAndUpdate_at engineOrder volumeOrder rm engineMap volumeName
              engineList Hlist Hro Hgroup)
    as (rm' & r & rm1 & Hrun & Hadv & Hsame & Hcases).
  pose proof (noneActive_same rm1 engineMap engineList Hsame Hnone) as Hnone1.
  pose proof (Get_after_listing volumeName engineMap rm rm1 Hadv) as Hget1.
  rewrite (Hget rm eq_refl) in Hget1.
  assert ((exists err, r = Some err) /\
          forall k, k ∈ engineList -> objects (engines rm') !! k = engineMap !! k)
    as [Herr Hkept].
  { destruct Hcases as [[-> Herr]|(rm2 & r2 & Hstep & _ & Hafter & Hr2)]; [done|].
    destruct (groupStep_inv _ _ _ _ _ _ _ Hstep)
      as [(k0 & e0 & Hk0 & He0 & Ha0 & _)
         |[(k0 & e0 & Hl0 & _)
          |[(err & _ & _ & _ & -> & ->)
           |[(w & _ & _ & Hg & _)
            |(w & rm3 & before & k0 & after & e0 & _ & _ & Hg & _)]]]].
    - by rewrite (Hnone1 k0 e0 Hk0 He0) in Ha0.
    - by destruct (several_length _ Hlen k0).
    - destruct Hr2 as [-> ->]. split; [by eexists|done].
    - by rewrite Hg in Hget1.
    - by rewrite Hg in Hget1. }
  split_and!.
  - destruct Herr as [err ->]. exists err. by rewrite Hrun.
  - intros k Hk. rewrite Hrun. by apply Hkept.
  - intros rest ->. rewrite (checkAndUpdate_run _ _ _ _ Hlist).
    rewrite range_cons, Hgroup, updateGroups_cons.
    destruct (updateGroup_step namespace lhClient volumeName engineList
                (withEngines engineMap rm)) as (rm2 & r2 & -> & Hstep).
    { intros k Hk. apply volumeEngineMap_group in Hgroup as (_ & _ & ->).
      apply elem_of_groupOf in Hk as (_ & e & He & _). by eexists. }
    pose proof (Hget (withEngines engineMap rm) eq_refl) as Hget0.
    destruct (groupStep_inv _ _ _ _ _ _ _ Hstep)
      as [(k0 & e0 & Hk0 & He0 & Ha0 & _)
         |[(k0 & e0 & Hl0 & _)
          |[(err & _ & _ & Hg & -> & ->)
           |[(w & _ & _ & Hg & _)
            |(w & rm3 & before & k0 & after & e0 & _ & _ & Hg & _)]]]].
    + by rewrite (Hnone k0 e0 Hk0 He0) in Ha0.
    + by destruct (several_length _ Hlen k0).
    + rewrite Hg in Hget0. simpl in Hget0. by simplify_eq.
    + by rewrite Hg in Hget0.
    + by rewrite Hg in Hget0.
Qed.

Lemma first_unique {A : Type} (good bad : A -> Prop) (l1 l1' l2 l2' : list A) x x' :
  (forall y, good y -> bad y -> False) ->
  (l1 ++ x :: l2 = l1' ++ x' :: l2')%list ->
  (forall y, y ∈ l1 -> bad y) -> good x ->
  (forall y, y ∈ l1' -> bad y) -> good x' ->
  x = x'.
Proof.
  intros Hexcl. revert l1'. induction l1 as [|y l1 IH]; intros l1' Heq Hb Hg Hb' Hg'.
  - destruct l1' as [|y' l1']; simpl in Heq; simplify_eq; [done|].
    destruct (Hexcl y' Hg). apply Hb'. left.
  - destruct l1' as [|y' l1']; simpl in Heq; simplify_eq.
    + destruct (Hexcl x' Hg'). apply Hb. left.
    + apply (IH l1'); try done.
      * intros z Hz. apply Hb. by right.
      * intros z Hz. apply Hb'. by right.
Qed.

(** C3 as the code has it: in a run that returns no error, a group of more
    than one engine, none active, gets as its active engine the first engine
    in the order of the visit whose nodeID is equal to a non-empty node
    field of the volume (desired, current or pending, with no priority among
    the three); the other engines of the group stay as listed. *)
Theorem checkAndUpdateEngineActiveState_activates_first_on_node
    before k after volumeOrder rm rm' engineMap volumeName engineList v e :
  (listEngines' rm).2 = Done (inr engineMap) ->
  RangeOrder volumeOrder (groupsOf engineMap (before ++ k :: after)%list) ->
  groupsOf engineMap (before ++ k :: after)%list !! volumeName = Some engineList ->
  (1 < length engineList)%nat ->
  (forall j ej, j ∈ engineList -> engineMap !! j = Some ej ->
                Engine_Spec_Active ej = false) ->
  (Get volumeName rm).2 = Done (inr v) ->
  engineMap !! k = Some e -> Engine_Spec_VolumeName e = volumeName ->
  onVolumeNode v e = true ->
  (forall j ej, j ∈ before -> j ∈ engineList -> engineMap !! j = Some ej ->
                onVolumeNode v ej = false) ->
  checkAndUpdate (before ++ k :: after)%list volumeOrder rm = (rm', Done None) ->
  objects (engines rm') !! k = Some (Engine_setActive e) /\
  forall j, j ∈ engineList -> j <> k -> objects (engines rm') !! j = engineMap !! j.
Proof.
  intros Hlist Hro Hgroup Hlen Hnone Hget Hk Hvn Hon Hbefore Hrun.
  destruct (checkAndUpdate_at (before ++ k :: after)%list volumeOrder rm engineMap
              volumeName engineList Hlist Hro Hgroup)
    as (rm2' & r & rm1 & Hrun' & Hadv & Hsame & Hcases).
  rewrite Hrun in Hrun'. injection Hrun' as <- <-.
  pose proof (noneActive_same rm1 engineMap engineList Hsame Hnone) as Hnone1.
  pose proof (Get_after_listing volumeName engineMap rm rm1 Hadv) as Hget1.
  rewrite Hget in Hget1.
  pose proof (volumeEngineMap_group _ _ _ _ Hgroup) as (_ & _ & Hlist_eq).
  rewrite groupOf_app in Hlist_eq. unfold groupOf at 2 in Hlist_eq.
  rewrite filter_cons_True in Hlist_eq by (by rewrite Hk; simpl; rewrite Hvn).
  fold (groupOf engineMap volumeName after) in Hlist_eq.
  assert (k ∈ engineList) as Hkin.
  { rewrite Hlist_eq. apply elem_of_app. right. left. }
  destruct Hcases as [[_ [err ?]]|(rm2 & r2 & Hstep & _ & Hafter & Hr2)]; [done|].
  destruct (groupStep_inv _ _ _ _ _ _ _ Hstep)
    as [(k0 & e0 & Hk0 & He0 & Ha0 & _)
       |[(k0 & e0 & Hl0 & _)
        |[(err & _ & _ & _ & _ & ->)
         |[(w & _ & _ & Hg & Hno & _)
          |(w & rm3 & before0 & k0 & after0 & e0 & _ & _ & Hg & Hl0 & Hno & He0
              & Hon0 & -> & _)]]]].
  - by rewrite (Hnone1 k0 e0 Hk0 He0) in Ha0.
  - by destruct (several_length _ Hlen k0).
  - by destruct Hr2.
  - rewrite Hg in Hget1. simpl in Hget1. assert (w = v) as -> by congruence.
    rewrite (Hno k e Hkin) in Hon; [done|]. by rewrite Hsame.
  - rewrite Hg in Hget1. simpl in Hget1. assert (w = v) as -> by congruence.
    apply Get_inr in Hg as (_ & He & _).
    assert (k0 = k) as ->.
    { apply (first_unique
               (fun j => exists ej, objects (engines rm1) !! j = Some ej /\
                                    onVolumeNode v ej = true)
               (fun j => forall ej, objects (engines rm1) !! j = Some ej ->
                                    onVolumeNode v ej = false)
               before0 (groupOf engineMap volumeName before) after0
               (groupOf engineMap volumeName after)).
      - intros j (ej & Hej & Hgood) Hbad. rewrite (Hbad ej Hej) in Hgood. done.
      - by rewrite <- Hl0, <- Hlist_eq.
      - intros j Hj ej Hej. by eapply Hno.
      - by exists e0.
      - intros j Hj ej Hej.
        assert (j ∈ engineList) as Hjin.
        { rewrite Hlist_eq. apply elem_of_app. by left. }
        rewrite Hsame in Hej by done.
        apply elem_of_groupOf in Hj as [Hj _]. by eapply Hbefore.
      - exists e. split; [|done]. by rewrite Hsame. }
    rewrite Hsame in He0 by done. assert (e0 = e) as -> by congruence.
    split.
    + rewrite Hafter by done. simpl. by rewrite lookup_insert_eq.
    + intros j Hj Hne. rewrite Hafter by done. simpl.
      rewrite lookup_insert_ne by done. rewrite He. by apply Hsame.
Qed.


Lemma activated_lookup E E' j ej :
  activated E E' -> E' !! j = Some ej ->
  exists e, E !! j = Some e /\ (ej = e \/ ej = Engine_setActive e).
Proof.
  intros Ha Hj. destruct (Ha j) as [Heq|Heq]; rewrite Hj in Heq.
  - exists ej. split; [done|by left].
  - destruct (E !! j) as [e|]; simplify_eq/=. exists e. split; [done|by right].
Qed.

(** the run keeps the engines and their volume names *)
Lemma checkAndUpdate_activated engineOrder volumeOrder rm engineMap :
  (listEngines' rm).2 = Done (inr engineMap) ->
  exists rm' r,
    checkAndUpdate engineOrder volumeOrder rm = (rm', Done r) /\
    advances' (withEngines engineMap rm) rm'.
Proof.
  intros Hlist. rewrite (checkAndUpdate_run _ _ _ _ Hlist).
  destruct (updateGroups_run namespace lhClient
              (range volumeOrder (groupsOf engineMap engineOrder))
              (withEngines engineMap rm)) as (rm' & r & Hrun & Hadv & _).
  { by apply groups_valid. }
  by exists rm', r.
Qed.

(** the engines of a volume in the cache after the run are those of its group *)
Lemma group_member_after engineOrder engineMap volumeName engineList E' j ej :
  RangeOrder engineOrder engineMap ->
  groupsOf engineMap engineOrder !! volumeName = Some engineList ->
  activated engineMap E' ->
  E' !! j = Some ej -> Engine_Spec_VolumeName ej = volumeName ->
  j ∈ engineList.
Proof.
  intros Hro Hgroup Ha Hj Hvn.
  apply volumeEngineMap_group in Hgroup as (_ & _ & ->).
  destruct (activated_lookup _ _ _ _ Ha Hj) as (e & He & Hej).
  apply elem_of_groupOf. split.
  - apply (RangeOrder_elem _ _ _ Hro). by eexists.
  - exists e. split; [done|]. by destruct Hej as [->| ->].
Qed.

(** C5 as the code has it: after a run that returns no error, a group that
    had exactly one active engine, or no active engine and either a single
    engine or an engine on a node of its volume, has exactly one active
    engine; a single engine that was not active is active. *)
Theorem checkAndUpdateEngineActiveState_exactly_one_active
    engineOrder volumeOrder rm rm' engineMap volumeName engineList :
  (listEngines' rm).2 = Done (inr engineMap) ->
  RangeOrder engineOrder engineMap ->
  RangeOrder volumeOrder (groupsOf engineMap engineOrder) ->
  groupsOf engineMap engineOrder !! volumeName = Some engineList ->
  checkAndUpdate engineOrder volumeOrder rm = (rm', Done None) ->
  ((exists k e, k ∈ engineList /\ engineMap !! k = Some e /\
                Engine_Spec_Active e = true /\
                forall j ej, j ∈ engineList -> engineMap !! j = Some ej ->
                             Engine_Spec_Active ej = true -> j = k) \/
   ((forall j ej, j ∈ engineList -> engineMap !! j = Some ej ->
                  Engine_Spec_Active ej = false) /\
    ((exists k, engineList = [k]) \/
     (exists v k e, (Get volumeName rm).2 = Done (inr v) /\ k ∈ engineList /\
                    engineMap !! k = Some e /\ onVolumeNode v e = true)))) ->
  (exists k e',
     objects (engines rm') !! k = Some e' /\
     Engine_Spec_VolumeName e' = volumeName /\ Engine_Spec_Active e' = true /\
     forall j ej, objects (engines rm') !! j = Some ej ->
                  Engine_Spec_VolumeName ej = volumeName ->
                  Engine_Spec_Active ej = true -> j = k) /\
  (forall k e, engineList = [k] -> engineMap !! k = Some e ->
               Engine_Spec_Active e = false ->
               objects (engines rm') !! k = Some (Engine_setActive e)).
Proof.
  intros Hlist Hroe Hrov Hgroup Hrun Hresolvable.
  destruct (checkAndUpdate_activated engineOrder volumeOrder rm engineMap Hlist)
    as (rm0' & r0 & Hrun0 & (_ & _ & Hact & _)).
  rewrite Hrun in Hrun0. injection Hrun0 as <- <-. simpl in Hact.
  destruct (checkAndUpdate_at engineOrder volumeOrder rm engineMap volumeName
              engineList Hlist Hrov Hgroup)
    as (rm2' & r & rm1 & Hrun' & Hadv & Hsame & Hcases).
  rewrite Hrun in Hrun'. injection Hrun' as <- <-.
  pose proof (Get_after_listing volumeName engineMap rm rm1 Hadv) as Hget1.
  destruct Hcases as [[_ [err ?]]|(rm2 & r2 & Hstep & _ & Hafter & Hr2)]; [done|].
  assert (forall j e, j ∈ engineList -> engineMap !! j = Some e ->
                      Engine_Spec_VolumeName e = volumeName) as Hnames.
  { intros j e Hj He. pose proof (volumeEngineMap_group _ _ _ _ Hgroup) as (_ & _ & Hl).
    rewrite Hl in Hj. apply elem_of_groupOf in Hj as (_ & e1 & He1 & Hvn). congruence. }
  (* the engine that is active after the run, the others being as listed *)
  assert (exists k e, k ∈ engineList /\ engineMap !! k = Some e /\
            (objects (engines rm') !! k = Some e \/
             objects (engines rm') !! k = Some (Engine_setActive e)) /\
            (exists e', objects (engines rm') !! k = Some e' /\
                        Engine_Spec_Active e' = true) /\
            (forall j ej, j ∈ engineList -> objects (engines rm') !! j = Some ej ->
                          Engine_Spec_Active ej = true -> j = k) /\
            (engineList = [k] -> Engine_Spec_Active e = false ->
             objects (engines rm') !! k = Some (Engine_setActive e)))
    as (k & e & Hk & He & Hke & (e' & He' & Hactive) & Hunique & Hsingle).
  { destruct (groupStep_inv _ _ _ _ _ _ _ Hstep)
      as [(k0 & e0 & Hk0 & He0 & Ha0 & -> & _)
         |[(k0 & e0 & Hl0 & He0 & Ha0 & -> & _)
          |[(err & _ & _ & _ & _ & ->)
           |[(w & Hn1 & Hs & Hg & Hno & _)
            |(w & rm3 & before0 & k0 & after0 & e0 & Hn1 & Hs & Hg & Hl0 & Hno & He0
                & Hon0 & -> & _)]]]].
    - (* the group had an active engine and is skipped *)
      rewrite Hsame in He0 by done.
      destruct Hresolvable as [(k & e & Hk & He & Ha & Hone)|[Hnone _]].
      + exists k, e. split_and!; try done.
        * left. rewrite Hafter by done. by rewrite Hsame.
        * exists e. split; [|done]. rewrite Hafter by done. by rewrite Hsame.
        * intros j ej Hj Hej Haj. rewrite Hafter, Hsame in Hej by done.
          by eapply Hone.
        * intros _ Hfalse. congruence.
      + by rewrite (Hnone k0 e0 Hk0 He0) in Ha0.
    - (* the single engine of the group is set active *)
      assert (k0 ∈ engineList) as Hk0 by (rewrite Hl0; left).
      rewrite Hsame in He0 by done.
      exists k0, e0. split_and!; try done.
      + right. rewrite Hafter by done. simpl. by rewrite lookup_insert_eq.
      + exists (Engine_setActive e0). split; [|done].
        rewrite Hafter by done. simpl. by rewrite lookup_insert_eq.
      + intros j ej Hj _ _. rewrite Hl0 in Hj. by apply list_elem_of_singleton in Hj.
      + intros _ _. rewrite Hafter by done. simpl. by rewrite lookup_insert_eq.
    - by destruct Hr2.
    - (* no engine on a node of the volume: not a resolvable group *)
      destruct Hresolvable as [(k & e & Hk & He & Ha & _)|[_ [[k Hl]|Hmatch]]].
      + rewrite <- Hsame in He by done. by rewrite (Hn1 k e Hk He) in Ha.
      + by destruct (Hs k).
      + destruct Hmatch as (v & k & e & Hget & Hk & He & Hon).
        rewrite Hget, Hg in Hget1. simpl in Hget1. assert (w = v) as -> by congruence.
        rewrite <- Hsame in He by done. by rewrite (Hno k e Hk He) in Hon.
    - (* the first engine on a node of the volume is set active *)
      apply Get_inr in Hg as (_ & Heng & _).
      assert (k0 ∈ engineList) as Hk0.
      { rewrite Hl0. apply elem_of_app. right. left. }
      pose proof He0 as He0'. rewrite Hsame in He0' by done.
      exists k0, e0. split_and!; try done.
      + right. rewrite Hafter by done. simpl. by rewrite lookup_insert_eq.
      + exists (Engine_setActive e0). split; [|done].
        rewrite Hafter by done. simpl. by rewrite lookup_insert_eq.
      + intros j ej Hj Hej Haj. destruct (decide (j = k0)) as [->|Hne]; [done|].
        rewrite Hafter in Hej by done. simpl in Hej.
        rewrite lookup_insert_ne in Hej by done. rewrite Heng in Hej.
        by rewrite (Hn1 j ej Hj Hej) in Haj.
      + intros Hl. by destruct (Hs k0). }
  split.
  - exists k, e'. split_and!; try done.
    + assert (e' = e \/ e' = Engine_setActive e) as [-> | ->].
      { destruct Hke as [Hke|Hke]; rewrite Hke in He'; [left|right]; congruence. }
      * by eapply Hnames.
      * simpl. by eapply Hnames.
    + intros j ej Hj Hvn Haj. eapply Hunique; [|done..].
      by eapply (group_member_after engineOrder engineMap volumeName engineList).
  - intros k1 e1 Hl He1 Ha1.
    assert (k1 = k) as ->.
    { rewrite Hl in Hk. by apply list_elem_of_singleton in Hk. }
    assert (e1 = e) as -> by congruence. by apply Hsingle.
Qed.

(** *** Running the step again *)

Lemma activated_volumeName E E' k :
  activated E E' ->
  Engine_Spec_VolumeName <$> E' !! k = Engine_Spec_VolumeName <$> E !! k.
Proof.
  intros Ha. destruct (Ha k) as [->| ->]; [done|]. by destruct (E !! k).
Qed.

Lemma activated_is_Some E E' k :
  activated E E' -> is_Some (E' !! k) <-> is_Some (E !! k).
Proof.
  intros Ha. destruct (Ha k) as [->| ->]; [done|].
  destruct (E !! k); simpl; split; intros [x Hx]; by eauto.
Qed.

Lemma activated_groupOf E E' volumeName engineOrder :
  activated E E' -> groupOf E' volumeName engineOrder = groupOf E volumeName engineOrder.
Proof.
  intros Ha. unfold groupOf. apply list_filter_iff. intros k.
  by rewrite (activated_volumeName E E' k Ha).
Qed.

Lemma activated_groupsOf E E' engineOrder :
  activated E E' -> groupsOf E' engineOrder = groupsOf E engineOrder.
Proof.
  intros Ha. apply map_eq. intros vn.
  by rewrite !volumeEngineMap_lookup, (activated_groupOf E E' vn engineOrder Ha).
Qed.

Lemma activated_RangeOrder E E' engineOrder :
  activated E E' -> RangeOrder engineOrder E' -> RangeOrder engineOrder E.
Proof.
  intros Ha [Hnd Hdom]. split; [done|]. rewrite Hdom. apply set_eq. intros k.
  rewrite !elem_of_dom. by apply activated_is_Some.
Qed.

(** a loop that returns an error stopped at a group whose get failed *)
Lemma updateGroups_failed groups : forall rm rm' err,
  groupsValid rm groups ->
  updateGroups' groups rm = (rm', Done (Some err)) ->
  exists groups1 vn l groups2,
    groups = (groups1 ++ (vn, l) :: groups2)%list /\
    updateGroups' groups1 rm = (rm', Done None) /\
    updateGroup namespace lhClient vn l rm' = (rm', Done (Some err)).
Proof.
  induction groups as [|[vn l] groups IH]; intros rm rm' err Hvalid Hrun; [done|].
  rewrite updateGroups_cons in Hrun.
  destruct (updateGroup_step namespace lhClient vn l rm) as (rm1 & r1 & Hrun1 & Hstep).
  { eapply Hvalid. left. }
  rewrite Hrun1 in Hrun. destruct r1 as [err1|].
  - injection Hrun as <- <-.
    assert (rm1 = rm) as ->.
    { destruct (groupStep_inv _ _ _ _ _ _ _ Hstep)
        as [(? & ? & _ & _ & _ & _ & ?)|[(? & ? & _ & _ & _ & _ & ?)
           |[(? & _ & _ & _ & -> & _)|[(? & _ & _ & _ & _ & ?)
           |(? & ? & ? & ? & ? & ? & _ & _ & _ & _ & _ & _ & _ & _ & ?)]]]]; done. }
    exists [], vn, l, groups. by split_and!.
  - destruct (IH rm1 rm' err) as (groups1 & vn' & l' & groups2 & -> & Hrun2 & Hfail);
      [|done|].
    { eapply groupsValid_advances; [by eapply groupStep_advances|].
      intros vn2 l2 Hin. eapply Hvalid. by right. }
    exists ((vn, l) :: groups1), vn', l', groups2. split_and!; try done.
    by rewrite updateGroups_cons, Hrun1.
Qed.

Lemma settled_same_engines rm volumeName l l' :
  (forall k, k ∈ l <-> k ∈ l') -> length l = length l' ->
  settled rm volumeName l -> settled rm volumeName l'.
Proof.
  intros Hsame Hlen [(k & e & Hk & He & Ha)|(Hsev & v & Hc & Hno)].
  - left. exists k, e. split_and!; try done. by apply Hsame.
  - right. split.
    + intros k ->. destruct l as [|k1 [|k2 l]]; simpl in Hlen; try lia.
      by destruct (Hsev k1).
    + exists v. split; [done|]. intros k e Hk He. eapply Hno; [|done]. by apply Hsame.
Qed.

(** the cache after a run, seen by the listing of the next run *)
Lemma listEngines_after_run engineMap rm rm1 :
  advances' (withEngines engineMap rm) rm1 ->
  (listEngines' rm1).2 = Done (inr (objects (engines rm1))) /\
  withEngines (objects (engines rm1)) rm1 = rm1.
Proof.
  intros (_ & Hl & _). simpl in Hl. split.
  - unfold ListAndUpdateEnginesInProvidedCache. by rewrite Hl.
  - apply ResourceMaps_eq; try done. by apply KindCache_eq.
Qed.

End ActiveFacts.

(** ** Two runs of checkAndUpdateEngineActiveState *)

Section MergeFacts.
Variable namespace : string.
Variable lhClient : Clientset.

Local Abbreviation updateGroups' := (updateGroups namespace lhClient).
Local Abbreviation advances' := (advances namespace lhClient).
Local Abbreviation listEngines' :=
  (ListAndUpdateEnginesInProvidedCache namespace lhClient).
Local Abbreviation checkAndUpdate :=
  (checkAndUpdateEngineActiveState namespace lhClient).
Local Abbreviation groupsOf engineMap engineOrder :=
  (volumeEngineMap (range engineOrder engineMap)).
Local Abbreviation withEngines engineMap rm :=
  (set_engines {| listed := true; objects := engineMap |} rm).

Lemma filter_none {A : Type} (P : A -> Prop) `{!forall x, Decision (P x)} (l : list A) :
  (forall x, x ∈ l -> ~ P x) -> filter P l = [].
Proof.
  induction l as [|x l IH]; intros Hnone; [done|].
  rewrite filter_cons_False by (apply Hnone; left).
  apply IH. intros y Hy. apply Hnone. by right.
Qed.

Lemma groupOf_merged engineMap visited order1 order2 volumeName :
  groupOf engineMap volumeName (mergedEngineOrder engineMap visited order1 order2) =
  if decide (volumeName ∈ visited) then groupOf engineMap volumeName order1
  else groupOf engineMap volumeName order2.
Proof.
  unfold mergedEngineOrder. rewrite groupOf_app. unfold groupOf.
  assert (forall k, Engine_Spec_VolumeName <$> engineMap !! k = Some volumeName ->
                    volumeNameOf engineMap k = volumeName) as Hname.
  { intros k Hk. unfold volumeNameOf. by rewrite Hk. }
  case_decide as Hin.
  - rewrite list_filter_filter_l.
    2:{ intros k Hk. by rewrite (Hname k Hk). }
    rewrite (filter_none _ (filter _ order2)); [by rewrite app_nil_r|].
    intros k Hk Hq. apply list_elem_of_filter in Hk as [Hk _].
    by rewrite (Hname k Hq) in Hk.
  - rewrite (filter_none _ (filter _ order1)).
    2:{ intros k Hk Hq. apply list_elem_of_filter in Hk as [Hk _].
        by rewrite (Hname k Hq) in Hk. }
    simpl. apply list_filter_filter_l. intros k Hk. by rewrite (Hname k Hk).
Qed.

Lemma groupsOf_merged engineMap visited order1 order2 volumeName :
  groupsOf engineMap (mergedEngineOrder engineMap visited order1 order2) !! volumeName =
  if decide (volumeName ∈ visited) then groupsOf engineMap order1 !! volumeName
  else groupsOf engineMap order2 !! volumeName.
Proof.
  rewrite volumeEngineMap_lookup, groupOf_merged.
  destruct (decide (volumeName ∈ visited)); by rewrite volumeEngineMap_lookup.
Qed.

Lemma RangeOrder_merged engineMap visited order1 order2 :
  RangeOrder order1 engineMap -> RangeOrder order2 engineMap ->
  RangeOrder (mergedEngineOrder engineMap visited order1 order2) engineMap.
Proof.
  intros Hro1 Hro2. pose proof Hro1 as [Hnd1 Hdom1]. pose proof Hro2 as [Hnd2 _].
  split.
  - apply NoDup_app. split_and!.
    + by apply NoDup_filter.
    + intros k Hk1 Hk2. apply list_elem_of_filter in Hk1 as [Hk1 _].
      apply list_elem_of_filter in Hk2 as [Hk2 _]. done.
    + by apply NoDup_filter.
  - rewrite <- Hdom1. apply set_eq. intros k.
    rewrite !elem_of_list_to_set. unfold mergedEngineOrder.
    rewrite elem_of_app, !list_elem_of_filter.
    rewrite (RangeOrder_elem _ _ k Hro1), (RangeOrder_elem _ _ k Hro2).
    split; [by intros [[_ ?]|[_ ?]]|]. intros Hk.
    destruct (decide (volumeNameOf engineMap k ∈ visited)); [by left|by right].
Qed.

Lemma range_ext {X : Type} (order : list string) (m m' : gmap string X) :
  (forall k, k ∈ order -> m !! k = m' !! k) -> range order m = range order m'.
Proof.
  induction order as [|k order IH]; intros Hsame; [done|].
  rewrite !range_cons, (Hsame k) by left. rewrite IH; [done|].
  intros j Hj. apply Hsame. by right.
Qed.

Lemma range_of_keys {X : Type} (m : gmap string X) (pairs : list (string * X)) :
  (forall k x, (k, x) ∈ pairs -> m !! k = Some x) -> range pairs.*1 m = pairs.
Proof.
  induction pairs as [|[k x] pairs IH]; intros Hin; [done|].
  rewrite fmap_cons. cbn [fst]. rewrite range_cons, (Hin k x) by left. f_equal.
  apply IH. intros j y Hj. apply Hin. by right.
Qed.

Lemma range_filter {X : Type} (P : string -> Prop) `{!forall k, Decision (P k)}
    (order : list string) (m : gmap string X) :
  range (filter P order) m = filter (fun kx => P kx.1) (range order m).
Proof.
  induction order as [|k order IH]; [done|].
  rewrite filter_cons, range_cons. destruct (decide (P k)) as [Hk|Hk].
  - rewrite range_cons. destruct (m !! k) as [x|]; [|done].
    rewrite filter_cons_True by done. by rewrite IH.
  - destruct (m !! k) as [x|]; [|done]. rewrite filter_cons_False by done. done.
Qed.

(** the volumes that have a group do not depend on the order of the engines *)
Lemma groupsOf_is_Some engineMap order1 order2 volumeName :
  RangeOrder order1 engineMap -> RangeOrder order2 engineMap ->
  is_Some (groupsOf engineMap order1 !! volumeName) ->
  is_Some (groupsOf engineMap order2 !! volumeName).
Proof.
  intros Hro1 Hro2. rewrite !volumeEngineMap_lookup.
  case_decide as H1; [by intros [? ?]|]. intros _.
  rewrite decide_False; [by eexists|]. intros [?|Hnil]; [apply H1; by left|].
  apply H1. right.
  destruct (groupOf engineMap volumeName order1) as [|k l] eqn:Hl; [done|].
  assert (k ∈ groupOf engineMap volumeName order2) as Hk.
  { assert (k ∈ groupOf engineMap volumeName order1) as Hk1 by (rewrite Hl; left).
    apply elem_of_groupOf in Hk1 as [Hk1 He]. apply elem_of_groupOf. split; [|done].
    apply (RangeOrder_elem _ _ k Hro2). by apply (RangeOrder_elem _ _ k Hro1). }
  rewrite Hnil in Hk. by apply elem_of_nil in Hk.
Qed.

(** groups that are settled can be left out of the loop *)
Lemma updateGroups_skip_settled (visited : list string) groups : forall rm,
  groupsValid rm groups ->
  (forall vn l, (vn, l) ∈ groups -> vn ∈ visited -> settled rm vn l) ->
  updateGroups' groups rm
  = updateGroups' (filter (fun g => g.1 ∉ visited) groups) rm.
Proof.
  induction groups as [|[vn l] groups IH]; intros rm Hvalid Hsettled; [done|].
  rewrite filter_cons. cbn [fst]. destruct (decide (vn ∉ visited)) as [Hp|Hp].
  - rewrite !updateGroups_cons.
    destruct (updateGroup_step namespace lhClient vn l rm) as (rm1 & r1 & -> & Hstep).
    { eapply Hvalid. left. }
    destruct r1 as [err|]; [done|].
    pose proof (groupStep_advances _ _ _ _ _ _ _ Hstep) as Hadv.
    apply IH.
    + eapply groupsValid_advances; [done|].
      intros vn' l' Hin. eapply Hvalid. by right.
    + intros vn' l' Hin Hnp. eapply settled_advances; [done|].
      eapply Hsettled; [by right|done].
  - rewrite updateGroups_cons, settled_updateGroup.
    + apply IH.
      * intros vn' l' Hin. eapply Hvalid. by right.
      * intros vn' l' Hin Hnp. eapply Hsettled; [by right|done].
    + eapply Hvalid. left.
    + eapply Hsettled; [left|]. by destruct (decide (vn ∈ visited)).
Qed.

(** the groups the loop went through before it ended *)
Lemma updateGroups_prefix groups rm rm' r :
  groupsValid rm groups ->
  updateGroups' groups rm = (rm', Done r) ->
  exists groups1 groups2,
    groups = (groups1 ++ groups2)%list /\
    updateGroups' groups1 rm = (rm', Done None).
Proof.
  intros Hvalid Hrun. destruct r as [err|].
  - destruct (updateGroups_failed namespace lhClient _ _ _ _ Hvalid Hrun)
      as (groups1 & vn & l & groups2 & -> & Hrun1 & _).
    by exists groups1, ((vn, l) :: groups2).
  - exists groups, []. by rewrite app_nil_r.
Qed.


Lemma groupOf_same_engines engineMap order1 order2 volumeName :
  RangeOrder order1 engineMap -> RangeOrder order2 engineMap ->
  (forall k, k ∈ groupOf engineMap volumeName order1 <->
             k ∈ groupOf engineMap volumeName order2) /\
  length (groupOf engineMap volumeName order1)
  = length (groupOf engineMap volumeName order2).
Proof.
  intros Hro1 Hro2.
  assert (forall k, k ∈ groupOf engineMap volumeName order1 <->
                    k ∈ groupOf engineMap volumeName order2) as Hsame.
  { intros k. rewrite !elem_of_groupOf.
    by rewrite (RangeOrder_elem _ _ k Hro1), (RangeOrder_elem _ _ k Hro2). }
  split; [done|]. apply Permutation_length, NoDup_Permutation; [| |done].
  - apply NoDup_groupOf. by destruct Hro1.
  - apply NoDup_groupOf. by destruct Hro2.
Qed.

(** Whatever a second run does after a first run, one run could have done:
    there are orders of visit with which a single run ends as the two runs. *)
Lemma checkAndUpdate_twice_as_once
    engineOrder1 volumeOrder1 rm rm1 r1 engineMap engineOrder2 volumeOrder2 :
  (listEngines' rm).2 = Done (inr engineMap) ->
  RangeOrder engineOrder1 engineMap ->
  RangeOrder volumeOrder1 (groupsOf engineMap engineOrder1) ->
  checkAndUpdate engineOrder1 volumeOrder1 rm = (rm1, r1) ->
  RangeOrder engineOrder2 (objects (engines rm1)) ->
  RangeOrder volumeOrder2 (groupsOf (objects (engines rm1)) engineOrder2) ->
  exists engineOrder volumeOrder,
    RangeOrder engineOrder engineMap /\
    RangeOrder volumeOrder (groupsOf engineMap engineOrder) /\
    checkAndUpdate engineOrder volumeOrder rm
    = checkAndUpdate engineOrder2 volumeOrder2 rm1.
Proof.
  intros Hlist Hroe1 Hrov1 Hrun Hroe2 Hrov2.
  destruct (checkAndUpdate_activated namespace lhClient engineOrder1 volumeOrder1 rm
              engineMap Hlist) as (rm1' & r & Hrun0 & Hadv).
  rewrite Hrun in Hrun0. injection Hrun0 as <- ->.
  destruct (listEngines_after_run namespace lhClient engineMap rm rm1 Hadv)
    as [Hlist1 Heta].
  pose proof Hadv as (_ & _ & Hact & _). simpl in Hact.
  pose proof (activated_RangeOrder _ _ _ Hact Hroe2) as Hroe2'.
  rewrite (activated_groupsOf _ _ engineOrder2 Hact) in Hrov2.
  rewrite (checkAndUpdate_run _ _ _ _ _ _ Hlist) in Hrun.
  pose proof (groups_valid engineMap engineOrder1 volumeOrder1
                (withEngines engineMap rm) eq_refl) as Hvalid.
  destruct (updateGroups_prefix _ _ _ _ Hvalid Hrun)
    as (groupsA & groupsR & Hsplit & HrunA).
  set (visited := groupsA.*1).
  assert (forall vn l, (vn, l) ∈ groupsA ->
                       groupsOf engineMap engineOrder1 !! vn = Some l) as HinA.
  { intros vn l Hin. assert ((vn, l) ∈ range volumeOrder1
                                       (groupsOf engineMap engineOrder1)) as Hin1.
    { rewrite Hsplit. apply elem_of_app. by left. }
    by apply elem_of_range in Hin1 as [_ ?]. }
  assert (forall vn, vn ∈ visited ->
                     exists l, (vn, l) ∈ groupsA /\
                               groupsOf engineMap engineOrder1 !! vn = Some l)
    as Hvisited.
  { intros vn Hvn. apply list_elem_of_fmap in Hvn as ([vn' l] & -> & Hin).
    exists l. split; [done|]. by apply HinA. }
  assert (NoDup visited) as HndA.
  { pose proof Hrov1 as [Hnd _].
    rewrite <- (RangeOrder_keys _ _ Hrov1), Hsplit, fmap_app in Hnd.
    by apply NoDup_app in Hnd as [? _]. }
  exists (mergedEngineOrder engineMap visited engineOrder1 engineOrder2),
         (mergedVolumeOrder visited volumeOrder2).
  split; [by apply RangeOrder_merged|]. split.
  - (* the merged order of the volumes visits every group once *)
    split.
    + apply NoDup_app. split_and!; [done| |apply NoDup_filter; by destruct Hrov2].
      intros vn Hvn Hin. by apply list_elem_of_filter in Hin as [? _].
    + apply set_eq. intros vn. unfold mergedVolumeOrder.
      rewrite elem_of_list_to_set, elem_of_app, list_elem_of_filter, elem_of_dom.
      rewrite groupsOf_merged. destruct (decide (vn ∈ visited)) as [Hvn|Hvn].
      * destruct (Hvisited vn Hvn) as (l & _ & ->). split; [by eexists|by left].
      * rewrite <- (RangeOrder_elem _ _ vn Hrov2).
        split; [by intros [?|[_ ?]]|by right].
  - (* the single run goes through the groups of the first run, then through
       those of the second run that the first run did not go through *)
    rewrite (checkAndUpdate_run _ _ _ _ _ _ Hlist).
    rewrite (checkAndUpdate_run _ _ _ _ _ _ Hlist1), Heta.
    rewrite (activated_groupsOf _ _ engineOrder2 Hact).
    unfold mergedVolumeOrder. rewrite range_app.
    rewrite (range_ext visited _ (groupsOf engineMap engineOrder1)).
    2:{ intros vn Hvn. by rewrite groupsOf_merged, decide_True. }
    unfold visited at 1. rewrite (range_of_keys _ groupsA HinA).
    rewrite (range_ext (filter _ volumeOrder2) _ (groupsOf engineMap engineOrder2)).
    2:{ intros vn Hvn. apply list_elem_of_filter in Hvn as [Hvn _].
        by rewrite groupsOf_merged, decide_False. }
    rewrite range_filter, updateGroups_app, HrunA.
    symmetry. apply (updateGroups_skip_settled visited).
    + rewrite <- (activated_groupsOf _ _ engineOrder2 Hact). by apply groups_valid.
    + intros vn l Hin Hvn.
      destruct (Hvisited vn Hvn) as (lA & HlA & HgroupA).
      apply elem_of_groups in Hin as (_ & _ & _ & ->).
      apply volumeEngineMap_group in HgroupA as (_ & _ & HlA').
      destruct (groupOf_same_engines engineMap engineOrder1 engineOrder2 vn
                  Hroe1 Hroe2') as [Hsame Hlen].
      eapply (settled_same_engines rm1 vn lA); [by rewrite HlA'|by rewrite HlA'|].
      eapply (updateGroups_settles namespace lhClient groupsA); [|done..].
      intros vn' l' Hin'. eapply Hvalid. rewrite Hsplit. apply elem_of_app. by left.
Qed.


(** C4: checkAndUpdateEngineActiveState is idempotent.  A second run with
    the same orders of visit ends with the cache and the result of the first
    run, also when that is an error; after a first run that returned no
    error, a second run with any orders of visit returns no error and leaves
    the cache as it is; whatever the orders of visit of the second run, the
    two runs end as a single run does for some orders of visit; and a group
    with an active engine (one or more) is left by the run as it was listed. *)
Theorem checkAndUpdateEngineActiveState_idempotent
    engineOrder volumeOrder rm rm1 r1 engineMap :
  (listEngines' rm).2 = Done (inr engineMap) ->
  RangeOrder engineOrder engineMap ->
  RangeOrder volumeOrder (groupsOf engineMap engineOrder) ->
  checkAndUpdate engineOrder volumeOrder rm = (rm1, r1) ->
  checkAndUpdate engineOrder volumeOrder rm1 = (rm1, r1) /\
  (r1 = Done None ->
   forall engineOrder' volumeOrder',
     RangeOrder engineOrder' (objects (engines rm1)) ->
     RangeOrder volumeOrder' (groupsOf (objects (engines rm1)) engineOrder') ->
     checkAndUpdate engineOrder' volumeOrder' rm1 = (rm1, Done None)) /\
  (forall engineOrder' volumeOrder',
     RangeOrder engineOrder' (objects (engines rm1)) ->
     RangeOrder volumeOrder' (groupsOf (objects (engines rm1)) engineOrder') ->
     exists engineOrder1 volumeOrder1,
       RangeOrder engineOrder1 engineMap /\
       RangeOrder volumeOrder1 (groupsOf engineMap engineOrder1) /\
       checkAndUpdate engineOrder1 volumeOrder1 rm
       = checkAndUpdate engineOrder' volumeOrder' rm1) /\
  (forall volumeName engineList k e,
     groupsOf engineMap engineOrder !! volumeName = Some engineList ->
     k ∈ engineList -> engineMap !! k = Some e -> Engine_Spec_Active e = true ->
     forall j, j ∈ engineList -> objects (engines rm1) !! j = engineMap !! j).
Proof.
  intros Hlist Hroe Hrov Hrun.
  pose proof (fun engineOrder' volumeOrder' =>
                checkAndUpdate_twice_as_once engineOrder volumeOrder rm rm1 r1
                  engineMap engineOrder' volumeOrder' Hlist Hroe Hrov Hrun) as Htwice.
  destruct (checkAndUpdate_activated namespace lhClient engineOrder volumeOrder rm
              engineMap Hlist) as (rm1' & r & Hrun0 & Hadv).
  rewrite Hrun in Hrun0. injection Hrun0 as <- ->.
  destruct (listEngines_after_run namespace lhClient engineMap rm rm1 Hadv)
    as [Hlist1 Heta].
  pose proof Hadv as (_ & _ & Hact & _). simpl in Hact.
  pose proof (groups_valid engineMap engineOrder volumeOrder
                (withEngines engineMap rm) eq_refl) as Hvalid.
  assert (groupsValid rm1 (range volumeOrder (groupsOf engineMap engineOrder)))
    as Hvalid1 by (by eapply groupsValid_advances).
  rewrite (checkAndUpdate_run _ _ _ _ _ _ Hlist) in Hrun.
  split_and!.
  - rewrite (checkAndUpdate_run _ _ _ _ _ _ Hlist1), Heta.
    rewrite (activated_groupsOf _ _ engineOrder Hact).
    destruct r as [err|].
    + destruct (updateGroups_failed namespace lhClient _ _ _ _ Hvalid Hrun)
        as (groups1 & vn & l & groups2 & Hsplit & Hrun1 & Hfail).
      rewrite Hsplit in Hvalid, Hvalid1 |- *.
      rewrite updateGroups_app, updateGroups_settled.
      * by rewrite updateGroups_cons, Hfail.
      * intros vn' l' Hin. eapply Hvalid1. apply elem_of_app. by left.
      * apply (updateGroups_settles namespace lhClient groups1
                 (withEngines engineMap rm) rm1); [|done].
        intros vn' l' Hin. eapply Hvalid. apply elem_of_app. by left.
    + apply updateGroups_settled; [done|].
      exact (updateGroups_settles namespace lhClient _ _ _ Hvalid Hrun).
  - intros Hdone engineOrder' volumeOrder' Hroe' Hrov'.
    assert (r = None) as -> by congruence.
    rewrite (checkAndUpdate_run _ _ _ _ _ _ Hlist1), Heta.
    apply updateGroups_settled; [by apply groups_valid|].
    intros vn l' Hin. apply elem_of_groups in Hin as (_ & Hvn & Hne & Hl').
    rewrite (activated_groupOf _ _ vn engineOrder' Hact) in Hl'.
    pose proof (activated_RangeOrder _ _ _ Hact Hroe') as Hroe1.
    assert (forall k, k ∈ groupOf engineMap vn engineOrder <-> k ∈ l') as Hsame.
    { intros k. rewrite Hl', !elem_of_groupOf.
      rewrite (RangeOrder_elem _ _ k Hroe), (RangeOrder_elem _ _ k Hroe1). done. }
    assert (length (groupOf engineMap vn engineOrder) = length l') as Hlen.
    { apply Permutation_length, NoDup_Permutation; [| |done].
      - apply NoDup_groupOf. by destruct Hroe.
      - rewrite Hl'. apply NoDup_groupOf. by destruct Hroe1. }
    eapply settled_same_engines; [done..|].
    eapply (updateGroups_settles namespace lhClient _ _ _ Hvalid Hrun).
    apply elem_of_range.
    assert (groupsOf engineMap engineOrder !! vn
            = Some (groupOf engineMap vn engineOrder)) as Hgroup.
    { rewrite volumeEngineMap_lookup, decide_False; [done|].
      intros [?|Hnil]; [done|]. destruct l' as [|k l']; [done|].
      assert (k ∈ groupOf engineMap vn engineOrder) as Hk by (apply Hsame; left).
      rewrite Hnil in Hk. by apply elem_of_nil in Hk. }
    split; [|done]. apply (RangeOrder_elem _ _ _ Hrov). by eexists.
  - intros engineOrder' volumeOrder' Hroe' Hrov'. by apply Htwice.
  - intros volumeName engineList k e Hgroup Hk He Ha j Hj.
    destruct (checkAndUpdate_at namespace lhClient engineOrder volumeOrder rm engineMap
              volumeName
                engineList Hlist Hrov Hgroup)
      as (rm' & r' & rm2 & Hrun' & Hadv2 & Hsame & Hcases).
    rewrite (checkAndUpdate_run _ _ _ _ _ _ Hlist), Hrun in Hrun'.
    injection Hrun' as <- <-.
    destruct Hcases as [[-> _]|(rm3 & r3 & Hstep & _ & Hafter & _)]; [by apply Hsame|].
    rewrite Hafter by done. rewrite <- (Hsame k) in He by done.
    destruct (groupStep_inv _ _ _ _ _ _ _ Hstep)
      as [(k0 & e0 & _ & _ & _ & -> & _)
         |[(k0 & e0 & Hl0 & He0 & Ha0 & _)
          |[(err & Hn & _)
           |[(w & Hn & _)
            |(w & rm4 & before0 & k0 & after0 & e0 & Hn & _)]]]].
    + by apply Hsame.
    + rewrite Hl0 in Hk. apply list_elem_of_singleton in Hk as ->. congruence.
    + by rewrite (Hn k e Hk He) in Ha.
    + by rewrite (Hn k e Hk He) in Ha.
    + by rewrite (Hn k e Hk He) in Ha.
Qed.

End MergeFacts.

(** ** More of package crypto *)

Section CryptoMore.
Import crypto.
Context {World : Type}.
Variable luksStatus : string -> World -> World * (crypto.error + string).
Variable TrimSpace : string -> string.

Lemma Split_nonempty (s : string) (sep : Ascii.ascii) : Split s sep <> [].
Proof.
  destruct s as [|c s]; simpl; [done|].
  destruct (Ascii.eqb c sep); [done|]. by destruct (Split s sep).
Qed.

Lemma SplitN2_nonempty (s : string) (sep : Ascii.ascii) : SplitN2 s sep <> [].
Proof.
  destruct s as [|c s]; simpl; [done|].
  destruct (Ascii.eqb c sep); [done|]. by destruct (SplitN2 s sep).
Qed.

(** the loop over the lines ends with a device, with the error of the missing
    device, or with the panic of the missing value *)
Lemma scanLines_error devicePath volume lines mapped mapper err :
  scanLines TrimSpace devicePath volume lines = Done (mapped, mapper, Some err) ->
  err = "mapped device not found in path " ++ devicePath /\
  mapped = EmptyString /\ mapper = EmptyString.
Proof.
  induction lines as [|line lines IH]; simpl.
  - intros [= <- <- <-]. done.
  - destruct (SplitN2 (TrimSpace line) colon) as [|key rest] eqn:Hkv.
    { by destruct (SplitN2_nonempty _ _ Hkv). }
    destruct (String.eqb key "device"); [|done].
    by destruct ((key :: rest) !! 1%nat).
Qed.

(** X1: the only error DeviceEncryptionStatus returns is
    [mapped device not found in path] followed by the device path, with both
    returned strings empty, and only after luksStatus succeeded with an
    output whose first line says the mapping is active; the errors of lines
    129 and 138 are never returned, since Split and SplitN give at least one
    piece. *)
Theorem DeviceEncryptionStatus_only_error devicePath w w' mapped mapper err :
  DeviceEncryptionStatus luksStatus TrimSpace devicePath w
    = (w', Done (mapped, mapper, Some err)) ->
  err = "mapped device not found in path " ++ devicePath /\
  mapped = EmptyString /\ mapper = EmptyString /\
  exists stdout first rest,
    luksStatus (TrimPrefix devicePath (mapperFilePathPrefix ++ "/")) w = (w', inr stdout) /\
    Split stdout newline = first :: rest /\ Contains first " is active" = true.
Proof.
  unfold DeviceEncryptionStatus.
  destruct (HasPrefix devicePath mapperFilePathPrefix); simpl; [|done].
  destruct (luksStatus _ w) as [w1 [e|stdout]] eqn:Hstatus; [done|].
  destruct (Split stdout newline) as [|first rest] eqn:Hsplit.
  { by destruct (Split_nonempty _ _ Hsplit). }
  destruct (Contains first " is active") eqn:Hactive; simpl; [|done].
  intros [= <- Hscan]. apply scanLines_error in Hscan as (-> & -> & ->).
  split_and!; try done. by exists stdout, first, rest.
Qed.


(** the pieces of SplitN2 put together with the separator give the string *)
Lemma SplitN2_pieces (s : string) (sep : Ascii.ascii) :
  SplitN2 s sep = [s] \/
  exists key value, SplitN2 s sep = [key; value] /\ s = key ++ String sep value.
Proof.
  induction s as [|c s IH]; simpl; [by left|].
  destruct (Ascii.eqb_spec c sep) as [->|Hne].
  - right. by exists EmptyString, s.
  - destruct IH as [->|(key & value & -> & ->)]; [by left|].
    right. by exists (String c key), value.
Qed.

Lemma SplitN2_device_value (value : string) :
  SplitN2 ("device:" ++ value) colon = ["device"; value].
Proof. reflexivity. Qed.

Lemma scanLines_skip devicePath volume line lines :
  otherLine TrimSpace line ->
  scanLines TrimSpace devicePath volume (line :: lines)
  = scanLines TrimSpace devicePath volume lines.
Proof.
  intros [Hkey Hvalue]. simpl.
  destruct (SplitN2_pieces (TrimSpace line) colon) as [->|(key & value & -> & Hline)].
  - destruct (String.eqb_spec (TrimSpace line) "device"); done.
  - destruct (String.eqb_spec key "device") as [->|]; [|done].
    by destruct (Hvalue value).
Qed.

Lemma scanLines_skip_all devicePath volume before lines :
  (forall line, line ∈ before -> otherLine TrimSpace line) ->
  scanLines TrimSpace devicePath volume (before ++ lines)%list
  = scanLines TrimSpace devicePath volume lines.
Proof.
  induction before as [|line before IH]; intros Hother; [done|].
  rewrite <- app_comm_cons, scanLines_skip by (apply Hother; left).
  apply IH. intros l Hl. apply Hother. by right.
Qed.


Lemma HasPrefix_empty (s : string) : HasPrefix s EmptyString = true.
Proof. by destruct s. Qed.

Lemma HasPrefix_app (prefix s : string) : HasPrefix (prefix ++ s) prefix = true.
Proof.
  induction prefix as [|c prefix IH]; [apply HasPrefix_empty|].
  rewrite append_String. simpl. by rewrite Ascii.eqb_refl.
Qed.

Lemma substring_all (s : string) : String.substring 0 (String.length s) s = s.
Proof. induction s as [|c s IH]; simpl; [done|]. by rewrite IH. Qed.

Lemma length_app_string (prefix s : string) :
  String.length (prefix ++ s) = String.length prefix + String.length s.
Proof.
  induction prefix as [|c prefix IH]; [done|].
  rewrite append_String. simpl. by rewrite IH.
Qed.

Lemma TrimPrefix_app (prefix s : string) : TrimPrefix (prefix ++ s) prefix = s.
Proof.
  unfold TrimPrefix. rewrite HasPrefix_app, length_app_string.
  replace (String.length prefix + String.length s - String.length prefix)
    with (String.length s) by lia.
  induction prefix as [|c prefix IH]; [apply substring_all|].
  rewrite append_String. simpl. apply IH.
Qed.

Lemma Split_no_separator (s : string) (sep : Ascii.ascii) :
  Contains s (String sep EmptyString) = false -> Split s sep = [s].
Proof.
  induction s as [|c s IH]; [done|].
  simpl. rewrite HasPrefix_empty, Ascii.eqb_sym.
  destruct (Ascii.eqb c sep); simpl; [done|].
  intros Hs. by rewrite IH.
Qed.



Lemma DeviceEncryptionStatus_scan devicePath w w' stdout first rest :
  HasPrefix devicePath mapperFilePathPrefix = true ->
  luksStatus (TrimPrefix devicePath (mapperFilePathPrefix ++ "/")) w = (w', inr stdout) ->
  Split stdout newline = first :: rest ->
  Contains first " is active" = true ->
  DeviceEncryptionStatus luksStatus TrimSpace devicePath w
  = (w', scanLines TrimSpace devicePath
           (TrimPrefix devicePath (mapperFilePathPrefix ++ "/")) rest).
Proof.
  intros Hprefix Hstatus Hsplit Hactive. unfold DeviceEncryptionStatus.
  by rewrite Hprefix, Hstatus, Hsplit, Hactive.
Qed.

(** X2: on a path under /dev/mapper whose status output is
    that of an active mapping, the first line with the key [device], of the
    form [device:value] once trimmed, makes DeviceEncryptionStatus return the
    trimmed value as the mapped device, the path without the prefix
    /dev/mapper/ as the mapper name, and no error. *)
Theorem DeviceEncryptionStatus_first_device_line devicePath w w' stdout line value :
  HasPrefix devicePath mapperFilePathPrefix = true ->
  luksStatus (TrimPrefix devicePath (mapperFilePathPrefix ++ "/")) w = (w', inr stdout) ->
  activeWithDevice TrimSpace stdout line ->
  TrimSpace line = "device:" ++ value ->
  DeviceEncryptionStatus luksStatus TrimSpace devicePath w
  = (w', Done (TrimSpace value,
               TrimPrefix devicePath (mapperFilePathPrefix ++ "/"), None)).
Proof.
  intros Hprefix Hstatus (first & before & after & Hsplit & Hactive & Hbefore) Hline.
  rewrite (DeviceEncryptionStatus_scan _ _ _ _ _ _ Hprefix Hstatus Hsplit Hactive).
  rewrite scanLines_skip_all by done.
  simpl. by rewrite Hline.
Qed.

(** X3: when the first line with the key [device] of an
    active status output is [device] alone once trimmed, without a colon,
    kv[1] of line 142 is out of range: DeviceEncryptionStatus panics, and so
    does IsDeviceOpen. *)
Theorem DeviceEncryptionStatus_device_line_without_colon devicePath w w' stdout line :
  HasPrefix devicePath mapperFilePathPrefix = true ->
  luksStatus (TrimPrefix devicePath (mapperFilePathPrefix ++ "/")) w = (w', inr stdout) ->
  activeWithDevice TrimSpace stdout line ->
  TrimSpace line = "device" ->
  DeviceEncryptionStatus luksStatus TrimSpace devicePath w = (w', Panic indexOutOfRange) /\
  IsDeviceOpen luksStatus TrimSpace devicePath w = (w', Panic indexOutOfRange).
Proof.
  intros Hprefix Hstatus (first & before & after & Hsplit & Hactive & Hbefore) Hline.
  assert (DeviceEncryptionStatus luksStatus TrimSpace devicePath w
          = (w', Panic indexOutOfRange)) as Hrun.
  { rewrite (DeviceEncryptionStatus_scan _ _ _ _ _ _ Hprefix Hstatus Hsplit Hactive).
    rewrite scanLines_skip_all by done.
    simpl. by rewrite Hline. }
  split; [done|]. unfold IsDeviceOpen. by rewrite Hrun.
Qed.

Lemma scanLines_mapper devicePath volume lines mapped mapper err :
  scanLines TrimSpace devicePath volume lines = Done (mapped, mapper, err) ->
  (mapper = EmptyString /\ err <> None) \/ (mapper = volume /\ err = None).
Proof.
  induction lines as [|line lines IH]; simpl.
  - intros [= <- <- <-]. by left.
  - destruct (SplitN2 (TrimSpace line) colon) as [|key rest] eqn:Hkv.
    { by destruct (SplitN2_nonempty _ _ Hkv). }
    destruct (String.eqb key "device"); [|done].
    destruct ((key :: rest) !! 1%nat); [|done].
    intros [= <- <- <-]. by right.
Qed.

(** X4: IsDeviceOpen reports [true] only without an error, only for
    a path that begins with /dev/mapper and has something left once the
    prefix /dev/mapper/ is trimmed, and only after luksStatus succeeded on
    what is left. *)
Theorem IsDeviceOpen_true devicePath w w' err :
  IsDeviceOpen luksStatus TrimSpace devicePath w = (w', Done (true, err)) ->
  err = None /\
  HasPrefix devicePath mapperFilePathPrefix = true /\
  TrimPrefix devicePath (mapperFilePathPrefix ++ "/") <> EmptyString /\
  exists stdout,
    luksStatus (TrimPrefix devicePath (mapperFilePathPrefix ++ "/")) w = (w', inr stdout).
Proof.
  unfold IsDeviceOpen, DeviceEncryptionStatus.
  destruct (HasPrefix devicePath mapperFilePathPrefix); simpl; [|done].
  destruct (luksStatus _ w) as [w1 [e|stdout]] eqn:Hstatus; [done|].
  destruct (Split stdout newline) as [|first rest] eqn:Hsplit; [done|].
  destruct (Contains first " is active"); simpl; [|done].
  destruct (scanLines _ _ _ rest) as [[[mapped mapper] err']|] eqn:Hscan; [|done].
  intros [= <- Hopen <-].
  apply scanLines_mapper in Hscan as [[-> _]|[-> ->]]; [done|].
  split_and!; try done.
  - intros Hempty. by rewrite Hempty in Hopen.
  - by exists stdout.
Qed.

Lemma append_empty (s : string) : EmptyString ++ s = s.
Proof. reflexivity. Qed.

Lemma Split_mapper_path (volume : string) :
  Split volume slash = [volume] ->
  Split (mapperFilePathPrefix ++ "/" ++ volume) slash
  = [EmptyString; "dev"; "mapper"; volume].
Proof.
  intros Hvolume. unfold mapperFilePathPrefix.
  rewrite !append_String, !append_empty. simpl. by rewrite Hvolume.
Qed.

(** the mapped device of a volume name of one element *)
Lemma VolumeMapper_plain volume :
  singleElement volume = true ->
  VolumeMapper volume = mapperFilePathPrefix ++ "/" ++ volume.
Proof.
  unfold singleElement. rewrite !andb_true_iff, !negb_true_iff.
  intros [[[Hempty Hdot] Hdots] Hslash].
  unfold VolumeMapper, Join, Clean.
  rewrite (Split_mapper_path volume) by by apply Split_no_separator.
  replace (HasPrefix (mapperFilePathPrefix ++ "/" ++ volume) "/") with true
    by reflexivity.
  replace (mapperFilePathPrefix ++ "/" ++ volume =? EmptyString) with false
    by reflexivity.
  simpl. unfold cleanElement at 1. rewrite Hempty, Hdot, Hdots.
  reflexivity.
Qed.

Lemma TrimPrefix_mapper volume :
  TrimPrefix (mapperFilePathPrefix ++ "/" ++ volume) (mapperFilePathPrefix ++ "/")
  = volume.
Proof.
  change (mapperFilePathPrefix ++ "/" ++ volume)
    with ((mapperFilePathPrefix ++ "/") ++ volume).
  apply TrimPrefix_app.
Qed.

(** X5: for a volume name of one path element, VolumeMapper puts
    the name under /dev/mapper/ as it is, and DeviceEncryptionStatus gets the
    name back from the mapped path: the path has the prefix, and trimming
    /dev/mapper/ returns the volume name. *)
Theorem VolumeMapper_single_element volume :
  singleElement volume = true ->
  VolumeMapper volume = mapperFilePathPrefix ++ "/" ++ volume /\
  HasPrefix (VolumeMapper volume) mapperFilePathPrefix = true /\
  TrimPrefix (VolumeMapper volume) (mapperFilePathPrefix ++ "/") = volume.
Proof.
  intros Hvolume. rewrite (VolumeMapper_plain volume Hvolume).
  split_and!; [done|apply HasPrefix_app|apply TrimPrefix_mapper].
Qed.

Lemma DeviceEncryptionStatus_not_active devicePath w w' result :
  HasPrefix devicePath mapperFilePathPrefix = true ->
  luksStatus (TrimPrefix devicePath (mapperFilePathPrefix ++ "/")) w = (w', result) ->
  statusActive result = false ->
  DeviceEncryptionStatus luksStatus TrimSpace devicePath w
  = (w', Done (devicePath, EmptyString, None)).
Proof.
  intros Hprefix Hstatus Hactive. unfold DeviceEncryptionStatus.
  rewrite Hprefix, Hstatus. simpl. destruct result as [e|stdout]; [done|].
  simpl in Hactive. destruct (Split stdout newline) as [|first rest] eqn:Hsplit.
  { by destruct (Split_nonempty _ _ Hsplit). }
  by rewrite Hactive.
Qed.

Lemma singleElement_nonempty volume :
  singleElement volume = true -> (volume =? EmptyString) = false.
Proof.
  unfold singleElement. rewrite !andb_true_iff, !negb_true_iff. tauto.
Qed.

Lemma IsDeviceOpen_mapper_closed volume w w' result :
  singleElement volume = true ->
  luksStatus volume w = (w', result) ->
  statusActive result = false ->
  IsDeviceOpen luksStatus TrimSpace (VolumeMapper volume) w = (w', Done (false, None)).
Proof.
  intros Hvolume Hstatus Hactive.
  rewrite (VolumeMapper_plain volume Hvolume). unfold IsDeviceOpen.
  rewrite (DeviceEncryptionStatus_not_active _ w w' result);
    [done|apply HasPrefix_app|by rewrite TrimPrefix_mapper|done].
Qed.

Lemma IsDeviceOpen_mapper_open volume w w' stdout line value :
  singleElement volume = true ->
  luksStatus volume w = (w', inr stdout) ->
  activeWithDevice TrimSpace stdout line ->
  TrimSpace line = "device:" ++ value ->
  IsDeviceOpen luksStatus TrimSpace (VolumeMapper volume) w = (w', Done (true, None)).
Proof.
  intros Hvolume Hstatus (first & before & after & Hsplit & Hactive & Hbefore) Hline.
  rewrite (VolumeMapper_plain volume Hvolume). unfold IsDeviceOpen.
  rewrite (DeviceEncryptionStatus_scan _ w w' stdout first
             (before ++ line :: after)%list);
    [|apply HasPrefix_app|by rewrite TrimPrefix_mapper|done..].
  rewrite scanLines_skip_all by done. simpl. rewrite Hline. simpl.
  by rewrite TrimPrefix_mapper, (singleElement_nonempty volume).
Qed.

Section Lifecycle.

Variable luksOpen : string -> string -> string -> World -> World * (crypto.error + string).
Variable luksResize : string -> string -> World -> World * (crypto.error + string).

(** X6: an error returned by OpenVolume is the error of a call
    of luksOpen for the volume, the device and the passphrase; the error of
    the status check before it never comes out. *)
Theorem OpenVolume_error_from_luksOpen volume devicePath passphrase w w'' err :
  OpenVolume luksStatus TrimSpace luksOpen volume devicePath passphrase w
  = (w'', Done (Some err)) ->
  exists w', luksOpen volume devicePath passphrase w' = (w'', inl err).
Proof.
  unfold OpenVolume.
  destruct (IsDeviceOpen _ _ _ w) as [w' [[[|] dropped]|reason]]; try done.
  destruct (luksOpen volume devicePath passphrase w') as [w1 [e|out]] eqn:Hopen;
    [|done].
  intros [= <- <-]. by exists w'.
Qed.

(** X7: when luksStatus fails for the volume, or its output does
    not say the mapping is active, OpenVolume goes on to luksOpen in the
    world left by the status check and returns what luksOpen returns. *)
Theorem OpenVolume_not_active volume devicePath passphrase w w' result :
  singleElement volume = true ->
  luksStatus volume w = (w', result) ->
  statusActive result = false ->
  OpenVolume luksStatus TrimSpace luksOpen volume devicePath passphrase w
  = ((luksOpen volume devicePath passphrase w').1,
     Done (errorOf (luksOpen volume devicePath passphrase w').2)).
Proof.
  intros Hvolume Hstatus Hactive. unfold OpenVolume.
  rewrite (IsDeviceOpen_mapper_closed volume w w' result) by done.
  by destruct (luksOpen volume devicePath passphrase w') as [w'' [e|out]].
Qed.

(** X8: when the status output of the volume is that of an active
    mapping with a device line, OpenVolume returns no error in the world left
    by the status check: luksOpen is not called. *)
Theorem OpenVolume_already_open volume devicePath passphrase w w' stdout line value :
  singleElement volume = true ->
  luksStatus volume w = (w', inr stdout) ->
  activeWithDevice TrimSpace stdout line ->
  TrimSpace line = "device:" ++ value ->
  OpenVolume luksStatus TrimSpace luksOpen volume devicePath passphrase w
  = (w', Done None).
Proof.
  intros Hvolume Hstatus Hactive Hline. unfold OpenVolume.
  by rewrite (IsDeviceOpen_mapper_open volume w w' stdout line value).
Qed.

(** X9: when luksStatus fails for the volume, or its output does
    not say the mapping is active, ResizeEncryptoDevice returns the error
    [volume ... encrypto device is closed for resizing] in the world left by
    the status check: luksResize is not called. *)
Theorem ResizeEncryptoDevice_closed volume passphrase w w' result :
  singleElement volume = true ->
  luksStatus volume w = (w', result) ->
  statusActive result = false ->
  ResizeEncryptoDevice luksStatus TrimSpace luksResize volume passphrase w
  = (w', Done (Some ("volume " ++ volume ++ " encrypto device is closed for resizing"))).
Proof.
  intros Hvolume Hstatus Hactive. unfold ResizeEncryptoDevice.
  by rewrite (IsDeviceOpen_mapper_closed volume w w' result).
Qed.

(** X10: when the status output of the volume is that of an
    active mapping with a device line, ResizeEncryptoDevice calls luksResize
    in the world left by the status check and returns what it returns. *)
Theorem ResizeEncryptoDevice_open volume passphrase w w' stdout line value :
  singleElement volume = true ->
  luksStatus volume w = (w', inr stdout) ->
  activeWithDevice TrimSpace stdout line ->
  TrimSpace line = "device:" ++ value ->
  ResizeEncryptoDevice luksStatus TrimSpace luksResize volume passphrase w
  = ((luksResize volume passphrase w').1,
     Done (errorOf (luksResize volume passphrase w').2)).
Proof.
  intros Hvolume Hstatus Hactive Hline. unfold ResizeEncryptoDevice.
  rewrite (IsDeviceOpen_mapper_open volume w w' stdout line value) by done.
  by destruct (luksResize volume passphrase w') as [w'' [e|out]].
Qed.

(** X11: when the status output says the mapping is active but
    has no device line, ResizeEncryptoDevice returns the error
    [mapped device not found in path] with the mapped path and does not call
    luksResize, while OpenVolume drops that error and goes on to luksOpen. *)
Theorem ResizeEncryptoDevice_no_device_line volume devicePath passphrase w w' stdout first rest :
  singleElement volume = true ->
  luksStatus volume w = (w', inr stdout) ->
  Split stdout newline = first :: rest ->
  Contains first " is active" = true ->
  (forall l, l ∈ rest -> otherLine TrimSpace l) ->
  ResizeEncryptoDevice luksStatus TrimSpace luksResize volume passphrase w
  = (w', Done (Some ("mapped device not found in path " ++ VolumeMapper volume))) /\
  OpenVolume luksStatus TrimSpace luksOpen volume devicePath passphrase w
  = ((luksOpen volume devicePath passphrase w').1,
     Done (errorOf (luksOpen volume devicePath passphrase w').2)).
Proof.
  intros Hvolume Hstatus Hsplit Hactive Hrest.
  assert (IsDeviceOpen luksStatus TrimSpace (VolumeMapper volume) w
          = (w', Done (false, Some ("mapped device not found in path "
                                    ++ VolumeMapper volume)))) as Hopen.
  { rewrite (VolumeMapper_plain volume Hvolume). unfold IsDeviceOpen.
    rewrite (DeviceEncryptionStatus_scan _ w w' stdout first rest);
      [|apply HasPrefix_app|by rewrite TrimPrefix_mapper|done..].
    rewrite <- (app_nil_r rest), scanLines_skip_all by done. done. }
  unfold ResizeEncryptoDevice, OpenVolume. rewrite Hopen. split; [done|].
  by destruct (luksOpen volume devicePath passphrase w') as [w'' [e|out]].
Qed.

(** X12: a volume name whose mapped path leaves /dev/mapper (as
    a name with [..] does) is taken as closed without a call of luksStatus:
    OpenVolume goes straight to luksOpen, and ResizeEncryptoDevice returns
    the error [closed for resizing] with the world as it was. *)
Theorem VolumeMapper_outside_mapper volume devicePath passphrase w :
  HasPrefix (VolumeMapper volume) mapperFilePathPrefix = false ->
  OpenVolume luksStatus TrimSpace luksOpen volume devicePath passphrase w
  = ((luksOpen volume devicePath passphrase w).1,
     Done (errorOf (luksOpen volume devicePath passphrase w).2)) /\
  ResizeEncryptoDevice luksStatus TrimSpace luksResize volume passphrase w
  = (w, Done (Some ("volume " ++ volume ++ " encrypto device is closed for resizing"))).
Proof.
  intros Hprefix.
  assert (IsDeviceOpen luksStatus TrimSpace (VolumeMapper volume) w
          = (w, Done (false, None))) as Hopen.
  { unfold IsDeviceOpen, DeviceEncryptionStatus. by rewrite Hprefix. }
  unfold ResizeEncryptoDevice, OpenVolume. rewrite Hopen. split; [|done].
  by destruct (luksOpen volume devicePath passphrase w) as [w'' [e|out]].
Qed.

End Lifecycle.

End CryptoMore.

(** ** More on upgradeBackups *)

Section BackupLoopFacts.
Variable LonghornLabelVolume : string.
Variable LonghornLabelBackupVolume : string.
Variable InstanceStateRunning : string.
Variable ConvertEngineBackupState : string -> string.
Variable namespace : string.
Variable lhClient : Clientset.

Local Abbreviation upgradeBackup' :=
  (upgradeBackup LonghornLabelBackupVolume InstanceStateRunning ConvertEngineBackupState).
Local Abbreviation upgradeBackups' :=
  (upgradeBackups LonghornLabelVolume LonghornLabelBackupVolume InstanceStateRunning
                  ConvertEngineBackupState namespace lhClient).
Local Abbreviation upgradedBackup' :=
  (upgradedBackup LonghornLabelBackupVolume InstanceStateRunning ConvertEngineBackupState).
Local Abbreviation selectEngine' := (selectEngine InstanceStateRunning).
Local Abbreviation candidates index volumeName := (default [] (index !! volumeName)).
Local Abbreviation indexOf engineOrder engineMap :=
  (volumeNameToEngines LonghornLabelVolume (range engineOrder engineMap)).
(** the cache once the three kinds are listed *)
Local Abbreviation listedCache backupMap engineMap volumeMap rm :=
  (set_volumes {| listed := true; objects := volumeMap |}
     (set_engines {| listed := true; objects := engineMap |}
        (set_backups {| listed := true; objects := backupMap |} rm))).

(** one turn of the loop, on a backup that is in the cache *)
Lemma upgradeBackup_upgraded index volumeMap k backup rm :
  objects (backups rm) !! k = Some backup ->
  upgradeBackup' index volumeMap k rm =
  match upgradedBackup' index volumeMap backup with
  | Done backup' =>
      (set_backups {| listed := listed (backups rm);
                      objects := <[k := backup']> (objects (backups rm)) |} rm,
       Done tt)
  | Panic reason => (rm, Panic reason)
  end.
Proof.
  intros Hk. rewrite upgradeBackup_eq, Hk. unfold upgradedBackup.
  assert (set_backups {| listed := listed (backups rm);
                         objects := <[k := backup]> (objects (backups rm)) |} rm = rm)
    as Hsame.
  { apply ResourceMaps_eq; try done. apply KindCache_eq; [done|].
    simpl. by apply insert_id. }
  destruct (Backup_Labels backup !! LonghornLabelBackupVolume) as [volumeName|];
    [|by rewrite Hsame].
  destruct (selectEngine' _ _ _) as [[engine|]|]; [|done|by rewrite Hsame].
  destruct (Engine_backupStatusOf engine (Backup_Name backup)); [done|].
  by rewrite Hsame.
Qed.

(** The loop over the backups, in full: it runs to its end exactly when no
    backup it visits makes a turn panic, and then every visited backup is
    what its turn makes of it; the engines and the volumes are only read. *)
Lemma forEach_upgradeBackup_spec index volumeMap l : forall rm,
  NoDup l ->
  (forall k, k ∈ l -> is_Some (objects (backups rm) !! k)) ->
  ((exists rm',
      forEach (upgradeBackup' index volumeMap) l rm = (rm', Done tt) /\
      engines rm' = engines rm /\ volumes rm' = volumes rm /\
      listed (backups rm') = listed (backups rm) /\
      (forall k backup,
         k ∈ l -> objects (backups rm) !! k = Some backup ->
         exists backup', upgradedBackup' index volumeMap backup = Done backup') /\
      forall j backup',
        objects (backups rm') !! j = Some backup' <->
        exists backup,
          objects (backups rm) !! j = Some backup /\
          if decide (j ∈ l) then upgradedBackup' index volumeMap backup = Done backup'
          else backup' = backup) \/
   ((forEach (upgradeBackup' index volumeMap) l rm).2 = Panic nilDereference /\
    exists k backup,
      k ∈ l /\ objects (backups rm) !! k = Some backup /\
      upgradedBackup' index volumeMap backup = Panic nilDereference)).
Proof.
  induction l as [|k l IH]; intros rm Hnd Hin.
  - left. exists rm. split_and!; try done.
    { intros k backup Hk. by apply elem_of_nil in Hk. }
    intros j backup'. split.
    + intros Hj. exists backup'. split; [done|].
      by rewrite decide_False by apply not_elem_of_nil.
    + intros (backup & Hb & Hd).
      rewrite decide_False in Hd by apply not_elem_of_nil. congruence.
  - apply NoDup_cons in Hnd as [Hk Hnd].
    destruct (Hin k) as [backup Hbackup]; [left|].
    rewrite forEach_cons, (upgradeBackup_upgraded _ _ k backup rm Hbackup).
    destruct (upgradedBackup' index volumeMap backup) as [backup1|reason] eqn:Hturn.
    + set (rm1 := set_backups _ rm).
      destruct (IH rm1 Hnd)
        as [(rm' & Hrun & He & Hv & Hl & Hall & Hobj)|(Hrun & j & b & Hj & Hb & Hp)].
      { intros j Hj. simpl. destruct (decide (k = j)) as [->|Hne].
        - rewrite lookup_insert_eq. by eexists.
        - rewrite lookup_insert_ne by done. apply Hin. by right. }
      * left. exists rm'. split_and!; try done.
        { intros j b Hj Hb. apply elem_of_cons in Hj as [->|Hj].
          - exists backup1. congruence.
          - apply (Hall j b Hj). simpl. rewrite lookup_insert_ne; [done|].
            by intros ->. }
        intros j backup'. rewrite Hobj. simpl. destruct (decide (k = j)) as [->|Hne].
        -- rewrite lookup_insert_eq. split.
           ++ intros (b & [= <-] & Hd). rewrite decide_False in Hd by done.
              exists backup. split; [done|].
              rewrite decide_True by left. congruence.
           ++ intros (b & Hb & Hd). rewrite decide_True in Hd by left.
              exists backup1. split; [done|].
              rewrite decide_False by done. congruence.
        -- rewrite lookup_insert_ne by done.
           split; intros (b & Hb & Hd); exists b; (split; [done|]).
           ++ destruct (decide (j ∈ l)) as [Hj|Hj].
              ** by rewrite decide_True by by right.
              ** rewrite decide_False; [done|].
                 intros Hc. apply elem_of_cons in Hc. destruct Hc; congruence.
           ++ destruct (decide (j ∈ l)) as [Hj|Hj].
              ** by rewrite decide_True in Hd by by right.
              ** rewrite decide_False in Hd; [done|].
                 intros Hc. apply elem_of_cons in Hc. destruct Hc; congruence.
      * right. split; [done|]. exists j, b. split_and!; [by right| |done].
        simpl in Hb. rewrite lookup_insert_ne in Hb; [done|]. by intros ->.
    + assert (reason = nilDereference) as ->.
      { unfold upgradedBackup in Hturn.
        destruct (Backup_Labels backup !! LonghornLabelBackupVolume); [|done].
        destruct (selectEngine' _ _ _) as [[engine|]|]; [|congruence|done].
        by destruct (Engine_backupStatusOf engine (Backup_Name backup)). }
      right. split; [done|]. exists k, backup. split_and!; [left|done..].
Qed.


(** a listing fails only when the kind is not cached and the store fails *)
Lemma ListAndUpdateBackups_failed rm cause :
  (ListAndUpdateBackupsInProvidedCache namespace lhClient rm).2 = Done (inl cause) ->
  listed (backups rm) = false /\ ListBackups lhClient namespace = inl cause.
Proof.
  unfold ListAndUpdateBackupsInProvidedCache.
  destruct (listed (backups rm)); [done|].
  destruct (ListBackups lhClient namespace); simpl; intros; by simplify_eq.
Qed.

Lemma ListAndUpdateEngines_failed rm cause :
  (ListAndUpdateEnginesInProvidedCache namespace lhClient rm).2 = Done (inl cause) ->
  listed (engines rm) = false /\ ListEngines lhClient namespace = inl cause.
Proof.
  unfold ListAndUpdateEnginesInProvidedCache.
  destruct (listed (engines rm)); [done|].
  destruct (ListEngines lhClient namespace); simpl; intros; by simplify_eq.
Qed.

Lemma ListAndUpdateVolumes_failed rm cause :
  (ListAndUpdateVolumesInProvidedCache namespace lhClient rm).2 = Done (inl cause) ->
  listed (volumes rm) = false /\ ListVolumes lhClient namespace = inl cause.
Proof.
  unfold ListAndUpdateVolumesInProvidedCache.
  destruct (listed (volumes rm)); [done|].
  destruct (ListVolumes lhClient namespace); simpl; intros; by simplify_eq.
Qed.

(** the three listings of upgradeBackups, and the run when one of them fails *)
Lemma upgradeBackups_listings rm :
  (exists cause,
     (ListAndUpdateBackupsInProvidedCache namespace lhClient rm).2 = Done (inl cause) /\
     forall engineOrder backupOrder,
     upgradeBackups' engineOrder backupOrder rm
     = (rm, Done (Some (Wrapf cause (upgradeLogPrefix ++ "upgrade backups failed"))))) \/
  (exists backupMap cause,
     (ListAndUpdateBackupsInProvidedCache namespace lhClient rm).2
       = Done (inr backupMap) /\
     (ListAndUpdateEnginesInProvidedCache namespace lhClient rm).2 = Done (inl cause) /\
     forall engineOrder backupOrder,
     upgradeBackups' engineOrder backupOrder rm
     = (set_backups {| listed := true; objects := backupMap |} rm,
        Done (Some (Wrapf cause (upgradeLogPrefix ++ "upgrade backups failed"))))) \/
  (exists backupMap engineMap cause,
     (ListAndUpdateBackupsInProvidedCache namespace lhClient rm).2
       = Done (inr backupMap) /\
     (ListAndUpdateEnginesInProvidedCache namespace lhClient rm).2
       = Done (inr engineMap) /\
     (ListAndUpdateVolumesInProvidedCache namespace lhClient rm).2 = Done (inl cause) /\
     forall engineOrder backupOrder,
     upgradeBackups' engineOrder backupOrder rm
     = (set_engines {| listed := true; objects := engineMap |}
          (set_backups {| listed := true; objects := backupMap |} rm),
        Done (Some (Wrapf cause (upgradeLogPrefix ++ "upgrade backups failed"))))) \/
  (exists backupMap engineMap volumeMap,
     (ListAndUpdateBackupsInProvidedCache namespace lhClient rm).2
       = Done (inr backupMap) /\
     (ListAndUpdateEnginesInProvidedCache namespace lhClient rm).2
       = Done (inr engineMap) /\
     (ListAndUpdateVolumesInProvidedCache namespace lhClient rm).2
       = Done (inr volumeMap)).
Proof.
  destruct (ListAndUpdateBackups_eq namespace lhClient rm) as [[cause|backupMap] Hrb].
  { left. exists cause. rewrite Hrb. split; [done|]. intros engineOrder backupOrder.
    unfold upgradeBackups, wrapping. by rewrite !run_bind_eq, Hrb. }
  right. set (rm1 := set_backups {| listed := true; objects := backupMap |} rm) in *.
  destruct (ListAndUpdateEngines_eq namespace lhClient rm1) as [[cause|engineMap] Hre].
  { left. exists backupMap, cause. rewrite Hrb.
    rewrite <- (ListAndUpdateEngines_frame namespace lhClient rm rm1), Hre by done.
    split_and!; try done. intros engineOrder backupOrder.
    unfold upgradeBackups, wrapping.
    by rewrite !run_bind_eq, Hrb, run_bind_eq, Hre. }
  right. set (rm2 := set_engines {| listed := true; objects := engineMap |} rm1) in *.
  destruct (ListAndUpdateVolumes_eq namespace lhClient rm2) as [[cause|volumeMap] Hrv].
  { left. exists backupMap, engineMap, cause. rewrite Hrb.
    rewrite <- (ListAndUpdateEngines_frame namespace lhClient rm rm1), Hre by done.
    rewrite <- (ListAndUpdateVolumes_frame namespace lhClient rm rm2), Hrv by done.
    split_and!; try done. intros engineOrder backupOrder.
    unfold upgradeBackups, wrapping.
    by rewrite !run_bind_eq, Hrb, run_bind_eq, Hre, run_bind_eq, Hrv. }
  right. exists backupMap, engineMap, volumeMap. rewrite Hrb.
  rewrite <- (ListAndUpdateEngines_frame namespace lhClient rm rm1), Hre by done.
  by rewrite <- (ListAndUpdateVolumes_frame namespace lhClient rm rm2), Hrv by done.
Qed.

(** X13: an error returned by upgradeBackups is the failure of
    the store to list one of the three kinds, not cached before, wrapped with
    the message of the step; the loop over the backups was not reached, and
    the cache holds just the kinds listed before the failure. *)
Theorem upgradeBackups_error_is_a_wrapped_listing_failure
    engineOrder backupOrder rm rm' err :
  upgradeBackups' engineOrder backupOrder rm = (rm', Done (Some err)) ->
  exists cause,
    err = Wrapf cause (upgradeLogPrefix ++ "upgrade backups failed") /\
    ((listed (backups rm) = false /\ ListBackups lhClient namespace = inl cause /\
      rm' = rm) \/
     (listed (engines rm) = false /\ ListEngines lhClient namespace = inl cause /\
      exists backupMap,
        (ListAndUpdateBackupsInProvidedCache namespace lhClient rm).2
          = Done (inr backupMap) /\
        rm' = set_backups {| listed := true; objects := backupMap |} rm) \/
     (listed (volumes rm) = false /\ ListVolumes lhClient namespace = inl cause /\
      exists backupMap engineMap,
        (ListAndUpdateBackupsInProvidedCache namespace lhClient rm).2
          = Done (inr backupMap) /\
        (ListAndUpdateEnginesInProvidedCache namespace lhClient rm).2
          = Done (inr engineMap) /\
        rm' = set_engines {| listed := true; objects := engineMap |}
                (set_backups {| listed := true; objects := backupMap |} rm))).
Proof.
  intros Hrun.
  destruct (upgradeBackups_listings rm)
    as [(cause & Hb & Hrun')
       |[(backupMap & cause & Hb & He & Hrun')
        |[(backupMap & engineMap & cause & Hb & He & Hv & Hrun')
         |(backupMap & engineMap & volumeMap & Hb & He & Hv)]]];
    try specialize (Hrun' engineOrder backupOrder).
  - rewrite Hrun in Hrun'. injection Hrun' as -> ->. exists cause. split; [done|].
    left. by destruct (ListAndUpdateBackups_failed rm cause Hb).
  - rewrite Hrun in Hrun'. injection Hrun' as -> ->. exists cause. split; [done|].
    right. left. destruct (ListAndUpdateEngines_failed rm cause He).
    split_and!; try done. by exists backupMap.
  - rewrite Hrun in Hrun'. injection Hrun' as -> ->. exists cause. split; [done|].
    right. right. destruct (ListAndUpdateVolumes_failed rm cause Hv).
    split_and!; try done. by exists backupMap, engineMap.
  - rewrite (upgradeBackups_run _ _ _ _ _ _ _ _ _ _ _ _ Hb He Hv) in Hrun.
    by destruct (forEach _ _ _) as [rm1 [[]|reason]].
Qed.


(** a backup that its turn leaves as it is stays so along the whole loop,
    however the loop ends *)
Lemma forEach_upgradeBackup_kept index volumeMap k backup l : forall rm,
  objects (backups rm) !! k = Some backup ->
  upgradedBackup' index volumeMap backup = Done backup ->
  objects (backups (forEach (upgradeBackup' index volumeMap) l rm).1) !! k = Some backup.
Proof.
  induction l as [|j l IH]; intros rm Hk Hturn; [done|].
  rewrite forEach_cons.
  assert (objects (backups (upgradeBackup' index volumeMap j rm).1) !! k = Some backup)
    as Hstep.
  { destruct (decide (j = k)) as [->|Hne].
    - rewrite (upgradeBackup_upgraded _ _ k backup rm Hk), Hturn. simpl.
      by rewrite lookup_insert_eq.
    - pose proof (upgradeBackup_frame LonghornLabelBackupVolume InstanceStateRunning
                    ConvertEngineBackupState index volumeMap j rm)
        as (_ & _ & _ & Hframe).
      simpl in Hframe. by rewrite Hframe. }
  destruct (upgradeBackup' index volumeMap j rm) as [rm1 [[]|reason]]; [|done].
  by apply IH.
Qed.

(** the loop keeps the engines, the volumes, and the name and the labels of
    every backup, however it ends *)
Lemma forEach_upgradeBackup_same index volumeMap l : forall rm rm',
  rm' = (forEach (upgradeBackup' index volumeMap) l rm).1 ->
  engines rm' = engines rm /\ volumes rm' = volumes rm /\
  listed (backups rm') = listed (backups rm) /\
  sameBackups (objects (backups rm)) (objects (backups rm')).
Proof.
  induction l as [|j l IH]; intros rm rm' ->.
  - simpl. split_and!; try done. intros k.
    destruct (objects (backups rm) !! k) as [b|] eqn:Hb; [|done]. by exists b.
  - rewrite forEach_cons.
    assert (let rm1 := (upgradeBackup' index volumeMap j rm).1 in
            engines rm1 = engines rm /\ volumes rm1 = volumes rm /\
            listed (backups rm1) = listed (backups rm) /\
            sameBackups (objects (backups rm)) (objects (backups rm1))) as Hstep.
    { simpl. rewrite upgradeBackup_eq.
      assert (sameBackups (objects (backups rm)) (objects (backups rm))) as Hrefl.
      { intros k. destruct (objects (backups rm) !! k) as [b|] eqn:Hb; [|done].
        by exists b. }
      destruct (objects (backups rm) !! j) as [backup|] eqn:Hj; [|done].
      destruct (Backup_Labels backup !! LonghornLabelBackupVolume) as [volumeName|];
        [|done].
      destruct (selectEngine' _ _ _) as [[engine|]|]; try done.
      destruct (Engine_backupStatusOf engine (Backup_Name backup)) as [status|];
        [|done].
      simpl. split_and!; try done. intros k.
      destruct (decide (j = k)) as [->|Hne].
      - rewrite Hj, lookup_insert_eq. by eexists.
      - rewrite lookup_insert_ne by done.
        destruct (objects (backups rm) !! k) as [b|] eqn:Hb; [|done]. by exists b. }
    destruct (upgradeBackup' index volumeMap j rm) as [rm1 [[]|reason]];
      simpl in Hstep; [|done].
    destruct Hstep as (He1 & Hv1 & Hl1 & Hs1).
    destruct (IH rm1 _ eq_refl) as (He & Hv & Hl & Hs).
    split_and!; try congruence. intros k. specialize (Hs1 k). specialize (Hs k).
    destruct (objects (backups rm) !! k) as [b|].
    + destruct Hs1 as (b1 & Hb1 & Hn1 & Hl1'). rewrite Hb1 in Hs.
      destruct Hs as (b' & Hb' & Hn & Hl'). exists b'. split_and!; congruence.
    + by rewrite Hs1 in Hs.
Qed.

(** X14: however upgradeBackups ends once the three kinds are
    listed (a return or a panic), the cached engines and volumes are exactly
    the listed ones, and the cached backups are the listed backups, each
    with its name and its labels: no backup is added or dropped. *)
Theorem upgradeBackups_only_reads_engines_and_volumes
    engineOrder backupOrder rm backupMap engineMap volumeMap :
  (ListAndUpdateBackupsInProvidedCache namespace lhClient rm).2 = Done (inr backupMap) ->
  (ListAndUpdateEnginesInProvidedCache namespace lhClient rm).2 = Done (inr engineMap) ->
  (ListAndUpdateVolumesInProvidedCache namespace lhClient rm).2 = Done (inr volumeMap) ->
  engines (upgradeBackups' engineOrder backupOrder rm).1
    = {| listed := true; objects := engineMap |} /\
  volumes (upgradeBackups' engineOrder backupOrder rm).1
    = {| listed := true; objects := volumeMap |} /\
  listed (backups (upgradeBackups' engineOrder backupOrder rm).1) = true /\
  sameBackups backupMap
    (objects (backups (upgradeBackups' engineOrder backupOrder rm).1)).
Proof.
  intros Hb He Hv.
  rewrite (upgradeBackups_run _ _ _ _ _ _ _ _ _ _ _ _ Hb He Hv).
  pose proof (forEach_upgradeBackup_same
                (indexOf engineOrder engineMap) volumeMap
                (range backupOrder backupMap).*1
                (listedCache backupMap engineMap volumeMap rm) _ eq_refl) as Hsame.
  simpl in Hsame. by destruct (forEach _ _ _) as [rm1 [[]|reason]].
Qed.

(** X15: a backup with a volume label is in the cache after
    upgradeBackups exactly as it was listed, however the step ends, when the
    volume has no engine, or has more than one engine and is not among the
    listed volumes. *)
Theorem upgradeBackups_backup_without_engine_untouched
    engineOrder backupOrder rm backupMap engineMap volumeMap k backup volumeName :
  (ListAndUpdateBackupsInProvidedCache namespace lhClient rm).2 = Done (inr backupMap) ->
  (ListAndUpdateEnginesInProvidedCache namespace lhClient rm).2 = Done (inr engineMap) ->
  (ListAndUpdateVolumesInProvidedCache namespace lhClient rm).2 = Done (inr volumeMap) ->
  backupMap !! k = Some backup ->
  Backup_Labels backup !! LonghornLabelBackupVolume = Some volumeName ->
  candidates (indexOf engineOrder engineMap) volumeName = [] \/
  ((1 < length (candidates (indexOf engineOrder engineMap) volumeName))%nat /\
   volumeMap !! volumeName = None) ->
  objects (backups (upgradeBackups' engineOrder backupOrder rm).1) !! k = Some backup.
Proof.
  intros Hb He Hv Hk Hlabel Hnone.
  rewrite (upgradeBackups_run _ _ _ _ _ _ _ _ _ _ _ _ Hb He Hv).
  pose proof (forEach_upgradeBackup_kept
                (indexOf engineOrder engineMap) volumeMap k backup
                (range backupOrder backupMap).*1
                (listedCache backupMap engineMap volumeMap rm) Hk) as Hkept.
  destruct (forEach _ _ _) as [rm1 [[]|reason]]; simpl in *; apply Hkept;
    unfold upgradedBackup, selectEngine; rewrite Hlabel;
    (destruct Hnone as [->|[Hlen ->]]; [done|]);
    by destruct (candidates _ volumeName) as [|e1 [|e2 l]]; simpl in Hlen; try lia.
Qed.

(** X16: the order in which the loop visits the backups does not
    matter: for two orders of visit, upgradeBackups gives the same result (a
    return with the same error or none, or a panic), and when it returns the
    cache is the same too. *)
Theorem upgradeBackups_backup_order_irrelevant
    engineOrder backupOrder1 backupOrder2 rm backupMap :
  (ListAndUpdateBackupsInProvidedCache namespace lhClient rm).2 = Done (inr backupMap) ->
  RangeOrder backupOrder1 backupMap ->
  RangeOrder backupOrder2 backupMap ->
  (upgradeBackups' engineOrder backupOrder1 rm).2
    = (upgradeBackups' engineOrder backupOrder2 rm).2 /\
  (forall r,
     (upgradeBackups' engineOrder backupOrder1 rm).2 = Done r ->
     upgradeBackups' engineOrder backupOrder1 rm
     = upgradeBackups' engineOrder backupOrder2 rm).
Proof.
  intros Hb Hro1 Hro2.
  destruct (upgradeBackups_listings rm)
    as [(cause & Hb' & Hrun)
       |[(backupMap' & cause & _ & _ & Hrun)
        |[(backupMap' & engineMap & cause & _ & _ & _ & Hrun)
         |(backupMap' & engineMap & volumeMap & Hb' & He & Hv)]]].
  - congruence.
  - by rewrite !Hrun.
  - by rewrite !Hrun.
  - assert (backupMap' = backupMap) as -> by congruence.
    rewrite !(upgradeBackups_run _ _ _ _ _ _ _ _ _ _ _ _ Hb He Hv).
    rewrite (RangeOrder_keys _ _ Hro1), (RangeOrder_keys _ _ Hro2).
    set (rm3 := listedCache backupMap engineMap volumeMap rm).
    set (index := indexOf engineOrder engineMap).
    assert (forall order, RangeOrder order backupMap ->
              forall k, k ∈ order -> is_Some (objects (backups rm3) !! k)) as Hpresent.
    { intros order Hro k Hk. simpl. by apply (RangeOrder_elem order backupMap k Hro). }
    assert (forall k, k ∈ backupOrder1 <-> k ∈ backupOrder2) as Hsame.
    { intros k. by rewrite (RangeOrder_elem _ _ k Hro1), (RangeOrder_elem _ _ k Hro2). }
    destruct (forEach_upgradeBackup_spec index volumeMap backupOrder1 rm3
                (proj1 Hro1) (Hpresent _ Hro1))
      as [(rm1 & Hrun1 & He1 & Hv1 & Hl1 & Hall1 & Hobj1)
         |(Hrun1 & k1 & b1 & Hk1 & Hb1 & Hp1)];
    destruct (forEach_upgradeBackup_spec index volumeMap backupOrder2 rm3
                (proj1 Hro2) (Hpresent _ Hro2))
      as [(rm2 & Hrun2 & He2 & Hv2 & Hl2 & Hall2 & Hobj2)
         |(Hrun2 & k2 & b2 & Hk2 & Hb2 & Hp2)].
    + rewrite Hrun1, Hrun2.
      assert (rm1 = rm2) as ->; [|done].
      apply ResourceMaps_eq; [|congruence..].
      apply KindCache_eq; [congruence|]. apply map_eq. intros j.
      apply option_eq. intros b'. rewrite Hobj1, Hobj2.
      destruct (decide (j ∈ backupOrder1)) as [Hj|Hj];
        destruct (decide (j ∈ backupOrder2)) as [Hj2|Hj2]; try done; exfalso.
      * by apply Hj2, Hsame.
      * by apply Hj, Hsame.
    + apply Hsame in Hk2. destruct (Hall1 k2 b2 Hk2 Hb2) as [b' Hb2']. congruence.
    + apply Hsame in Hk1. destruct (Hall2 k1 b1 Hk1 Hb1) as [b' Hb1']. congruence.
    + destruct (forEach _ backupOrder1 rm3) as [rm1 [[]|reason1]]; simpl in Hrun1;
        [done|].
      destruct (forEach _ backupOrder2 rm3) as [rm2 [[]|reason2]]; simpl in Hrun2;
        [done|].
      simpl. split; [congruence|done].
Qed.

End BackupLoopFacts.

(** ** More on the engine steps *)

Section EngineStepFacts.
Variable namespace : string.
Variable lhClient : Clientset.

Local Abbreviation Get := (GetVolumeFromProvidedCache namespace lhClient).
Local Abbreviation advances' := (advances namespace lhClient).
Local Abbreviation listEngines' :=
  (ListAndUpdateEnginesInProvidedCache namespace lhClient).
Local Abbreviation checkAndRemove :=
  (checkAndRemoveEngineBackupStatus namespace lhClient).
Local Abbreviation checkAndUpdate :=
  (checkAndUpdateEngineActiveState namespace lhClient).
Local Abbreviation groupsOf engineMap engineOrder :=
  (volumeEngineMap (range engineOrder engineMap)).
Local Abbreviation withEngines engineMap rm :=
  (set_engines {| listed := true; objects := engineMap |} rm).

Lemma Engine_clearBackupStatus_idemp e :
  Engine_clearBackupStatus (Engine_clearBackupStatus e) = Engine_clearBackupStatus e.
Proof. done. Qed.

(** X18: the order in which checkAndRemoveEngineBackupStatus
    visits the engines does not matter: two orders of visit give the same
    cache and the same result. *)
Theorem checkAndRemoveEngineBackupStatus_order_irrelevant
    engineOrder1 engineOrder2 rm engineMap :
  (listEngines' rm).2 = Done (inr engineMap) ->
  RangeOrder engineOrder1 engineMap ->
  RangeOrder engineOrder2 engineMap ->
  checkAndRemove engineOrder1 rm = checkAndRemove engineOrder2 rm.
Proof.
  intros Hlist Hro1 Hro2.
  by rewrite !(checkAndRemoveEngineBackupStatus_run namespace lhClient _ rm engineMap).
Qed.

(** X19: checkAndRemoveEngineBackupStatus is idempotent: after a
    run, a second run in any order of visit returns no error and leaves the
    cache as the first run left it. *)
Theorem checkAndRemoveEngineBackupStatus_idempotent
    engineOrder1 engineOrder2 rm rm' r engineMap :
  (listEngines' rm).2 = Done (inr engineMap) ->
  RangeOrder engineOrder1 engineMap ->
  checkAndRemove engineOrder1 rm = (rm', r) ->
  RangeOrder engineOrder2 (objects (engines rm')) ->
  checkAndRemove engineOrder2 rm' = (rm', Done None).
Proof.
  intros Hlist Hro1 Hrun Hro2.
  rewrite (checkAndRemoveEngineBackupStatus_run namespace lhClient _ rm engineMap)
    in Hrun by done.
  injection Hrun as <- <-.
  rewrite (checkAndRemoveEngineBackupStatus_run namespace lhClient _ _
             (Engine_clearBackupStatus <$> engineMap)); try done.
  f_equal. apply ResourceMaps_eq; try done. apply KindCache_eq; [done|].
  simpl. rewrite <- map_fmap_compose. apply map_fmap_ext. intros k e _.
  apply Engine_clearBackupStatus_idemp.
Qed.

(** X20: once the engines are listed,
    checkAndUpdateEngineActiveState returns (it never panics), in any order
    of visit and whatever the store answers; the backups of the cache are not
    touched; every listed engine is in the cache as it was, or was not active
    and is now active with its other fields as they were; no engine is added
    or dropped; and the volumes of the cache are those of before and volumes
    got from the store. *)
Theorem checkAndUpdateEngineActiveState_only_sets_active
    engineOrder volumeOrder rm engineMap :
  (listEngines' rm).2 = Done (inr engineMap) ->
  exists rm' r,
    checkAndUpdate engineOrder volumeOrder rm = (rm', Done r) /\
    backups rm' = backups rm /\
    listed (engines rm') = true /\
    (forall k,
       match engineMap !! k with
       | Some e =>
           objects (engines rm') !! k = Some e \/
           (Engine_Spec_Active e = false /\
            objects (engines rm') !! k = Some (Engine_setActive e))
       | None => objects (engines rm') !! k = None
       end) /\
    listed (volumes rm') = listed (volumes rm) /\
    (forall name,
       objects (volumes rm') !! name = objects (volumes rm) !! name \/
       (objects (volumes rm) !! name = None /\
        exists v, GetVolume lhClient namespace name = inr (Some v) /\
                  objects (volumes rm') !! name = Some v)).
Proof.
  intros Hlist.
  destruct (checkAndUpdate_activated namespace lhClient engineOrder volumeOrder rm
              engineMap Hlist) as (rm' & r & Hrun & Hb & Hl & Hact & Hlv & Hf).
  exists rm', r. split_and!; try done. intros k. simpl in Hact.
  destruct (Hact k) as [Heq|Heq]; rewrite Heq; destruct (engineMap !! k) as [e|];
    try done; [by left|].
  simpl. destruct (Engine_Spec_Active e) eqn:Ha; [left|by right].
  f_equal. destruct e. simpl in Ha. by subst.
Qed.

(** the engines of the groups have a volume name *)
Lemma group_member_named engineMap engineOrder volumeOrder vn l k e :
  (vn, l) ∈ range volumeOrder (groupsOf engineMap engineOrder) ->
  k ∈ l -> engineMap !! k = Some e ->
  Engine_Spec_VolumeName e = vn /\ vn <> EmptyString.
Proof.
  intros Hin Hk He. apply elem_of_groups in Hin as (_ & Hvn & _ & ->).
  apply elem_of_groupOf in Hk as (_ & e' & He' & Hname). split; [congruence|done].
Qed.

(** X21: an engine without a volume name belongs to no group:
    it is in the cache after checkAndUpdateEngineActiveState as it was
    listed, however the step ends. *)
Theorem checkAndUpdateEngineActiveState_orphan_engine_untouched
    engineOrder volumeOrder rm engineMap k e :
  (listEngines' rm).2 = Done (inr engineMap) ->
  engineMap !! k = Some e ->
  Engine_Spec_VolumeName e = EmptyString ->
  objects (engines (checkAndUpdateEngineActiveState namespace lhClient
                      engineOrder volumeOrder rm).1) !! k = Some e.
Proof.
  intros Hlist He Horphan. rewrite (checkAndUpdate_run _ _ _ _ _ _ Hlist).
  destruct (updateGroups_run namespace lhClient
              (range volumeOrder (groupsOf engineMap engineOrder))
              (withEngines engineMap rm)) as (rm' & r & Hrun & _ & Hframe).
  { by apply groups_valid. }
  rewrite Hrun. simpl. rewrite Hframe; [done|].
  intros vn l Hin Hk.
  destruct (group_member_named _ _ _ _ _ _ _ Hin Hk He) as [Hname Hvn]. congruence.
Qed.


(** X22: checkAndUpdateEngineActiveState changes at most one
    engine of each group: all engines of the group but one are in the cache
    after the run as they were listed, however the run ends. *)
Theorem checkAndUpdateEngineActiveState_one_change_per_group
    engineOrder volumeOrder rm engineMap volumeName engineList :
  (listEngines' rm).2 = Done (inr engineMap) ->
  RangeOrder volumeOrder (groupsOf engineMap engineOrder) ->
  groupsOf engineMap engineOrder !! volumeName = Some engineList ->
  exists k,
    forall j, j ∈ engineList -> j <> k ->
      objects (engines (checkAndUpdate engineOrder volumeOrder rm).1) !! j
      = engineMap !! j.
Proof.
  intros Hlist Hro Hgroup.
  destruct (checkAndUpdate_at namespace lhClient engineOrder volumeOrder rm engineMap
              volumeName engineList Hlist Hro Hgroup)
    as (rm' & r & rm1 & Hrun & Hadv & Hsame & Hcases).
  rewrite Hrun. simpl.
  destruct Hcases as [[-> _]|(rm2 & r2 & Hstep & _ & Hafter & _)].
  { exists EmptyString. intros j Hj _. by apply Hsame. }
  destruct (groupStep_inv _ _ _ _ _ _ _ Hstep)
    as [(k0 & e0 & _ & _ & _ & -> & _)
       |[(k0 & e0 & _ & _ & _ & -> & _)
        |[(err & _ & _ & _ & -> & _)
         |[(w & _ & _ & Hg & _)
          |(w & rm3 & before & k0 & after & e0 & _ & _ & Hg & _ & _ & _ & _ & -> & _)]]]].
  - exists EmptyString. intros j Hj _. rewrite Hafter by done. by apply Hsame.
  - exists k0. intros j Hj Hne. rewrite Hafter by done. simpl.
    rewrite lookup_insert_ne by done. by apply Hsame.
  - exists EmptyString. intros j Hj _. rewrite Hafter by done. by apply Hsame.
  - exists EmptyString. intros j Hj _. rewrite Hafter by done.
    apply Get_inr in Hg as (_ & He & _). rewrite He. by apply Hsame.
  - exists k0. intros j Hj Hne. rewrite Hafter by done. simpl.
    rewrite lookup_insert_ne by done.
    apply Get_inr in Hg as (_ & He & _). rewrite He. by apply Hsame.
Qed.

(** an engine that was listed active is active in every later cache *)
Lemma active_stays engineMap rm rm' k e e' :
  advances' (withEngines engineMap rm) rm' ->
  engineMap !! k = Some e -> Engine_Spec_Active e = true ->
  objects (engines rm') !! k = Some e' -> Engine_Spec_Active e' = true.
Proof.
  intros (_ & _ & Hact & _) He Ha He'. simpl in Hact.
  destruct (Hact k) as [Heq|Heq]; rewrite He, He' in Heq; by simplify_eq/=.
Qed.

(** X23: an error returned by checkAndUpdateEngineActiveState is
    the failure of the store to list the engines, with the cache as it was,
    or it comes from a group of more than one engine, none active, whose
    volume is not cached: it is the error of the store for the get of that
    volume, or NotFound when the store has no such volume. *)
Theorem checkAndUpdateEngineActiveState_error_is_a_failed_get
    engineOrder volumeOrder rm rm' err :
  checkAndUpdate engineOrder volumeOrder rm = (rm', Done (Some err)) ->
  (listed (engines rm) = false /\ ListEngines lhClient namespace = inl err /\
   rm' = rm) \/
  exists engineMap volumeName engineList,
    (listEngines' rm).2 = Done (inr engineMap) /\
    groupsOf engineMap engineOrder !! volumeName = Some engineList /\
    volumeName ∈ volumeOrder /\
    (1 < length engineList)%nat /\
    (forall k e, k ∈ engineList -> engineMap !! k = Some e ->
                 Engine_Spec_Active e = false) /\
    objects (volumes rm') !! volumeName = None /\
    (GetVolume lhClient namespace volumeName = inl err \/
     (GetVolume lhClient namespace volumeName = inr None /\
      err = NotFound "volume" volumeName)).
Proof.
  intros Hrun.
  destruct (ListAndUpdateEngines_eq namespace lhClient rm) as [[cause|engineMap] Hr].
  { left. unfold checkAndUpdateEngineActiveState in Hrun.
    rewrite run_bind_eq, Hr in Hrun. injection Hrun as <- <-.
    unfold ListAndUpdateEnginesInProvidedCache in Hr.
    destruct (listed (engines rm)); [done|].
    destruct (ListEngines lhClient namespace); by simplify_eq. }
  right. assert ((listEngines' rm).2 = Done (inr engineMap)) as Hlist by by rewrite Hr.
  rewrite (checkAndUpdate_run _ _ _ _ _ _ Hlist) in Hrun.
  pose proof (groups_valid engineMap engineOrder volumeOrder
                (withEngines engineMap rm) eq_refl) as Hvalid.
  destruct (updateGroups_failed namespace lhClient _ _ _ _ Hvalid Hrun)
    as (groups1 & vn & l & groups2 & Hsplit & Hrun1 & Hfail).
  assert ((vn, l) ∈ range volumeOrder (groupsOf engineMap engineOrder)) as Hin.
  { rewrite Hsplit. apply elem_of_app. right. left. }
  assert (advances' (withEngines engineMap rm) rm') as Hadv.
  { destruct (updateGroups_run namespace lhClient groups1 (withEngines engineMap rm))
      as (rm1 & r1 & Hrun1' & Hadv & _).
    { intros vn' l' Hin'. eapply Hvalid. rewrite Hsplit. apply elem_of_app. by left. }
    rewrite Hrun1 in Hrun1'. by injection Hrun1' as <- <-. }
  destruct (updateGroup_step namespace lhClient vn l rm') as (rm2 & r2 & Hrun2 & Hstep).
  { eapply pointersValid_advances; [done|]. by eapply Hvalid. }
  rewrite Hfail in Hrun2. injection Hrun2 as <- <-.
  destruct (groupStep_inv _ _ _ _ _ _ _ Hstep)
    as [(? & ? & _ & _ & _ & _ & ?)|[(? & ? & _ & _ & _ & _ & ?)
       |[(err' & Hnone & Hsev & Hget & _ & [= <-])|[(? & _ & _ & _ & _ & ?)
       |(? & ? & ? & ? & ? & ? & _ & _ & _ & _ & _ & _ & _ & _ & ?)]]]]; try done.
  apply elem_of_range in Hin as [Hvo Hgroup].
  exists engineMap, vn, l. split_and!; try done.
  - pose proof (volumeEngineMap_group _ _ _ _ Hgroup) as (_ & Hne & _).
    destruct l as [|k1 [|k2 l]]; [done|by destruct (Hsev k1)|simpl; lia].
  - intros k e Hk He. destruct (Engine_Spec_Active e) eqn:Ha; [|done].
    assert (is_Some (objects (engines rm') !! k)) as [e' He'].
    { eapply pointersValid_advances; [done| |done]. eapply Hvalid.
      apply elem_of_range. by split. }
    rewrite <- (Hnone k e' Hk He'). symmetry.
    by apply (active_stays engineMap rm rm' k e e').
  - unfold GetVolumeFromProvidedCache in Hget.
    by destruct (objects (volumes rm') !! vn).
  - unfold GetVolumeFromProvidedCache in Hget.
    destruct (objects (volumes rm') !! vn); [done|].
    destruct (GetVolume lhClient namespace vn) as [e|[v|]]; simplify_eq; [by left|].
    by right.
Qed.

End EngineStepFacts.

(** ** upgradeEngines and UpgradeResources *)

Section WholeUpgradeFacts.
Variable LonghornLabelVolume : string.
Variable LonghornLabelBackupVolume : string.
Variable InstanceStateRunning : string.
Variable ConvertEngineBackupState : string -> string.
Variable namespace : string.
Variable lhClient : Clientset.

Local Abbreviation upgradeBackup' :=
  (upgradeBackup LonghornLabelBackupVolume InstanceStateRunning ConvertEngineBackupState).
Local Abbreviation upgradeBackups' :=
  (upgradeBackups LonghornLabelVolume LonghornLabelBackupVolume InstanceStateRunning
                  ConvertEngineBackupState namespace lhClient).
Local Abbreviation upgradedBackup' :=
  (upgradedBackup LonghornLabelBackupVolume InstanceStateRunning ConvertEngineBackupState).
Local Abbreviation upgradeEngines' := (upgradeEngines namespace lhClient).
Local Abbreviation UpgradeResources' :=
  (UpgradeResources LonghornLabelVolume LonghornLabelBackupVolume InstanceStateRunning
                    ConvertEngineBackupState namespace lhClient).
Local Abbreviation selectEngine' := (selectEngine InstanceStateRunning).
Local Abbreviation candidates index volumeName := (default [] (index !! volumeName)).
Local Abbreviation indexOf engineOrder engineMap :=
  (volumeNameToEngines LonghornLabelVolume (range engineOrder engineMap)).
Local Abbreviation listedCache backupMap engineMap volumeMap rm :=
  (set_volumes {| listed := true; objects := volumeMap |}
     (set_engines {| listed := true; objects := engineMap |}
        (set_backups {| listed := true; objects := backupMap |} rm))).
Local Abbreviation listBackups' :=
  (ListAndUpdateBackupsInProvidedCache namespace lhClient).
Local Abbreviation listEngines' :=
  (ListAndUpdateEnginesInProvidedCache namespace lhClient).
Local Abbreviation listVolumes' :=
  (ListAndUpdateVolumesInProvidedCache namespace lhClient).
Local Abbreviation checkAndRemove :=
  (checkAndRemoveEngineBackupStatus namespace lhClient).
Local Abbreviation checkAndUpdate :=
  (checkAndUpdateEngineActiveState namespace lhClient).
Local Abbreviation advances' := (advances namespace lhClient).
Local Abbreviation withEngines engineMap rm :=
  (set_engines {| listed := true; objects := engineMap |} rm).

(** the deferred wrapping turns an error into a wrapped error and nothing else *)
Lemma wrapping_eq message (body : run (option error)) rm :
  wrapping message body rm =
  match body rm with
  | (rm', Done err) => (rm', Done (errors_Wrapf err (upgradeLogPrefix ++ message)))
  | (rm', Panic reason) => (rm', Panic reason)
  end.
Proof. unfold wrapping. rewrite run_bind_eq. by destruct (body rm) as [rm' [err|r]]. Qed.

(** what upgradeEngines does once the engines are listed *)
Lemma upgradeEngines_run removeOrder engineOrder volumeOrder rm engineMap :
  (listEngines' rm).2 = Done (inr engineMap) ->
  RangeOrder removeOrder engineMap ->
  exists rm' r,
    checkAndUpdate engineOrder volumeOrder
      (withEngines (Engine_clearBackupStatus <$> engineMap) rm) = (rm', Done r) /\
    advances' (withEngines (Engine_clearBackupStatus <$> engineMap) rm) rm' /\
    upgradeEngines' removeOrder engineOrder volumeOrder rm
    = (rm', Done (errors_Wrapf r (upgradeLogPrefix ++ "upgrade engines failed"))).
Proof.
  intros Hlist Hro.
  set (rm1 := withEngines (Engine_clearBackupStatus <$> engineMap) rm).
  destruct (checkAndUpdate_activated namespace lhClient engineOrder volumeOrder rm1
              (Engine_clearBackupStatus <$> engineMap) eq_refl)
    as (rm' & r & Hrun & Hadv).
  exists rm', r. split; [done|]. split.
  { replace (withEngines (Engine_clearBackupStatus <$> engineMap) rm1) with rm1 in Hadv;
      [done|]. by apply ResourceMaps_eq. }
  unfold upgradeEngines. rewrite wrapping_eq, run_bind_eq.
  rewrite (checkAndRemoveEngineBackupStatus_run namespace lhClient _ rm engineMap)
    by done.
  fold rm1. by rewrite Hrun.
Qed.

(** X24: once the engines are listed, upgradeEngines returns (it
    never panics); an error it returns is wrapped with the message of the
    step; the backups of the cache are not touched; and every listed engine
    is in the cache with a nil backupStatus, set active or not, and its other
    fields as listed, also when the step returns an error. *)
Theorem upgradeEngines_clears_then_activates
    removeOrder engineOrder volumeOrder rm engineMap :
  (listEngines' rm).2 = Done (inr engineMap) ->
  RangeOrder removeOrder engineMap ->
  exists rm' r,
    upgradeEngines' removeOrder engineOrder volumeOrder rm = (rm', Done r) /\
    (r = None \/
     exists cause, r = Some (Wrapf cause (upgradeLogPrefix ++ "upgrade engines failed"))) /\
    backups rm' = backups rm /\
    forall k,
      match engineMap !! k with
      | Some e =>
          objects (engines rm') !! k = Some (Engine_clearBackupStatus e) \/
          objects (engines rm') !! k
            = Some (Engine_setActive (Engine_clearBackupStatus e))
      | None => objects (engines rm') !! k = None
      end.
Proof.
  intros Hlist Hro.
  destruct (upgradeEngines_run removeOrder engineOrder volumeOrder rm engineMap Hlist Hro)
    as (rm' & r & _ & (Hb & _ & Hact & _) & Hrun).
  eexists rm', _. split; [exact Hrun|]. split_and!.
  - destruct r as [cause|]; [right; by exists cause|by left].
  - done.
  - intros k. simpl in Hact. destruct (Hact k) as [Heq|Heq]; rewrite Heq, lookup_fmap;
      destruct (engineMap !! k) as [e|]; simpl; by eauto.
Qed.


Lemma UpgradeResources_eq indexOrder backupOrder removeOrder engineOrder volumeOrder rm :
  UpgradeResources' indexOrder backupOrder removeOrder engineOrder volumeOrder rm =
  match upgradeBackups' indexOrder backupOrder rm with
  | (rm1, Done None) => upgradeEngines' removeOrder engineOrder volumeOrder rm1
  | (rm1, Done (Some err)) => (rm1, Done (Some err))
  | (rm1, Panic reason) => (rm1, Panic reason)
  end.
Proof.
  unfold UpgradeResources. rewrite run_bind_eq.
  by destruct (upgradeBackups' indexOrder backupOrder rm) as [rm1 [[err|]|reason]].
Qed.

(** X25: after UpgradeResources has returned without error,
    every listed backup is what its turn in upgradeBackups makes of it with
    the engines as they were listed, so the status entries are copied before
    they are removed; and every listed engine has a nil backupStatus, set
    active or not, its other fields as listed. *)
Theorem UpgradeResources_copies_then_clears
    indexOrder backupOrder removeOrder engineOrder volumeOrder rm rm'
    backupMap engineMap volumeMap :
  (listBackups' rm).2 = Done (inr backupMap) ->
  (listEngines' rm).2 = Done (inr engineMap) ->
  (listVolumes' rm).2 = Done (inr volumeMap) ->
  RangeOrder backupOrder backupMap ->
  RangeOrder removeOrder engineMap ->
  UpgradeResources' indexOrder backupOrder removeOrder engineOrder volumeOrder rm
    = (rm', Done None) ->
  (forall k,
     match backupMap !! k with
     | Some backup =>
         exists backup',
           upgradedBackup' (indexOf indexOrder engineMap) volumeMap backup
             = Done backup' /\
           objects (backups rm') !! k = Some backup'
     | None => objects (backups rm') !! k = None
     end) /\
  (forall k,
     match engineMap !! k with
     | Some e =>
         objects (engines rm') !! k = Some (Engine_clearBackupStatus e) \/
         objects (engines rm') !! k
           = Some (Engine_setActive (Engine_clearBackupStatus e))
     | None => objects (engines rm') !! k = None
     end).
Proof.
  intros Hb He Hv Hrob Hror Hrun. rewrite UpgradeResources_eq in Hrun.
  rewrite (upgradeBackups_run _ _ _ _ _ _ _ _ _ _ _ _ Hb He Hv) in Hrun.
  rewrite (RangeOrder_keys _ _ Hrob) in Hrun.
  set (rm0 := listedCache backupMap engineMap volumeMap rm) in *.
  destruct (forEach_upgradeBackup_spec LonghornLabelBackupVolume InstanceStateRunning
              ConvertEngineBackupState (indexOf indexOrder engineMap) volumeMap
              backupOrder rm0 (proj1 Hrob))
    as [(rm1 & Hloop & He1 & Hv1 & Hl1 & Hall & Hobj)|(Hloop & _)].
  { intros k Hk. simpl. by apply (RangeOrder_elem backupOrder backupMap k Hrob). }
  2:{ destruct (forEach _ _ rm0) as [rm1 [[]|reason]]; by simplify_eq/=. }
  rewrite Hloop in Hrun.
  destruct (upgradeEngines_run removeOrder engineOrder volumeOrder rm1 engineMap)
    as (rm2 & r & _ & (Hb2 & _ & Hact & _) & Hrun2); [|done|].
  { unfold ListAndUpdateEnginesInProvidedCache. by rewrite He1. }
  rewrite Hrun2 in Hrun. injection Hrun as <- Hr. split.
  - intros k. rewrite Hb2. simpl.
    destruct (backupMap !! k) as [backup|] eqn:Hk.
    + destruct (Hall k backup) as [backup' Hturn]; [|done|].
      { apply (RangeOrder_elem backupOrder backupMap k Hrob). by eexists. }
      exists backup'. split; [done|]. apply Hobj. exists backup. split; [done|].
      rewrite decide_True; [done|].
      apply (RangeOrder_elem backupOrder backupMap k Hrob). by eexists.
    + destruct (objects (backups rm1) !! k) as [backup'|] eqn:Hk'; [|done].
      apply Hobj in Hk' as (backup & Hk' & _). simpl in Hk'. congruence.
  - intros k. simpl in Hact. destruct (Hact k) as [Heq|Heq]; rewrite Heq, lookup_fmap;
      destruct (engineMap !! k) as [e|]; simpl; by eauto.
Qed.

(** X26: when a backup has a volume with more than one engine,
    the volume is listed, and no engine runs on the current node of the
    volume, the panic of upgradeBackups ends UpgradeResources: the engines
    are not processed and keep their backupStatus in the cache. *)
Theorem UpgradeResources_panics_with_upgradeBackups
    indexOrder backupOrder removeOrder engineOrder volumeOrder rm
    backupMap engineMap volumeMap k backup volumeName v :
  (listBackups' rm).2 = Done (inr backupMap) ->
  (listEngines' rm).2 = Done (inr engineMap) ->
  (listVolumes' rm).2 = Done (inr volumeMap) ->
  RangeOrder backupOrder backupMap ->
  backupMap !! k = Some backup ->
  Backup_Labels backup !! LonghornLabelBackupVolume = Some volumeName ->
  (1 < length (candidates (indexOf indexOrder engineMap) volumeName))%nat ->
  volumeMap !! volumeName = Some v ->
  (forall e, e ∈ candidates (indexOf indexOrder engineMap) volumeName ->
             runningOnCurrentNode InstanceStateRunning v e = false) ->
  (UpgradeResources' indexOrder backupOrder removeOrder engineOrder volumeOrder rm).2
    = Panic nilDereference /\
  engines (UpgradeResources' indexOrder backupOrder removeOrder engineOrder
             volumeOrder rm).1
    = {| listed := true; objects := engineMap |}.
Proof.
  intros Hb He Hv Hro Hk Hlabel Hlen Hvol Hnone. rewrite UpgradeResources_eq.
  rewrite (upgradeBackups_run _ _ _ _ _ _ _ _ _ _ _ _ Hb He Hv).
  rewrite (RangeOrder_keys _ _ Hro).
  set (rm0 := listedCache backupMap engineMap volumeMap rm).
  assert (k ∈ backupOrder) as Hin.
  { apply (RangeOrder_elem backupOrder backupMap k Hro). by eexists. }
  assert (selectEngine' volumeMap volumeName
            (candidates (indexOf indexOrder engineMap) volumeName) = Some None) as Hsel.
  { unfold selectEngine. rewrite Hvol, (find_all_false _ _ Hnone).
    destruct (candidates _ volumeName) as [|e1 [|e2 l]]; simpl in Hlen;
      [lia|lia|done]. }
  pose proof (forEach_upgradeBackup_nil LonghornLabelBackupVolume InstanceStateRunning
                ConvertEngineBackupState (indexOf indexOrder engineMap)
                volumeMap k backup volumeName backupOrder rm0 Hin Hk Hlabel Hsel)
    as Hloop.
  pose proof (forEach_upgradeBackup_same LonghornLabelBackupVolume InstanceStateRunning
                ConvertEngineBackupState (indexOf indexOrder engineMap) volumeMap
                backupOrder rm0 _ eq_refl) as (Hsame & _).
  destruct (forEach _ _ rm0) as [rm1 [[]|reason]]; simpl in *; [done|].
  split; [congruence|done].
Qed.

(** X27: an error returned by UpgradeResources is wrapped once,
    with the message of the step that failed: it is the error of
    upgradeBackups, or upgradeBackups returned no error and it is the error
    of upgradeEngines. *)
Theorem UpgradeResources_error_names_the_step
    indexOrder backupOrder removeOrder engineOrder volumeOrder rm rm' err :
  UpgradeResources' indexOrder backupOrder removeOrder engineOrder volumeOrder rm
    = (rm', Done (Some err)) ->
  exists cause,
    (err = Wrapf cause (upgradeLogPrefix ++ "upgrade backups failed") /\
     upgradeBackups' indexOrder backupOrder rm = (rm', Done (Some err))) \/
    (err = Wrapf cause (upgradeLogPrefix ++ "upgrade engines failed") /\
     exists rm1,
       upgradeBackups' indexOrder backupOrder rm = (rm1, Done None) /\
       upgradeEngines' removeOrder engineOrder volumeOrder rm1
         = (rm', Done (Some err))).
Proof.
  rewrite UpgradeResources_eq.
  destruct (upgradeBackups' indexOrder backupOrder rm) as [rm1 [[err1|]|reason]] eqn:Hb;
    [| |done].
  - intros [= <- <-]. pose proof Hb as Hb'. unfold upgradeBackups in Hb'.
    rewrite wrapping_eq in Hb'.
    destruct (_ ≫= _) as [rm2 [[cause|]|reason]] in Hb'; simplify_eq/=.
    exists cause. by left.
  - intros He. pose proof He as He'. unfold upgradeEngines in He'.
    rewrite wrapping_eq in He'.
    destruct (_ ≫= _) as [rm2 [[cause|]|reason]] in He'; simplify_eq/=.
    exists cause. right. split; [done|]. by exists rm1.
Qed.

End WholeUpgradeFacts.

(** ** Running the whole upgrade again *)

Section RerunFacts.
Variable LonghornLabelVolume : string.
Variable LonghornLabelBackupVolume : string.
Variable InstanceStateRunning : string.
Variable ConvertEngineBackupState : string -> string.
Variable namespace : string.
Variable lhClient : Clientset.

Local Abbreviation upgradeBackup' :=
  (upgradeBackup LonghornLabelBackupVolume InstanceStateRunning ConvertEngineBackupState).
Local Abbreviation upgradeBackups' :=
  (upgradeBackups LonghornLabelVolume LonghornLabelBackupVolume InstanceStateRunning
                  ConvertEngineBackupState namespace lhClient).
Local Abbreviation upgradedBackup' :=
  (upgradedBackup LonghornLabelBackupVolume InstanceStateRunning ConvertEngineBackupState).
Local Abbreviation upgradeEngines' := (upgradeEngines namespace lhClient).
Local Abbreviation UpgradeResources' :=
  (UpgradeResources LonghornLabelVolume LonghornLabelBackupVolume InstanceStateRunning
                    ConvertEngineBackupState namespace lhClient).
Local Abbreviation selectEngine' := (selectEngine InstanceStateRunning).
Local Abbreviation running := (runningOnCurrentNode InstanceStateRunning).
Local Abbreviation labelOf := (engineVolumeLabel LonghornLabelVolume).
Local Abbreviation candidates index volumeName := (default [] (index !! volumeName)).
Local Abbreviation indexOf engineOrder engineMap :=
  (volumeNameToEngines LonghornLabelVolume (range engineOrder engineMap)).
Local Abbreviation listedCache backupMap engineMap volumeMap rm :=
  (set_volumes {| listed := true; objects := volumeMap |}
     (set_engines {| listed := true; objects := engineMap |}
        (set_backups {| listed := true; objects := backupMap |} rm))).
Local Abbreviation listBackups' :=
  (ListAndUpdateBackupsInProvidedCache namespace lhClient).
Local Abbreviation listEngines' :=
  (ListAndUpdateEnginesInProvidedCache namespace lhClient).
Local Abbreviation listVolumes' :=
  (ListAndUpdateVolumesInProvidedCache namespace lhClient).
Local Abbreviation checkAndRemove :=
  (checkAndRemoveEngineBackupStatus namespace lhClient).
Local Abbreviation checkAndUpdate :=
  (checkAndUpdateEngineActiveState namespace lhClient).
Local Abbreviation advances' := (advances namespace lhClient).
Local Abbreviation groupsOf engineMap engineOrder :=
  (volumeEngineMap (range engineOrder engineMap)).
Local Abbreviation withEngines engineMap rm :=
  (set_engines {| listed := true; objects := engineMap |} rm).

(** the index built by the first loop of upgradeBackups: under a volume
    name, the engines that carry it as their label, in the order of the visit *)
Lemma volumeNameToEngines_lookup (engineMap : list (string * Engine)) volumeName :
  candidates (volumeNameToEngines LonghornLabelVolume engineMap) volumeName
  = filter (fun e => labelOf e = volumeName) engineMap.*2.
Proof.
  induction engineMap as [|[k e] engineMap IH] using rev_ind; [done|].
  unfold volumeNameToEngines in *. rewrite foldl_app, fmap_app, filter_app. simpl.
  destruct (decide (labelOf e = volumeName)) as [<-|Hne].
  - rewrite lookup_insert_eq. simpl. rewrite IH. f_equal.
    by rewrite filter_cons_True.
  - rewrite lookup_insert_ne by done. rewrite IH, filter_cons_False by done.
    by rewrite app_nil_r.
Qed.

Lemma find_first {A : Type} (f : A -> bool) (l1 l2 : list A) (y : A) :
  (forall x, x ∈ l1 -> f x = false) -> f y = true ->
  List.find f (l1 ++ y :: l2)%list = Some y.
Proof.
  induction l1 as [|x l1 IH]; intros Hfalse Hy; simpl.
  - by rewrite Hy.
  - rewrite (Hfalse x) by left. apply IH; [|done]. intros z Hz. apply Hfalse. by right.
Qed.

(** X17: among more than one engine of a volume, the engine
    upgradeBackups selects is the first one, in the order of the visit of the
    engines, that is on the current node of the volume with desired and
    current state running; engines are indexed by their volume label. *)
Theorem upgradeBackups_selects_first_running_candidate
    before k after engineMap volumeMap volumeName v e :
  engineMap !! k = Some e ->
  engineVolumeLabel LonghornLabelVolume e = volumeName ->
  (1 < length (candidates (indexOf (before ++ k :: after)%list engineMap)
                 volumeName))%nat ->
  volumeMap !! volumeName = Some v ->
  runningOnCurrentNode InstanceStateRunning v e = true ->
  (forall j ej, j ∈ before -> engineMap !! j = Some ej ->
                engineVolumeLabel LonghornLabelVolume ej = volumeName ->
                runningOnCurrentNode InstanceStateRunning v ej = false) ->
  selectEngine InstanceStateRunning volumeMap volumeName
    (candidates (volumeNameToEngines LonghornLabelVolume
                   (range (before ++ k :: after)%list engineMap)) volumeName)
  = Some (Some e).
Proof.
  intros He Hlabel Hlen Hv Hrun Hbefore.
  assert (candidates (indexOf (before ++ k :: after)%list engineMap) volumeName
          = (filter (fun e => labelOf e = volumeName) (range before engineMap).*2
             ++ e :: filter (fun e => labelOf e = volumeName)
                       (range after engineMap).*2)%list) as Hc.
  { rewrite volumeNameToEngines_lookup, range_app, range_cons, He.
    rewrite fmap_app, filter_app, fmap_cons. simpl.
    by rewrite filter_cons_True. }
  rewrite Hc in Hlen |- *. unfold selectEngine. rewrite Hv.
  rewrite find_first; [| |done].
  - destruct (filter _ (range before engineMap).*2) as [|e1 l1];
      destruct (filter _ (range after engineMap).*2) as [|e2 l2];
      simpl in Hlen; try done; try lia; by destruct l1.
  - intros ej Hej. apply list_elem_of_filter in Hej as [Hl Hej].
    apply list_elem_of_fmap in Hej as ([j ej'] & -> & Hj).
    apply elem_of_range in Hj as [Hj Hm]. by eapply Hbefore.
Qed.


(** a loop in which every turn leaves its backup as it is changes nothing *)
Lemma forEach_upgradeBackup_idle index volumeMap l rm :
  (forall k, k ∈ l ->
     exists backup,
       objects (backups rm) !! k = Some backup /\
       upgradedBackup' index volumeMap backup = Done backup) ->
  forEach (upgradeBackup' index volumeMap) l rm = (rm, Done tt).
Proof.
  induction l as [|k l IH]; intros Hidle; [done|].
  destruct (Hidle k) as (backup & Hk & Hturn); [left|].
  rewrite forEach_cons.
  rewrite (upgradeBackup_upgraded LonghornLabelBackupVolume InstanceStateRunning
             ConvertEngineBackupState _ _ k backup rm Hk), Hturn.
  replace (set_backups _ rm) with rm.
  - apply IH. intros j Hj. apply Hidle. by right.
  - apply ResourceMaps_eq; try done. apply KindCache_eq; [done|].
    simpl. by rewrite insert_id.
Qed.

(** the turn of a backup keeps its name and its labels *)
Lemma upgradedBackup_same index volumeMap backup backup' :
  upgradedBackup' index volumeMap backup = Done backup' ->
  Backup_Name backup' = Backup_Name backup /\
  Backup_Labels backup' = Backup_Labels backup.
Proof.
  unfold upgradedBackup.
  destruct (Backup_Labels backup !! LonghornLabelBackupVolume) as [volumeName|];
    [|by intros [= <-]].
  destruct (selectEngine' _ _ _) as [[engine|]|]; [|done|by intros [= <-]].
  destruct (Engine_backupStatusOf engine (Backup_Name backup)); by intros [= <-].
Qed.

(** *** The engines after upgradeEngines, seen by upgradeBackups *)

Section ClearedEngines.
Variable engineMap E1 : gmap string Engine.
Hypothesis Hcleared : activated (Engine_clearBackupStatus <$> engineMap) E1.

Lemma cleared_lookup k e' :
  E1 !! k = Some e' ->
  exists e,
    engineMap !! k = Some e /\ labelOf e' = labelOf e /\
    (forall v, running v e' = running v e) /\
    Engine_Status_BackupStatus e' = None.
Proof.
  intros He'. destruct (Hcleared k) as [Heq|Heq]; rewrite He', lookup_fmap in Heq;
    destruct (engineMap !! k) as [e|]; simplify_eq/=; by exists e.
Qed.

Lemma cleared_is_Some k : is_Some (E1 !! k) <-> is_Some (engineMap !! k).
Proof.
  destruct (Hcleared k) as [Heq|Heq]; rewrite Heq, lookup_fmap;
    destruct (engineMap !! k); simpl; split; intros [x Hx]; by eauto.
Qed.

Lemma cleared_label k :
  labelOf <$> E1 !! k = labelOf <$> engineMap !! k.
Proof.
  destruct (Hcleared k) as [Heq|Heq]; rewrite Heq, lookup_fmap;
    by destruct (engineMap !! k).
Qed.

Lemma cleared_fixed : Engine_clearBackupStatus <$> E1 = E1.
Proof.
  apply map_eq. intros k. rewrite lookup_fmap.
  destruct (E1 !! k) as [e'|] eqn:He'; [|done]. simpl. f_equal.
  destruct (cleared_lookup k e' He') as (e & _ & _ & _ & Hnone).
  destruct e'. simpl in Hnone. by subst.
Qed.

(** the number of candidates of a volume name is the number of the keys of
    its engines *)
Lemma candidates_length (m : gmap string Engine) order volumeName :
  length (candidates (indexOf order m) volumeName)
  = length (filter (fun k => labelOf <$> m !! k = Some volumeName) order).
Proof.
  rewrite volumeNameToEngines_lookup.
  induction order as [|k order IH]; [done|].
  rewrite range_cons. destruct (m !! k) as [e|] eqn:He.
  - rewrite fmap_cons. simpl. destruct (decide (labelOf e = volumeName)) as [Hl|Hl].
    + rewrite filter_cons_True by done.
      rewrite (filter_cons_True (fun k => labelOf <$> m !! k = Some volumeName));
        [|by rewrite He; simpl; f_equal].
      simpl. by rewrite IH.
    + rewrite filter_cons_False by done.
      rewrite (filter_cons_False (fun k => labelOf <$> m !! k = Some volumeName));
        [done|]. rewrite He. simpl. congruence.
  - rewrite (filter_cons_False (fun k => labelOf <$> m !! k = Some volumeName));
      [done|]. by rewrite He.
Qed.

Lemma elem_of_candidates (m : gmap string Engine) order volumeName e :
  e ∈ candidates (indexOf order m) volumeName <->
  exists k, k ∈ order /\ m !! k = Some e /\ labelOf e = volumeName.
Proof.
  rewrite volumeNameToEngines_lookup, list_elem_of_filter, list_elem_of_fmap. split.
  - intros [Hl ([k e'] & -> & Hke)]. apply elem_of_range in Hke as [Hk He].
    by exists k.
  - intros (k & Hk & He & Hl). split; [done|]. exists (k, e). split; [done|].
    by apply elem_of_range.
Qed.

Lemma cleared_candidates_length order order' volumeName :
  RangeOrder order engineMap -> RangeOrder order' E1 ->
  length (candidates (indexOf order' E1) volumeName)
  = length (candidates (indexOf order engineMap) volumeName).
Proof.
  intros Hro Hro'. rewrite !candidates_length.
  apply Permutation_length, NoDup_Permutation.
  - apply NoDup_filter. by destruct Hro'.
  - apply NoDup_filter. by destruct Hro.
  - intros k. rewrite !list_elem_of_filter, cleared_label.
    rewrite (RangeOrder_elem _ _ k Hro), (RangeOrder_elem _ _ k Hro').
    by rewrite cleared_is_Some.
Qed.

(** the turn of an upgraded backup, with the engines as upgradeEngines left
    them, leaves the backup as it is *)
Lemma upgradedBackup_again order order' volumeMap backup backup' :
  RangeOrder order engineMap -> RangeOrder order' E1 ->
  upgradedBackup' (indexOf order engineMap) volumeMap backup = Done backup' ->
  upgradedBackup' (indexOf order' E1) volumeMap backup' = Done backup'.
Proof.
  intros Hro Hro' Hturn.
  destruct (upgradedBackup_same _ _ _ _ Hturn) as [Hname Hlabels].
  unfold upgradedBackup in *. rewrite Hlabels.
  destruct (Backup_Labels backup !! LonghornLabelBackupVolume) as [volumeName|];
    [|done].
  pose proof (cleared_candidates_length order order' volumeName Hro Hro') as Hlen.
  assert (forall e', e' ∈ candidates (indexOf order' E1) volumeName ->
                     Engine_backupStatusOf e' (Backup_Name backup') = None) as Hnone.
  { intros e' He'. apply elem_of_candidates in He' as (k & _ & He' & _).
    destruct (cleared_lookup k e' He') as (e & _ & _ & _ & Hnone).
    unfold Engine_backupStatusOf. by rewrite Hnone. }
  unfold selectEngine in *.
  destruct (candidates (indexOf order' E1) volumeName) as [|e1' [|e2' l']] eqn:Hc';
    [done| |].
  { rewrite (Hnone e1'); [done|left]. }
  destruct (volumeMap !! volumeName) as [v|]; [|done].
  destruct (List.find (running v) (e1' :: e2' :: l')) as [e'|] eqn:Hfind'.
  { apply find_some in Hfind' as [He' _]. rewrite (Hnone e'); [done|].
    by apply list_elem_of_In. }
  exfalso.
  destruct (candidates (indexOf order engineMap) volumeName) as [|e1 [|e2 l]] eqn:Hc;
    simpl in Hlen; try lia.
  destruct (List.find (running v) (e1 :: e2 :: l)) as [e|] eqn:Hfind; [|done].
  apply find_some in Hfind as [He Hrun]. apply list_elem_of_In in He.
  rewrite <- Hc in He. apply elem_of_candidates in He as (k & Hk & He & Hl).
  assert (is_Some (E1 !! k)) as [e' He'] by (apply cleared_is_Some; by eexists).
  destruct (cleared_lookup k e' He') as (e0 & He0 & Hl' & Hrun' & _).
  assert (e0 = e) as -> by congruence.
  assert (e' ∈ e1' :: e2' :: l') as Hin.
  { rewrite <- Hc'. apply elem_of_candidates. exists k. split_and!; [|done|congruence].
    apply (RangeOrder_elem _ _ k Hro'). by eexists. }
  apply list_elem_of_In in Hin.
  pose proof (find_none _ _ Hfind' e' Hin) as Hno. rewrite Hrun' in Hno. congruence.
Qed.

End ClearedEngines.


(** the groups depend on the volume names of the engines only *)
Lemma groupsOf_same_names (m m' : gmap string Engine) engineOrder :
  (forall k, Engine_Spec_VolumeName <$> m' !! k = Engine_Spec_VolumeName <$> m !! k) ->
  groupsOf m' engineOrder = groupsOf m engineOrder.
Proof.
  intros Hnames. apply map_eq. intros vn. rewrite !volumeEngineMap_lookup.
  assert (groupOf m' vn engineOrder = groupOf m vn engineOrder) as ->; [|done].
  unfold groupOf. apply list_filter_iff. intros k. by rewrite Hnames.
Qed.

(** after a run of checkAndUpdateEngineActiveState that returned no error,
    a run in any order of the engines finds every group settled *)
Lemma checkAndUpdate_rerun engineOrder volumeOrder rm rm1 engineMap
    engineOrder' volumeOrder' :
  (listEngines' rm).2 = Done (inr engineMap) ->
  RangeOrder engineOrder engineMap ->
  RangeOrder volumeOrder (groupsOf engineMap engineOrder) ->
  checkAndUpdate engineOrder volumeOrder rm = (rm1, Done None) ->
  RangeOrder engineOrder' (objects (engines rm1)) ->
  checkAndUpdate engineOrder' volumeOrder' rm1 = (rm1, Done None).
Proof.
  intros Hlist Hroe Hrov Hrun Hroe'.
  destruct (checkAndUpdate_activated namespace lhClient engineOrder volumeOrder rm
              engineMap Hlist) as (rm1' & r & Hrun0 & Hadv).
  rewrite Hrun in Hrun0. injection Hrun0 as <- <-.
  destruct (listEngines_after_run namespace lhClient engineMap rm rm1 Hadv)
    as [Hlist1 Heta].
  pose proof Hadv as (_ & _ & Hact & _). simpl in Hact.
  pose proof (groups_valid engineMap engineOrder volumeOrder
                (withEngines engineMap rm) eq_refl) as Hvalid.
  rewrite (checkAndUpdate_run _ _ _ _ _ _ Hlist) in Hrun.
  rewrite (checkAndUpdate_run _ _ _ _ _ _ Hlist1), Heta.
  apply updateGroups_settled; [by apply groups_valid|].
  intros vn l' Hin. apply elem_of_groups in Hin as (_ & Hvn & Hne & Hl').
  rewrite (activated_groupOf _ _ vn engineOrder' Hact) in Hl'.
  pose proof (activated_RangeOrder _ _ _ Hact Hroe') as Hroe1.
  assert (forall k, k ∈ groupOf engineMap vn engineOrder <-> k ∈ l') as Hsame.
  { intros k. rewrite Hl', !elem_of_groupOf.
    rewrite (RangeOrder_elem _ _ k Hroe), (RangeOrder_elem _ _ k Hroe1). done. }
  assert (length (groupOf engineMap vn engineOrder) = length l') as Hlen.
  { apply Permutation_length, NoDup_Permutation; [| |done].
    - apply NoDup_groupOf. by destruct Hroe.
    - rewrite Hl'. apply NoDup_groupOf. by destruct Hroe1. }
  eapply settled_same_engines; [done..|].
  eapply (updateGroups_settles namespace lhClient _ _ _ Hvalid Hrun).
  apply elem_of_range.
  assert (groupsOf engineMap engineOrder !! vn
          = Some (groupOf engineMap vn engineOrder)) as Hgroup.
  { rewrite volumeEngineMap_lookup, decide_False; [done|].
    intros [?|Hnil]; [done|]. destruct l' as [|k l']; [done|].
    assert (k ∈ groupOf engineMap vn engineOrder) as Hk by (apply Hsame; left).
    rewrite Hnil in Hk. by apply elem_of_nil in Hk. }
  split; [|done]. apply (RangeOrder_elem _ _ _ Hrov). by eexists.
Qed.

Lemma RangeOrder_fmap {X : Type} (f : X -> X) (order : list string) (m : gmap string X) :
  RangeOrder order m -> RangeOrder order (f <$> m).
Proof. intros [Hnd Hdom]. split; [done|]. by rewrite dom_fmap_L. Qed.

(** X28: UpgradeResources can be run again.  When the store has
    no volume outside its list of volumes, and a first run has returned
    without error, a second run on the cache of the first, in any orders of
    visit, returns without error and leaves the cache as it is: no status is
    copied again, nothing panics, and no other engine is set active. *)
Theorem UpgradeResources_idempotent
    indexOrder backupOrder removeOrder engineOrder volumeOrder
    indexOrder' backupOrder' removeOrder' engineOrder' volumeOrder'
    rm rm1 backupMap engineMap volumeMap :
  (listBackups' rm).2 = Done (inr backupMap) ->
  (listEngines' rm).2 = Done (inr engineMap) ->
  (listVolumes' rm).2 = Done (inr volumeMap) ->
  (forall name v, GetVolume lhClient namespace name = inr (Some v) ->
                  is_Some (volumeMap !! name)) ->
  RangeOrder indexOrder engineMap ->
  RangeOrder backupOrder backupMap ->
  RangeOrder removeOrder engineMap ->
  RangeOrder engineOrder engineMap ->
  RangeOrder volumeOrder (groupsOf engineMap engineOrder) ->
  UpgradeResources' indexOrder backupOrder removeOrder engineOrder volumeOrder rm
    = (rm1, Done None) ->
  RangeOrder indexOrder' (objects (engines rm1)) ->
  RangeOrder removeOrder' (objects (engines rm1)) ->
  RangeOrder engineOrder' (objects (engines rm1)) ->
  UpgradeResources' indexOrder' backupOrder' removeOrder' engineOrder' volumeOrder' rm1
    = (rm1, Done None).
Proof.
  intros Hb He Hv Hstore Hroi Hrob Hror Hroe Hrov Hrun Hroi' Hror' Hroe'.
  (* the first run *)
  rewrite UpgradeResources_eq in Hrun.
  rewrite (upgradeBackups_run _ _ _ _ _ _ _ _ _ _ _ _ Hb He Hv) in Hrun.
  rewrite (RangeOrder_keys _ _ Hrob) in Hrun.
  set (rm0 := listedCache backupMap engineMap volumeMap rm) in *.
  destruct (forEach_upgradeBackup_spec LonghornLabelBackupVolume InstanceStateRunning
              ConvertEngineBackupState (indexOf indexOrder engineMap) volumeMap
              backupOrder rm0 (proj1 Hrob))
    as [(rmB & Hloop & HeB & HvB & HlB & Hall & Hobj)|(Hloop & _)].
  { intros k Hk. simpl. by apply (RangeOrder_elem backupOrder backupMap k Hrob). }
  2:{ destruct (forEach _ _ rm0) as [rmB [[]|reason]]; by simplify_eq/=. }
  rewrite Hloop in Hrun.
  assert ((listEngines' rmB).2 = Done (inr engineMap)) as HlistB.
  { unfold ListAndUpdateEnginesInProvidedCache. by rewrite HeB. }
  destruct (upgradeEngines_run namespace lhClient removeOrder engineOrder volumeOrder
              rmB engineMap HlistB Hror) as (rm1' & r & Hcu & Hadv & Hrun').
  rewrite Hrun' in Hrun. injection Hrun as -> Hr.
  assert (r = None) as -> by by destruct r.
  destruct Hadv as (Hb1 & Hle1 & Hact & Hlv1 & Hf).
  simpl in Hb1, Hle1, Hact, Hlv1, Hf, HlB.
  (* the cache after the first run *)
  assert (objects (volumes rm1) = volumeMap) as HV1.
  { apply map_eq. intros name. rewrite HvB in Hf.
    destruct (Hf name) as [Heq|(Hnone & v & Hget & _)]; [done|].
    destruct (Hstore name v Hget) as [v' Hv']. simpl in Hnone. congruence. }
  assert (listedCache (objects (backups rm1)) (objects (engines rm1)) volumeMap rm1
          = rm1) as Heta.
  { apply ResourceMaps_eq; simpl.
    - apply KindCache_eq; [|done]. simpl. by rewrite Hb1, HlB.
    - by apply KindCache_eq.
    - apply KindCache_eq; [|done]. simpl. by rewrite Hlv1, HvB. }
  assert ((listBackups' rm1).2 = Done (inr (objects (backups rm1)))) as Hb'.
  { unfold ListAndUpdateBackupsInProvidedCache. by rewrite Hb1, HlB. }
  assert ((listEngines' rm1).2 = Done (inr (objects (engines rm1)))) as He'.
  { unfold ListAndUpdateEnginesInProvidedCache. by rewrite Hle1. }
  assert ((listVolumes' rm1).2 = Done (inr volumeMap)) as Hv'.
  { unfold ListAndUpdateVolumesInProvidedCache. by rewrite Hlv1, HvB, HV1. }
  (* the second run: upgradeBackups *)
  rewrite UpgradeResources_eq.
  rewrite (upgradeBackups_run _ _ _ _ _ _ _ _ _ _ _ _ Hb' He' Hv'), Heta.
  rewrite (forEach_upgradeBackup_idle (indexOf indexOrder' (objects (engines rm1)))
             volumeMap _ rm1).
  2:{ intros k Hk. apply range_keys_present in Hk as [backup' Hk].
      exists backup'. split; [done|].
      rewrite Hb1 in Hk. apply Hobj in Hk as (backup & Hk & Hturn).
      assert (k ∈ backupOrder) as Hin.
      { apply (RangeOrder_elem backupOrder backupMap k Hrob). by eexists. }
      rewrite decide_True in Hturn by done.
      by apply (upgradedBackup_again engineMap (objects (engines rm1)) Hact
                  indexOrder indexOrder' volumeMap backup backup'). }
  (* the second run: upgradeEngines *)
  destruct (upgradeEngines_run namespace lhClient removeOrder' engineOrder' volumeOrder'
              rm1 (objects (engines rm1)) He' Hror') as (rm2 & r2 & Hcu2 & _ & Hrun2).
  rewrite Hrun2.
  rewrite (cleared_fixed engineMap (objects (engines rm1)) Hact) in Hcu2.
  replace (withEngines (objects (engines rm1)) rm1) with rm1 in Hcu2.
  2:{ apply ResourceMaps_eq; try done. by apply KindCache_eq. }
  rewrite (checkAndUpdate_rerun engineOrder volumeOrder
             (withEngines (Engine_clearBackupStatus <$> engineMap) rmB) rm1
             (Engine_clearBackupStatus <$> engineMap) engineOrder' volumeOrder')
    in Hcu2; try done.
  - by injection Hcu2 as <- <-.
  - by apply RangeOrder_fmap.
  - rewrite (groupsOf_same_names engineMap); [done|].
    intros k. rewrite lookup_fmap. by destruct (engineMap !! k).
Qed.

End RerunFacts.

(** * The statements on the scenarios *)

Import scenario.

(** a concrete order is a possible order of the range over a concrete map *)
Ltac concrete_order :=
  split; [apply (bool_decide_unpack _); vm_compute; reflexivity
         |vm_compute; reflexivity].

(** a property of all members of a concrete list *)
Ltac each_member :=
  intros;
  repeat match goal with
         | H : _ ∈ [] |- _ => by apply elem_of_nil in H
         | H : _ ∈ _ :: _ |- _ => apply elem_of_cons in H as [->|H]
         end.

(** the multi-engine backup scenario: b1 belongs to v1, v1 has the engines e1
    on n1 and e2 on n2, and v1 is on n3 *)
Lemma upgradeBackups_no_running_candidate_panics_witness :
  (upgradeBackups labelVolume labelBackupVolume stateRunning convertState namespace
     (storeOf twoBackups twoEngines elsewhereVolumes)
     ["e1"; "e2"] ["b0"; "b1"] emptyCache).2 = Panic nilDereference.
Proof.
  apply (upgradeBackups_no_running_candidate_panics
           labelVolume labelBackupVolume stateRunning convertState namespace
           (storeOf twoBackups twoEngines elsewhereVolumes)
           ["e1"; "e2"] ["b0"; "b1"] emptyCache
           twoBackups twoEngines elsewhereVolumes
           "b1" (newBackup "b1" {[ labelBackupVolume := "v1" ]}) "v1"
           (volumeOn EmptyString "n3" EmptyString)).
  - reflexivity.
  - reflexivity.
  - reflexivity.
  - concrete_order.
  - vm_compute; reflexivity.
  - vm_compute; reflexivity.
  - vm_compute; lia.
  - vm_compute; reflexivity.
  - apply Forall_forall. vm_compute.
    repeat (constructor; [reflexivity|]). constructor.
Defined.

(** b0 has no volume label; it is untouched although the run panics at b1 *)
Lemma upgradeBackups_unlabelled_backup_untouched_witness :
  objects (backups
    (upgradeBackups labelVolume labelBackupVolume stateRunning convertState namespace
       (storeOf twoBackups twoEngines elsewhereVolumes)
       ["e1"; "e2"] ["b1"; "b0"] emptyCache).1) !! "b0"
  = Some (newBackup "b0" ∅).
Proof.
  apply (proj1 (upgradeBackups_unlabelled_backup_untouched
                  labelVolume labelBackupVolume stateRunning convertState namespace
                  (storeOf twoBackups twoEngines elsewhereVolumes)
                  ["e1"; "e2"] ["b1"; "b0"] emptyCache)
               twoBackups "b0" (newBackup "b0" ∅)).
  - reflexivity.
  - vm_compute; reflexivity.
  - vm_compute; reflexivity.
Defined.

(** the status copy scenario: e1 is the only engine of v1 and holds the status
    of b1, half done *)
Lemma upgradeBackups_copies_selected_status_witness :
  exists backup',
    objects (backups
      (upgradeBackups labelVolume labelBackupVolume stateRunning convertState namespace
         (storeOf twoBackups oneEngine movingVolumes)
         ["e1"] ["b0"; "b1"] emptyCache).1) !! "b1" = Some backup' /\
    Backup_Status_Progress backup' = 50%Z /\
    Backup_Status_State backup' = "InProgress".
Proof.
  destruct (upgradeBackups_copies_selected_status
              labelVolume labelBackupVolume stateRunning convertState namespace
              (storeOf twoBackups oneEngine movingVolumes)
              ["e1"] ["b0"; "b1"] emptyCache
              (upgradeBackups labelVolume labelBackupVolume stateRunning convertState
                 namespace (storeOf twoBackups oneEngine movingVolumes)
                 ["e1"] ["b0"; "b1"] emptyCache).1
              twoBackups oneEngine movingVolumes
              "b1" (newBackup "b1" {[ labelBackupVolume := "v1" ]}) "v1"
              (engineOn "v1" "n1" false (Some {[ "b1" := halfDone ]})))
    as (backup' & Hlookup & Hfields).
  - reflexivity.
  - reflexivity.
  - reflexivity.
  - concrete_order.
  - vm_compute; reflexivity.
  - vm_compute; reflexivity.
  - vm_compute; reflexivity.
  - vm_compute; reflexivity.
  - exists backup'. split; [exact Hlookup|].
    change (Engine_backupStatusOf _ _) with (Some halfDone) in Hfields.
    destruct Hfields as (Hprogress & _ & _ & _ & Hstate & _).
    split; [exact Hprogress|exact Hstate].
Defined.

(** every engine of the two-engine scenario loses its backupStatus *)
Lemma checkAndRemoveEngineBackupStatus_clears_every_engine_witness :
  exists rm',
    checkAndRemoveEngineBackupStatus namespace (storeOf twoBackups twoEngines movingVolumes)
      ["e2"; "e1"] emptyCache = (rm', Done None) /\
    Engine_Status_BackupStatus <$> objects (engines rm') !! "e1" = Some None.
Proof.
  destruct (proj1 (checkAndRemoveEngineBackupStatus_clears_every_engine
                     namespace (storeOf twoBackups twoEngines movingVolumes)
                     ["e2"; "e1"] emptyCache) twoEngines)
    as (rm' & Hrun & _ & _ & Hall).
  - reflexivity.
  - concrete_order.
  - exists rm'. split; [exact Hrun|].
    specialize (Hall "e1").
    change (twoEngines !! "e1")
      with (Some (engineOn "v1" "n1" false (Some {[ "b1" := halfDone ]}))) in Hall.
    destruct Hall as (e' & Hlookup & Hnil & _).
    rewrite Hlookup. simpl. by rewrite Hnil.
Defined.

(** the unresolvable scenario: no node field of v1 is set; e3 is the single
    engine of v2 *)
Lemma checkAndUpdateEngineActiveState_no_engine_on_node_witness :
  (forall k, k ∈ ["e1"; "e2"] ->
     objects (engines
       (checkAndUpdateEngineActiveState namespace
          (storeOf ∅ threeEngines detachedVolumes)
          ["e1"; "e2"; "e3"] ["v1"; "v2"] emptyCache).1) !! k = threeEngines !! k) /\
  (checkAndUpdateEngineActiveState namespace (storeOf ∅ threeEngines detachedVolumes)
     ["e1"; "e2"; "e3"] ["v1"; "v2"] emptyCache).2 = Done None.
Proof.
  assert (RangeOrder ["v1"; "v2"]
            (volumeEngineMap (range ["e1"; "e2"; "e3"] threeEngines))) as Horder
    by concrete_order.
  destruct (checkAndUpdateEngineActiveState_no_engine_on_node
              namespace (storeOf ∅ threeEngines detachedVolumes)
              ["e1"; "e2"; "e3"] ["v1"; "v2"] emptyCache threeEngines
              "v1" ["e1"; "e2"] (volumeOn EmptyString EmptyString EmptyString))
    as [Hkept Hreturns].
  - reflexivity.
  - exact Horder.
  - vm_compute; reflexivity.
  - simpl; lia.
  - each_member; vm_compute in *; by simplify_eq.
  - reflexivity.
  - each_member; vm_compute in *; by simplify_eq.
  - split; [exact Hkept|]. apply Hreturns. intros vn l Hgroup Hne.
    assert (vn ∈ ["v1"; "v2"]) as Hvn.
    { apply (RangeOrder_elem _ _ vn Horder). by eexists. }
    each_member; [done|]. by eexists.
Defined.

(** the same engines, with no volume v1 in the cache or in the store *)
Lemma checkAndUpdateEngineActiveState_volume_absent_witness :
  (exists err,
     (checkAndUpdateEngineActiveState namespace (storeOf ∅ threeEngines ∅)
        ["e1"; "e2"; "e3"] ["v1"; "v2"] emptyCache).2 = Done (Some err)) /\
  checkAndUpdateEngineActiveState namespace (storeOf ∅ threeEngines ∅)
    ["e1"; "e2"; "e3"] ["v1"; "v2"] emptyCache
  = (set_engines {| listed := true; objects := threeEngines |} emptyCache,
     Done (Some (NotFound "volume" "v1"))).
Proof.
  destruct (checkAndUpdateEngineActiveState_volume_absent
              namespace (storeOf ∅ threeEngines ∅)
              ["e1"; "e2"; "e3"] ["v1"; "v2"] emptyCache threeEngines
              "v1" ["e1"; "e2"])
    as (Herr & _ & Hfirst).
  - reflexivity.
  - concrete_order.
  - vm_compute; reflexivity.
  - simpl; lia.
  - each_member; vm_compute in *; by simplify_eq.
  - reflexivity.
  - reflexivity.
  - split; [exact Herr|exact (Hfirst ["v2"] eq_refl)].
Defined.

(** the moving volume: e1, on the pending node n1, is visited before e2, on
    the current node n2 *)
Lemma checkAndUpdateEngineActiveState_activates_first_on_node_witness :
  objects (engines
    (checkAndUpdateEngineActiveState namespace (storeOf ∅ twoEngines movingVolumes)
       ["e1"; "e2"] ["v1"] emptyCache).1) !! "e1"
  = Some (Engine_setActive (engineOn "v1" "n1" false (Some {[ "b1" := halfDone ]}))) /\
  forall j, j ∈ ["e1"; "e2"] -> j <> "e1" ->
    objects (engines
      (checkAndUpdateEngineActiveState namespace (storeOf ∅ twoEngines movingVolumes)
         ["e1"; "e2"] ["v1"] emptyCache).1) !! j = twoEngines !! j.
Proof.
  apply (checkAndUpdateEngineActiveState_activates_first_on_node
           namespace (storeOf ∅ twoEngines movingVolumes)
           [] "e1" ["e2"] ["v1"] emptyCache
           (checkAndUpdateEngineActiveState namespace
              (storeOf ∅ twoEngines movingVolumes) ["e1"; "e2"] ["v1"] emptyCache).1
           twoEngines "v1" ["e1"; "e2"] (volumeOn EmptyString "n2" "n1")
           (engineOn "v1" "n1" false (Some {[ "b1" := halfDone ]}))).
  - reflexivity.
  - concrete_order.
  - vm_compute; reflexivity.
  - simpl; lia.
  - each_member; vm_compute in *; by simplify_eq.
  - reflexivity.
  - vm_compute; reflexivity.
  - reflexivity.
  - vm_compute; reflexivity.
  - each_member.
  - vm_compute; reflexivity.
Defined.

(** the single-engine shortcut: e3 is the only engine of v2 *)
Lemma checkAndUpdateEngineActiveState_exactly_one_active_witness :
  (exists k e',
     objects (engines
       (checkAndUpdateEngineActiveState namespace
          (storeOf ∅ threeEngines detachedVolumes)
          ["e3"; "e2"; "e1"] ["v2"; "v1"] emptyCache).1) !! k = Some e' /\
     Engine_Spec_VolumeName e' = "v2" /\ Engine_Spec_Active e' = true /\
     forall j ej,
       objects (engines
         (checkAndUpdateEngineActiveState namespace
            (storeOf ∅ threeEngines detachedVolumes)
            ["e3"; "e2"; "e1"] ["v2"; "v1"] emptyCache).1) !! j = Some ej ->
       Engine_Spec_VolumeName ej = "v2" -> Engine_Spec_Active ej = true -> j = k) /\
  objects (engines
    (checkAndUpdateEngineActiveState namespace (storeOf ∅ threeEngines detachedVolumes)
       ["e3"; "e2"; "e1"] ["v2"; "v1"] emptyCache).1) !! "e3"
  = Some (Engine_setActive (engineOn "v2" "n1" false None)).
Proof.
  destruct (checkAndUpdateEngineActiveState_exactly_one_active
              namespace (storeOf ∅ threeEngines detachedVolumes)
              ["e3"; "e2"; "e1"] ["v2"; "v1"] emptyCache
              (checkAndUpdateEngineActiveState namespace
                 (storeOf ∅ threeEngines detachedVolumes)
                 ["e3"; "e2"; "e1"] ["v2"; "v1"] emptyCache).1
              threeEngines "v2" ["e3"])
    as [Hone Hsingle].
  - reflexivity.
  - concrete_order.
  - concrete_order.
  - vm_compute; reflexivity.
  - vm_compute; reflexivity.
  - right. split.
    + each_member; vm_compute in *; by simplify_eq.
    + left. by exists "e3".
  - split; [exact Hone|].
    apply (Hsingle "e3" (engineOn "v2" "n1" false None)); reflexivity.
Defined.

(** running the step again on the cache of the unresolvable scenario *)
Lemma checkAndUpdateEngineActiveState_idempotent_witness :
  checkAndUpdateEngineActiveState namespace (storeOf ∅ threeEngines detachedVolumes)
    ["e1"; "e2"; "e3"] ["v1"; "v2"] detachedRun.1 = detachedRun /\
  checkAndUpdateEngineActiveState namespace (storeOf ∅ threeEngines detachedVolumes)
    ["e3"; "e2"; "e1"] ["v2"; "v1"] detachedRun.1 = (detachedRun.1, Done None).
Proof.
  destruct (checkAndUpdateEngineActiveState_idempotent
              namespace (storeOf ∅ threeEngines detachedVolumes)
              ["e1"; "e2"; "e3"] ["v1"; "v2"] emptyCache
              detachedRun.1 detachedRun.2 threeEngines)
    as (Hsame & Hany & _).
  - reflexivity.
  - concrete_order.
  - concrete_order.
  - apply surjective_pairing.
  - split.
    + rewrite Hsame. symmetry. apply surjective_pairing.
    + apply Hany; [vm_compute; reflexivity|concrete_order|concrete_order].
Defined.

(** The absent volume does not make the step skip the group: with v1 visited
    first, the step returns the NotFound of the get, and e3, the single engine
    of the group v2 that would have been visited next, is not set active. *)
Lemma checkAndUpdateEngineActiveState_volume_absent_counterexample :
  volumeEngineMap (range ["e1"; "e2"; "e3"] threeEngines) !! "v1" = Some ["e1"; "e2"] /\
  objects (volumes emptyCache) !! "v1" = None /\
  GetVolume (storeOf ∅ threeEngines ∅) namespace "v1" = inr None /\
  absentVolumeRun.2 = Done (Some (NotFound "volume" "v1")) /\
  absentVolumeRun.2 <> Done None /\
  objects (engines absentVolumeRun.1) !! "e3" = Some (engineOn "v2" "n1" false None).
Proof.
  assert (absentVolumeRun.2 = Done (Some (NotFound "volume" "v1"))) as Hresult
    by (vm_compute; reflexivity).
  split_and!; [vm_compute; reflexivity..|exact Hresult| |vm_compute; reflexivity].
  rewrite Hresult. discriminate.
Qed.

(** No priority of the current node: v1 is on n2 and is moving to n1.  When
    e1 (on the pending node n1) is visited before e2 (on the current node n2),
    e1 is set active and e2 is not; with the other order of visit it is e2. *)
Lemma checkAndUpdateEngineActiveState_current_node_priority_counterexample :
  Volume_Status_CurrentNodeID <$> movingVolumes !! "v1" = Some "n2" /\
  Volume_Status_PendingNodeID <$> movingVolumes !! "v1" = Some "n1" /\
  Engine_Spec_NodeID <$> twoEngines !! "e1" = Some "n1" /\
  Engine_Spec_NodeID <$> twoEngines !! "e2" = Some "n2" /\
  movingRun.2 = Done None /\
  Engine_Spec_Active <$> objects (engines movingRun.1) !! "e1" = Some true /\
  Engine_Spec_Active <$> objects (engines movingRun.1) !! "e2" = Some false /\
  movingRunSwapped.2 = Done None /\
  Engine_Spec_Active <$> objects (engines movingRunSwapped.1) !! "e1" = Some false /\
  Engine_Spec_Active <$> objects (engines movingRunSwapped.1) !! "e2" = Some true.
Proof. split_and!; vm_compute; reflexivity. Qed.

(** The tie-break scenario: v1 is on n2 and has no pending node; the engine on
    n2 is set active in both orders of visit. *)
Example tie_break_by_current_node :
  forall engineOrder, engineOrder = ["e1"; "e2"] \/ engineOrder = ["e2"; "e1"] ->
    Engine_Spec_Active <$>
      objects (engines
        (checkAndUpdateEngineActiveState namespace (storeOf ∅ twoEngines attachedVolumes)
           engineOrder ["v1"] emptyCache).1) !! "e1" = Some false /\
    Engine_Spec_Active <$>
      objects (engines
        (checkAndUpdateEngineActiveState namespace (storeOf ∅ twoEngines attachedVolumes)
           engineOrder ["v1"] emptyCache).1) !! "e2" = Some true.
Proof. intros engineOrder [-> | ->]; split; vm_compute; reflexivity. Qed.

(** A group with two active engines is skipped: the run returns no error and
    the group still has two active engines, not exactly one. *)
Lemma checkAndUpdateEngineActiveState_two_active_counterexample :
  Engine_Spec_Active <$> twoActiveEngines !! "e1" = Some true /\
  twoActiveRun.2 = Done None /\
  ~ (exists k e',
       objects (engines twoActiveRun.1) !! k = Some e' /\
       Engine_Spec_VolumeName e' = "v1" /\ Engine_Spec_Active e' = true /\
       forall j ej, objects (engines twoActiveRun.1) !! j = Some ej ->
                    Engine_Spec_VolumeName ej = "v1" ->
                    Engine_Spec_Active ej = true -> j = k).
Proof.
  split; [vm_compute; reflexivity|]. split; [vm_compute; reflexivity|].
  intros (k & e' & _ & _ & _ & Hunique).
  assert ("e1" = k) as H1.
  { apply (Hunique "e1" (engineOn "v1" "n1" true None)); vm_compute; reflexivity. }
  assert ("e2" = k) as H2.
  { apply (Hunique "e2" (engineOn "v1" "n2" true None)); vm_compute; reflexivity. }
  congruence.
Qed.

(** ** More statements on the scenarios *)

(** the store fails to list the engines *)
Lemma upgradeBackups_error_is_a_wrapped_listing_failure_witness :
  exists cause,
    Wrapf (StoreError "connection refused") (upgradeLogPrefix ++ "upgrade backups failed")
    = Wrapf cause (upgradeLogPrefix ++ "upgrade backups failed") /\
    ((listed (backups emptyCache) = false /\ ListBackups enginesDown namespace = inl cause /\
      enginesDownRun.1 = emptyCache) \/
     (listed (engines emptyCache) = false /\ ListEngines enginesDown namespace = inl cause /\
      exists backupMap,
        (ListAndUpdateBackupsInProvidedCache namespace enginesDown emptyCache).2
          = Done (inr backupMap) /\
        enginesDownRun.1
        = set_backups {| listed := true; objects := backupMap |} emptyCache) \/
     (listed (volumes emptyCache) = false /\ ListVolumes enginesDown namespace = inl cause /\
      exists backupMap engineMap,
        (ListAndUpdateBackupsInProvidedCache namespace enginesDown emptyCache).2
          = Done (inr backupMap) /\
        (ListAndUpdateEnginesInProvidedCache namespace enginesDown emptyCache).2
          = Done (inr engineMap) /\
        enginesDownRun.1
        = set_engines {| listed := true; objects := engineMap |}
            (set_backups {| listed := true; objects := backupMap |} emptyCache))).
Proof.
  apply (upgradeBackups_error_is_a_wrapped_listing_failure
           labelVolume labelBackupVolume stateRunning convertState namespace enginesDown
           ["e1"; "e2"] ["b0"; "b1"] emptyCache enginesDownRun.1).
  vm_compute. reflexivity.
Defined.

(** the single-engine scenario: the engines and the volumes are only read *)
Lemma upgradeBackups_only_reads_engines_and_volumes_witness :
  engines (upgradeBackups labelVolume labelBackupVolume stateRunning convertState
             namespace (storeOf twoBackups oneEngine movingVolumes)
             ["e1"] ["b0"; "b1"] emptyCache).1
    = {| listed := true; objects := oneEngine |} /\
  volumes (upgradeBackups labelVolume labelBackupVolume stateRunning convertState
             namespace (storeOf twoBackups oneEngine movingVolumes)
             ["e1"] ["b0"; "b1"] emptyCache).1
    = {| listed := true; objects := movingVolumes |} /\
  listed (backups (upgradeBackups labelVolume labelBackupVolume stateRunning
                     convertState namespace (storeOf twoBackups oneEngine movingVolumes)
                     ["e1"] ["b0"; "b1"] emptyCache).1) = true /\
  sameBackups twoBackups
    (objects (backups (upgradeBackups labelVolume labelBackupVolume stateRunning
                         convertState namespace
                         (storeOf twoBackups oneEngine movingVolumes)
                         ["e1"] ["b0"; "b1"] emptyCache).1)).
Proof.
  apply (upgradeBackups_only_reads_engines_and_volumes
           labelVolume labelBackupVolume stateRunning convertState namespace
           (storeOf twoBackups oneEngine movingVolumes)
           ["e1"] ["b0"; "b1"] emptyCache twoBackups oneEngine movingVolumes);
    reflexivity.
Defined.

(** b1 belongs to v1, and the store has no engine at all *)
Lemma upgradeBackups_backup_without_engine_untouched_witness :
  objects (backups (upgradeBackups labelVolume labelBackupVolume stateRunning
                      convertState namespace (storeOf twoBackups ∅ movingVolumes)
                      [] ["b0"; "b1"] emptyCache).1) !! "b1"
  = Some (newBackup "b1" {[ labelBackupVolume := "v1" ]}).
Proof.
  apply (upgradeBackups_backup_without_engine_untouched
           labelVolume labelBackupVolume stateRunning convertState namespace
           (storeOf twoBackups ∅ movingVolumes)
           [] ["b0"; "b1"] emptyCache twoBackups ∅ movingVolumes
           "b1" (newBackup "b1" {[ labelBackupVolume := "v1" ]}) "v1").
  - reflexivity.
  - reflexivity.
  - reflexivity.
  - vm_compute; reflexivity.
  - vm_compute; reflexivity.
  - left. vm_compute; reflexivity.
Defined.

(** the two orders of the two backups *)
Lemma upgradeBackups_backup_order_irrelevant_witness :
  (upgradeBackups labelVolume labelBackupVolume stateRunning convertState namespace
     (storeOf twoBackups oneEngine movingVolumes) ["e1"] ["b0"; "b1"] emptyCache).2
  = (upgradeBackups labelVolume labelBackupVolume stateRunning convertState namespace
       (storeOf twoBackups oneEngine movingVolumes) ["e1"] ["b1"; "b0"] emptyCache).2 /\
  (forall r,
     (upgradeBackups labelVolume labelBackupVolume stateRunning convertState namespace
        (storeOf twoBackups oneEngine movingVolumes) ["e1"] ["b0"; "b1"] emptyCache).2
       = Done r ->
     upgradeBackups labelVolume labelBackupVolume stateRunning convertState namespace
       (storeOf twoBackups oneEngine movingVolumes) ["e1"] ["b0"; "b1"] emptyCache
     = upgradeBackups labelVolume labelBackupVolume stateRunning convertState namespace
         (storeOf twoBackups oneEngine movingVolumes) ["e1"] ["b1"; "b0"] emptyCache).
Proof.
  apply (upgradeBackups_backup_order_irrelevant
           labelVolume labelBackupVolume stateRunning convertState namespace
           (storeOf twoBackups oneEngine movingVolumes)
           ["e1"] ["b0"; "b1"] ["b1"; "b0"] emptyCache twoBackups).
  - reflexivity.
  - concrete_order.
  - concrete_order.
Defined.

(** e2 is visited first and is not on n1, the current node of v1; e1 is *)
Lemma upgradeBackups_selects_first_running_candidate_witness :
  selectEngine stateRunning homeVolumes "v1"
    (default [] (volumeNameToEngines labelVolume
                   (range (["e2"] ++ "e1" :: [])%list twoEngines) !! "v1"))
  = Some (Some (engineOn "v1" "n1" false (Some {[ "b1" := halfDone ]}))).
Proof.
  apply (upgradeBackups_selects_first_running_candidate
           labelVolume stateRunning ["e2"] "e1" [] twoEngines homeVolumes "v1"
           (volumeOn "n1" "n1" EmptyString)).
  - vm_compute; reflexivity.
  - vm_compute; reflexivity.
  - vm_compute. lia.
  - vm_compute; reflexivity.
  - vm_compute; reflexivity.
  - each_member. vm_compute in *. by simplify_eq.
Defined.

(** the two orders of the two engines *)
Lemma checkAndRemoveEngineBackupStatus_order_irrelevant_witness :
  checkAndRemoveEngineBackupStatus namespace (storeOf twoBackups twoEngines movingVolumes)
    ["e1"; "e2"] emptyCache
  = checkAndRemoveEngineBackupStatus namespace
      (storeOf twoBackups twoEngines movingVolumes) ["e2"; "e1"] emptyCache.
Proof.
  apply (checkAndRemoveEngineBackupStatus_order_irrelevant
           namespace (storeOf twoBackups twoEngines movingVolumes)
           ["e1"; "e2"] ["e2"; "e1"] emptyCache twoEngines).
  - reflexivity.
  - concrete_order.
  - concrete_order.
Defined.

(** the step again, on the cache of its first run *)
Lemma checkAndRemoveEngineBackupStatus_idempotent_witness :
  checkAndRemoveEngineBackupStatus namespace (storeOf twoBackups twoEngines movingVolumes)
    ["e2"; "e1"] removeRun.1 = (removeRun.1, Done None).
Proof.
  apply (checkAndRemoveEngineBackupStatus_idempotent
           namespace (storeOf twoBackups twoEngines movingVolumes)
           ["e1"; "e2"] ["e2"; "e1"] emptyCache removeRun.1 removeRun.2 twoEngines).
  - reflexivity.
  - concrete_order.
  - apply surjective_pairing.
  - concrete_order.
Defined.

(** the unresolvable scenario *)
Lemma checkAndUpdateEngineActiveState_only_sets_active_witness :
  exists rm' r,
    checkAndUpdateEngineActiveState namespace (storeOf ∅ threeEngines detachedVolumes)
      ["e1"; "e2"; "e3"] ["v1"; "v2"] emptyCache = (rm', Done r) /\
    backups rm' = backups emptyCache /\
    listed (engines rm') = true /\
    (forall k,
       match threeEngines !! k with
       | Some e =>
           objects (engines rm') !! k = Some e \/
           (Engine_Spec_Active e = false /\
            objects (engines rm') !! k = Some (Engine_setActive e))
       | None => objects (engines rm') !! k = None
       end) /\
    listed (volumes rm') = listed (volumes emptyCache) /\
    (forall name,
       objects (volumes rm') !! name = objects (volumes emptyCache) !! name \/
       (objects (volumes emptyCache) !! name = None /\
        exists v,
          GetVolume (storeOf ∅ threeEngines detachedVolumes) namespace name
            = inr (Some v) /\
          objects (volumes rm') !! name = Some v)).
Proof.
  apply (checkAndUpdateEngineActiveState_only_sets_active
           namespace (storeOf ∅ threeEngines detachedVolumes)
           ["e1"; "e2"; "e3"] ["v1"; "v2"] emptyCache threeEngines).
  reflexivity.
Defined.

(** e0 has no volume name *)
Lemma checkAndUpdateEngineActiveState_orphan_engine_untouched_witness :
  objects (engines
    (checkAndUpdateEngineActiveState namespace (storeOf ∅ orphanEngines detachedVolumes)
       ["e0"; "e3"] ["v2"] emptyCache).1) !! "e0"
  = Some (engineOn EmptyString "n1" false None).
Proof.
  apply (checkAndUpdateEngineActiveState_orphan_engine_untouched
           namespace (storeOf ∅ orphanEngines detachedVolumes)
           ["e0"; "e3"] ["v2"] emptyCache orphanEngines "e0"
           (engineOn EmptyString "n1" false None)).
  - reflexivity.
  - vm_compute; reflexivity.
  - reflexivity.
Defined.

(** the moving scenario: of e1 and e2, one at most is changed *)
Lemma checkAndUpdateEngineActiveState_one_change_per_group_witness :
  exists k,
    forall j, j ∈ ["e1"; "e2"] -> j <> k ->
      objects (engines
        (checkAndUpdateEngineActiveState namespace
           (storeOf ∅ twoEngines movingVolumes) ["e1"; "e2"] ["v1"] emptyCache).1) !! j
      = twoEngines !! j.
Proof.
  apply (checkAndUpdateEngineActiveState_one_change_per_group
           namespace (storeOf ∅ twoEngines movingVolumes)
           ["e1"; "e2"] ["v1"] emptyCache twoEngines "v1" ["e1"; "e2"]).
  - reflexivity.
  - concrete_order.
  - vm_compute; reflexivity.
Defined.

(** the absent volume: the error is the NotFound of v1 *)
Lemma checkAndUpdateEngineActiveState_error_is_a_failed_get_witness :
  (listed (engines emptyCache) = false /\
   ListEngines (storeOf ∅ threeEngines ∅) namespace = inl (NotFound "volume" "v1") /\
   absentVolumeRun.1 = emptyCache) \/
  exists engineMap volumeName engineList,
    (ListAndUpdateEnginesInProvidedCache namespace (storeOf ∅ threeEngines ∅)
       emptyCache).2 = Done (inr engineMap) /\
    volumeEngineMap (range ["e1"; "e2"; "e3"] engineMap) !! volumeName
      = Some engineList /\
    volumeName ∈ ["v1"; "v2"] /\
    (1 < length engineList)%nat /\
    (forall k e, k ∈ engineList -> engineMap !! k = Some e ->
                 Engine_Spec_Active e = false) /\
    objects (volumes absentVolumeRun.1) !! volumeName = None /\
    (GetVolume (storeOf ∅ threeEngines ∅) namespace volumeName
       = inl (NotFound "volume" "v1") \/
     (GetVolume (storeOf ∅ threeEngines ∅) namespace volumeName = inr None /\
      NotFound "volume" "v1" = NotFound "volume" volumeName)).
Proof.
  apply (checkAndUpdateEngineActiveState_error_is_a_failed_get
           namespace (storeOf ∅ threeEngines ∅)
           ["e1"; "e2"; "e3"] ["v1"; "v2"] emptyCache absentVolumeRun.1
           (NotFound "volume" "v1")).
  vm_compute. reflexivity.
Defined.

(** the moving scenario: both engines lose their backupStatus *)
Lemma upgradeEngines_clears_then_activates_witness :
  exists rm' r,
    upgradeEngines namespace (storeOf ∅ twoEngines movingVolumes)
      ["e1"; "e2"] ["e1"; "e2"] ["v1"] emptyCache = (rm', Done r) /\
    (r = None \/
     exists cause,
       r = Some (Wrapf cause (upgradeLogPrefix ++ "upgrade engines failed"))) /\
    backups rm' = backups emptyCache /\
    forall k,
      match twoEngines !! k with
      | Some e =>
          objects (engines rm') !! k = Some (Engine_clearBackupStatus e) \/
          objects (engines rm') !! k
            = Some (Engine_setActive (Engine_clearBackupStatus e))
      | None => objects (engines rm') !! k = None
      end.
Proof.
  apply (upgradeEngines_clears_then_activates
           namespace (storeOf ∅ twoEngines movingVolumes)
           ["e1"; "e2"] ["e1"; "e2"] ["v1"] emptyCache twoEngines).
  - reflexivity.
  - concrete_order.
Defined.

(** the whole upgrade with v1 at home: b1 gets the status that e1 held, and
    e1 loses it *)
Lemma UpgradeResources_copies_then_clears_witness :
  (forall k,
     match twoBackups !! k with
     | Some backup =>
         exists backup',
           upgradedBackup labelBackupVolume stateRunning convertState
             (volumeNameToEngines labelVolume (range ["e1"; "e2"] twoEngines))
             homeVolumes backup = Done backup' /\
           objects (backups upgradeRun.1) !! k = Some backup'
     | None => objects (backups upgradeRun.1) !! k = None
     end) /\
  (forall k,
     match twoEngines !! k with
     | Some e =>
         objects (engines upgradeRun.1) !! k = Some (Engine_clearBackupStatus e) \/
         objects (engines upgradeRun.1) !! k
           = Some (Engine_setActive (Engine_clearBackupStatus e))
     | None => objects (engines upgradeRun.1) !! k = None
     end).
Proof.
  apply (UpgradeResources_copies_then_clears
           labelVolume labelBackupVolume stateRunning convertState namespace
           (storeOf twoBackups twoEngines homeVolumes)
           ["e1"; "e2"] ["b0"; "b1"] ["e1"; "e2"] ["e1"; "e2"] ["v1"] emptyCache
           upgradeRun.1 twoBackups twoEngines homeVolumes).
  - reflexivity.
  - reflexivity.
  - reflexivity.
  - concrete_order.
  - concrete_order.
  - vm_compute. reflexivity.
Defined.

(** the multi-engine backup scenario: v1 is on n3, where no engine is *)
Lemma UpgradeResources_panics_with_upgradeBackups_witness :
  (UpgradeResources labelVolume labelBackupVolume stateRunning convertState namespace
     (storeOf twoBackups twoEngines elsewhereVolumes)
     ["e1"; "e2"] ["b0"; "b1"] ["e1"; "e2"] ["e1"; "e2"] ["v1"] emptyCache).2
    = Panic nilDereference /\
  engines (UpgradeResources labelVolume labelBackupVolume stateRunning convertState
             namespace (storeOf twoBackups twoEngines elsewhereVolumes)
             ["e1"; "e2"] ["b0"; "b1"] ["e1"; "e2"] ["e1"; "e2"] ["v1"] emptyCache).1
    = {| listed := true; objects := twoEngines |}.
Proof.
  apply (UpgradeResources_panics_with_upgradeBackups
           labelVolume labelBackupVolume stateRunning convertState namespace
           (storeOf twoBackups twoEngines elsewhereVolumes)
           ["e1"; "e2"] ["b0"; "b1"] ["e1"; "e2"] ["e1"; "e2"] ["v1"] emptyCache
           twoBackups twoEngines elsewhereVolumes
           "b1" (newBackup "b1" {[ labelBackupVolume := "v1" ]}) "v1"
           (volumeOn EmptyString "n3" EmptyString)).
  - reflexivity.
  - reflexivity.
  - reflexivity.
  - concrete_order.
  - vm_compute; reflexivity.
  - vm_compute; reflexivity.
  - vm_compute. lia.
  - vm_compute; reflexivity.
  - apply Forall_forall. vm_compute.
    repeat (constructor; [reflexivity|]). constructor.
Defined.

(** v1 is missing from the store: the engine step fails *)
Lemma UpgradeResources_error_names_the_step_witness :
  exists cause,
    (Wrapf (NotFound "volume" "v1") (upgradeLogPrefix ++ "upgrade engines failed")
     = Wrapf cause (upgradeLogPrefix ++ "upgrade backups failed") /\
     upgradeBackups labelVolume labelBackupVolume stateRunning convertState namespace
       (storeOf twoBackups threeEngines ∅) ["e1"; "e2"; "e3"] ["b0"; "b1"] emptyCache
     = (missingVolumeUpgradeRun.1,
        Done (Some (Wrapf (NotFound "volume" "v1")
                      (upgradeLogPrefix ++ "upgrade engines failed"))))) \/
    (Wrapf (NotFound "volume" "v1") (upgradeLogPrefix ++ "upgrade engines failed")
     = Wrapf cause (upgradeLogPrefix ++ "upgrade engines failed") /\
     exists rm1,
       upgradeBackups labelVolume labelBackupVolume stateRunning convertState namespace
         (storeOf twoBackups threeEngines ∅) ["e1"; "e2"; "e3"] ["b0"; "b1"] emptyCache
       = (rm1, Done None) /\
       upgradeEngines namespace (storeOf twoBackups threeEngines ∅)
         ["e1"; "e2"; "e3"] ["e1"; "e2"; "e3"] ["v1"; "v2"] rm1
       = (missingVolumeUpgradeRun.1,
          Done (Some (Wrapf (NotFound "volume" "v1")
                        (upgradeLogPrefix ++ "upgrade engines failed"))))).
Proof.
  apply (UpgradeResources_error_names_the_step
           labelVolume labelBackupVolume stateRunning convertState namespace
           (storeOf twoBackups threeEngines ∅)
           ["e1"; "e2"; "e3"] ["b0"; "b1"] ["e1"; "e2"; "e3"] ["e1"; "e2"; "e3"]
           ["v1"; "v2"] emptyCache missingVolumeUpgradeRun.1).
  vm_compute. reflexivity.
Defined.

(** the whole upgrade again, in other orders, on the cache of its first run *)
Lemma UpgradeResources_idempotent_witness :
  UpgradeResources labelVolume labelBackupVolume stateRunning convertState namespace
    (storeOf twoBackups twoEngines homeVolumes)
    ["e2"; "e1"] ["b1"; "b0"] ["e2"; "e1"] ["e2"; "e1"] ["v1"] upgradeRun.1
  = (upgradeRun.1, Done None).
Proof.
  apply (UpgradeResources_idempotent
           labelVolume labelBackupVolume stateRunning convertState namespace
           (storeOf twoBackups twoEngines homeVolumes)
           ["e1"; "e2"] ["b0"; "b1"] ["e1"; "e2"] ["e1"; "e2"] ["v1"]
           ["e2"; "e1"] ["b1"; "b0"] ["e2"; "e1"] ["e2"; "e1"] ["v1"]
           emptyCache upgradeRun.1 twoBackups twoEngines homeVolumes).
  - reflexivity.
  - reflexivity.
  - reflexivity.
  - intros name v Hget. simpl in Hget. injection Hget as Hget. by eexists.
  - concrete_order.
  - concrete_order.
  - concrete_order.
  - concrete_order.
  - concrete_order.
  - vm_compute. reflexivity.
  - concrete_order.
  - concrete_order.
  - concrete_order.
Defined.

(** *** Package crypto *)
Import crypto.

(** no line of a concrete list is a device line *)
Ltac other_lines :=
  let l := fresh "l" in
  let Hl := fresh "Hl" in
  intros l Hl; each_member;
  (split; [|intros ?]); intros Hline; vm_compute in Hline; discriminate Hline.

(** a concrete status output is that of an active mapping with a device *)
Ltac active_with_device first before after :=
  exists first, before, after;
  split_and!; [vm_compute; reflexivity|vm_compute; reflexivity|other_lines].

Lemma DeviceEncryptionStatus_only_error_witness :
  "mapped device not found in path /dev/mapper/vol2"
  = "mapped device not found in path " ++ "/dev/mapper/vol2" /\
  EmptyString = EmptyString /\ EmptyString = EmptyString /\
  exists stdout first rest,
    luksStatus (TrimPrefix "/dev/mapper/vol2" (mapperFilePathPrefix ++ "/")) []
    = (["status vol2"], inr stdout) /\
    Split stdout newline = first :: rest /\ Contains first " is active" = true.
Proof.
  apply (DeviceEncryptionStatus_only_error luksStatus trimSpace
           "/dev/mapper/vol2" [] ["status vol2"]).
  vm_compute. reflexivity.
Defined.

Lemma DeviceEncryptionStatus_first_device_line_witness :
  DeviceEncryptionStatus luksStatus trimSpace "/dev/mapper/vol1" []
  = (["status vol1"],
     Done (trimSpace "  /dev/longhorn/vol1",
           TrimPrefix "/dev/mapper/vol1" (mapperFilePathPrefix ++ "/"), None)).
Proof.
  apply (DeviceEncryptionStatus_first_device_line luksStatus trimSpace
           "/dev/mapper/vol1" [] ["status vol1"] openStatus
           "  device:  /dev/longhorn/vol1" "  /dev/longhorn/vol1").
  - vm_compute. reflexivity.
  - vm_compute. reflexivity.
  - active_with_device "/dev/mapper/vol1 is active and is in use."
      ["  type:    LUKS2"; "  cipher:  aes-xts-plain64"]
      ["  size:    2064384 sectors"].
  - vm_compute. reflexivity.
Defined.

Lemma DeviceEncryptionStatus_device_line_without_colon_witness :
  DeviceEncryptionStatus luksStatus trimSpace "/dev/mapper/vol3" []
  = (["status vol3"], Panic indexOutOfRange) /\
  IsDeviceOpen luksStatus trimSpace "/dev/mapper/vol3" []
  = (["status vol3"], Panic indexOutOfRange).
Proof.
  apply (DeviceEncryptionStatus_device_line_without_colon luksStatus trimSpace
           "/dev/mapper/vol3" [] ["status vol3"] noColonStatus "  device").
  - vm_compute. reflexivity.
  - vm_compute. reflexivity.
  - active_with_device "/dev/mapper/vol3 is active." ["  type:    LUKS2"]
      (@nil string).
  - vm_compute. reflexivity.
Defined.

Lemma IsDeviceOpen_true_witness :
  @None crypto.error = None /\
  HasPrefix "/dev/mapper/vol1" mapperFilePathPrefix = true /\
  TrimPrefix "/dev/mapper/vol1" (mapperFilePathPrefix ++ "/") <> EmptyString /\
  exists stdout,
    luksStatus (TrimPrefix "/dev/mapper/vol1" (mapperFilePathPrefix ++ "/")) []
    = (["status vol1"], inr stdout).
Proof.
  apply (IsDeviceOpen_true luksStatus trimSpace "/dev/mapper/vol1" []
           ["status vol1"] None).
  vm_compute. reflexivity.
Defined.

Lemma VolumeMapper_single_element_witness :
  VolumeMapper "vol1" = mapperFilePathPrefix ++ "/" ++ "vol1" /\
  HasPrefix (VolumeMapper "vol1") mapperFilePathPrefix = true /\
  TrimPrefix (VolumeMapper "vol1") (mapperFilePathPrefix ++ "/") = "vol1".
Proof. apply (VolumeMapper_single_element "vol1"). vm_compute. reflexivity. Defined.

Lemma OpenVolume_error_from_luksOpen_witness :
  exists w',
    luksOpen "vol4" "/dev/longhorn/vol4" "guess" w'
    = (["status vol4"; "open vol4"], inl "No key available with this passphrase.").
Proof.
  apply (OpenVolume_error_from_luksOpen luksStatus trimSpace luksOpen
           "vol4" "/dev/longhorn/vol4" "guess" []).
  vm_compute. reflexivity.
Defined.

Lemma OpenVolume_not_active_witness :
  OpenVolume luksStatus trimSpace luksOpen "vol4" "/dev/longhorn/vol4" "secret" []
  = ((luksOpen "vol4" "/dev/longhorn/vol4" "secret" ["status vol4"]).1,
     Done (errorOf (luksOpen "vol4" "/dev/longhorn/vol4" "secret" ["status vol4"]).2)).
Proof.
  apply (OpenVolume_not_active luksStatus trimSpace luksOpen
           "vol4" "/dev/longhorn/vol4" "secret" [] ["status vol4"]
           (inr inactiveStatus)); vm_compute; reflexivity.
Defined.

Lemma OpenVolume_already_open_witness :
  OpenVolume luksStatus trimSpace luksOpen "vol1" "/dev/longhorn/vol1" "secret" []
  = (["status vol1"], Done None).
Proof.
  apply (OpenVolume_already_open luksStatus trimSpace luksOpen
           "vol1" "/dev/longhorn/vol1" "secret" [] ["status vol1"] openStatus
           "  device:  /dev/longhorn/vol1" "  /dev/longhorn/vol1").
  - vm_compute. reflexivity.
  - vm_compute. reflexivity.
  - active_with_device "/dev/mapper/vol1 is active and is in use."
      ["  type:    LUKS2"; "  cipher:  aes-xts-plain64"]
      ["  size:    2064384 sectors"].
  - vm_compute. reflexivity.
Defined.

Lemma ResizeEncryptoDevice_closed_witness :
  ResizeEncryptoDevice luksStatus trimSpace luksResize "vol9" "secret" []
  = (["status vol9"],
     Done (Some ("volume " ++ "vol9" ++ " encrypto device is closed for resizing"))).
Proof.
  apply (ResizeEncryptoDevice_closed luksStatus trimSpace luksResize
           "vol9" "secret" [] ["status vol9"] (inl "exit status 4"));
    vm_compute; reflexivity.
Defined.

Lemma ResizeEncryptoDevice_open_witness :
  ResizeEncryptoDevice luksStatus trimSpace luksResize "vol1" "guess" []
  = ((luksResize "vol1" "guess" ["status vol1"]).1,
     Done (errorOf (luksResize "vol1" "guess" ["status vol1"]).2)).
Proof.
  apply (ResizeEncryptoDevice_open luksStatus trimSpace luksResize
           "vol1" "guess" [] ["status vol1"] openStatus
           "  device:  /dev/longhorn/vol1" "  /dev/longhorn/vol1").
  - vm_compute. reflexivity.
  - vm_compute. reflexivity.
  - active_with_device "/dev/mapper/vol1 is active and is in use."
      ["  type:    LUKS2"; "  cipher:  aes-xts-plain64"]
      ["  size:    2064384 sectors"].
  - vm_compute. reflexivity.
Defined.

Lemma ResizeEncryptoDevice_no_device_line_witness :
  ResizeEncryptoDevice luksStatus trimSpace luksResize "vol2" "secret" []
  = (["status vol2"],
     Done (Some ("mapped device not found in path " ++ VolumeMapper "vol2"))) /\
  OpenVolume luksStatus trimSpace luksOpen "vol2" "/dev/longhorn/vol2" "secret" []
  = ((luksOpen "vol2" "/dev/longhorn/vol2" "secret" ["status vol2"]).1,
     Done (errorOf (luksOpen "vol2" "/dev/longhorn/vol2" "secret" ["status vol2"]).2)).
Proof.
  apply (ResizeEncryptoDevice_no_device_line luksStatus trimSpace luksOpen luksResize
           "vol2" "/dev/longhorn/vol2" "secret" [] ["status vol2"] noDeviceStatus
           "/dev/mapper/vol2 is active." ["  type:    LUKS2"]).
  - vm_compute. reflexivity.
  - vm_compute. reflexivity.
  - vm_compute. reflexivity.
  - vm_compute. reflexivity.
  - other_lines.
Defined.

Lemma VolumeMapper_outside_mapper_witness :
  OpenVolume luksStatus trimSpace luksOpen "../sda" "/dev/longhorn/vol1" "secret" []
  = ((luksOpen "../sda" "/dev/longhorn/vol1" "secret" []).1,
     Done (errorOf (luksOpen "../sda" "/dev/longhorn/vol1" "secret" []).2)) /\
  ResizeEncryptoDevice luksStatus trimSpace luksResize "../sda" "secret" []
  = ([], Done (Some ("volume " ++ "../sda" ++ " encrypto device is closed for resizing"))).
Proof.
  apply (VolumeMapper_outside_mapper luksStatus trimSpace luksOpen luksResize
           "../sda" "/dev/longhorn/vol1" "secret" []).
  vm_compute. reflexivity.
Defined.
